(** * ComputationNetwork: evaluation orders, traversal and node bookkeeping

    A shallow embedding of the scheduling core of
    [Source/ComputationNetworkLib/ComputationNetwork.h]: the cache of
    evaluation orders ([FormEvalOrder], [GetEvalOrder],
    [SortByGlobalEvalOrder]), the traversal that collapses recurrent loops
    ([TravserseInSortedGlobalEvalOrder], [ForwardPropFromTo]), the node
    holder ([AddNodeToNet]), the node groups ([RemoveFromNodeGroup]) and the
    flow-control nodes' [BackpropTo].

    Nodes are shared objects referred to by pointer.  A non-null
    [ComputationNodeBasePtr] is a handle into a store of node objects, the
    null pointer is [None].  C++ exceptions are values of [Error]; a method
    that changes the network is a function from the state before the call
    to an outcome and the state at the time it returned or threw. *)

From stdpp Require Import gmap strings list fin_maps sorting.

Open Scope string_scope.
Open Scope list_scope.
Open Scope nat_scope.
Open Scope stdpp_scope.

(** ** Outcomes *)

(** Modelled from the spec: the functions [LogicError], [RuntimeError] and
    [InvalidArgument] of Basics.h, which is not under src/.  Section 7: fatal
    errors that propagate at once; each throws an exception that carries its
    formatted message.  The other outcomes are a null pointer dereferenced
    (undefined behaviour in C++), a failed [assert], and the traversal bound
    of this model. *)
Inductive Error : Type :=
  | LogicError (msg : string)        (* LogicError(...) of Basics.h *)
  | RuntimeError (msg : string)      (* RuntimeError(...) *)
  | InvalidArgument (msg : string)   (* InvalidArgument(...) *)
  | NullDereference                  (* [p->m()] evaluated on a null shared_ptr *)
  | AssertionFailure                 (* a failed [assert] when NDEBUG is not defined *)
  | OutOfFuel.                       (* artefact of the model, see [traversalFuel] *)

Inductive Result (A : Type) : Type :=
  | Ok (a : A)
  | Fail (e : Error).
Arguments Ok {A} a.
Arguments Fail {A} e.

Definition isLogicError {A} (r : Result A) : bool :=
  match r with Fail (LogicError _) => true | _ => false end.

Definition isOk {A} (r : Result A) : bool :=
  match r with Ok _ => true | Fail _ => false end.

Definition bindR {A B} (r : Result A) (k : A → Result B) : Result B :=
  match r with
  | Ok a => k a
  | Fail e => Fail e
  end.

(** A computation over a state [St] that may throw: the state component of
    the answer is the state when the computation returned or threw. *)
Definition M (St A : Type) : Type := St → Result A * St.

Definition ret {St A} (a : A) : M St A := λ s, (Ok a, s).
Definition throw {St A} (e : Error) : M St A := λ s, (Fail e, s).
Definition bind {St A B} (m : M St A) (k : A → M St B) : M St B :=
  λ s, match m s with
       | (Ok a, s') => k a s'
       | (Fail e, s') => (Fail e, s')
       end.
Definition get {St} : M St St := λ s, (Ok s, s).
Definition modify {St} (f : St → St) : M St unit := λ s, (Ok tt, f s).
Definition liftR {St A} (r : St → Result A) : M St A := λ s, (r s, s).

Notation "'let!' x ':=' m 'in' k" := (bind m (λ x, k))
  (at level 10, x name, m at level 100, k at level 200, only parsing).

(** ** Node objects *)

(** A non-null pointer to a node object. *)
Abbreviation Node := nat (only parsing).

(** [ComputationNodeBasePtr]: a shared pointer, possibly null. *)
Abbreviation ComputationNodeBasePtr := (option Node) (only parsing).

(** [ComputationEnvironmentPtr] *)
Abbreviation ComputationEnvironmentPtr := nat (only parsing).

(** The part of a [ComputationNodeBase] object the network code reads and
    writes. *)
Record ComputationNodeBase : Type := {
  m_nodeName : string;
  m_operationName : string;
  m_inputs : list Node;
  m_isPartOfLoop : bool;
  m_tags : gset string;
  m_nodeEnvironment : option ComputationEnvironmentPtr
}.

Definition nullObject : ComputationNodeBase :=
  {| m_nodeName := EmptyString; m_operationName := EmptyString; m_inputs := [];
     m_isPartOfLoop := false; m_tags := ∅; m_nodeEnvironment := None |}.

Global Instance ComputationNodeBase_inhabited : Inhabited ComputationNodeBase :=
  populate nullObject.

(** ** The network *)

Record ComputationNetwork : Type := {
  (* [name] -> node, keyed through the map's comparator (see [AddNodeToNet]) *)
  m_nameToNodeMap : gmap string Node;
  m_featureNodes : list Node;
  m_labelNodes : list Node;
  m_criterionNodes : list Node;
  m_evaluationNodes : list Node;
  m_outputNodes : list Node;
  m_environment : ComputationEnvironmentPtr;
  m_allRoots : list Node;
  (* [loopId] -> SEQTraversalFlowControlNode, themselves node objects *)
  m_allSEQNodes : list Node;
  (* [out node] -> flat depth-first traversal; the null key holds the global one *)
  m_evalOrders : gmap ComputationNodeBasePtr (list Node)
}.

(** The program state: the node objects, the network, and what was written
    to stderr. *)
Record World : Type := {
  nodes : gmap Node ComputationNodeBase;
  net : ComputationNetwork;
  stderr : list string
}.

(** [*node]: the object behind a pointer.  A handle with no object in the
    store cannot arise from a shared_ptr; it reads as [nullObject], a node
    without inputs. *)
Definition deref (w : World) (node : Node) : ComputationNodeBase :=
  nodes w !!! node.

Definition NodeName (w : World) (node : Node) : string := m_nodeName (deref w node).
Definition OperationName (w : World) (node : Node) : string := m_operationName (deref w node).
Definition GetInputs (w : World) (node : Node) : list Node := m_inputs (deref w node).
Definition IsPartOfLoop (w : World) (node : Node) : bool := m_isPartOfLoop (deref w node).
Definition HasTag (w : World) (node : Node) (tag : string) : bool :=
  bool_decide (tag ∈ m_tags (deref w node)).

Definition set_net (f : ComputationNetwork → ComputationNetwork) (w : World) : World :=
  {| nodes := nodes w; net := f (net w); stderr := stderr w |}.

Definition set_nodes (f : gmap Node ComputationNodeBase → gmap Node ComputationNodeBase)
    (w : World) : World :=
  {| nodes := f (nodes w); net := net w; stderr := stderr w |}.

(** [fprintf(stderr, ...)] *)
Definition fprintf_stderr (line : string) (w : World) : World :=
  {| nodes := nodes w; net := net w; stderr := stderr w ++ [line] |}.

Definition set_evalOrders
    (f : gmap ComputationNodeBasePtr (list Node) → gmap ComputationNodeBasePtr (list Node))
    (n : ComputationNetwork) : ComputationNetwork :=
  {| m_nameToNodeMap := m_nameToNodeMap n;
     m_featureNodes := m_featureNodes n;
     m_labelNodes := m_labelNodes n;
     m_criterionNodes := m_criterionNodes n;
     m_evaluationNodes := m_evaluationNodes n;
     m_outputNodes := m_outputNodes n;
     m_environment := m_environment n;
     m_allRoots := m_allRoots n;
     m_allSEQNodes := m_allSEQNodes n;
     m_evalOrders := f (m_evalOrders n) |}.

Definition set_nameToNodeMap (f : gmap string Node → gmap string Node)
    (n : ComputationNetwork) : ComputationNetwork :=
  {| m_nameToNodeMap := f (m_nameToNodeMap n);
     m_featureNodes := m_featureNodes n;
     m_labelNodes := m_labelNodes n;
     m_criterionNodes := m_criterionNodes n;
     m_evaluationNodes := m_evaluationNodes n;
     m_outputNodes := m_outputNodes n;
     m_environment := m_environment n;
     m_allRoots := m_allRoots n;
     m_allSEQNodes := m_allSEQNodes n;
     m_evalOrders := m_evalOrders n |}.

Definition nl : string := String (Ascii.ascii_of_nat 10) EmptyString.

(** ** Graph traversal *)

Section PostOrder.

(** [DirectedGraph<TNode>::Predecessors] *)
Variable Predecessors : Node → list Node.

(** The loop [for (p : Predecessors(node)) visit(p)] over the visited set
    and the result list. *)
Fixpoint visitEach (visit : Node → gset Node * list Node → option (gset Node * list Node))
    (ps : list Node) (acc : gset Node * list Node) : option (gset Node * list Node) :=
  match ps with
  | [] => Some acc
  | p :: ps' =>
      match visit p acc with
      | Some acc' => visitEach visit ps' acc'
      | None => None
      end
  end.

(** Modelled from the spec: [PostOrderTraversal] of
    ComputationGraphAlgorithms.h, which is not under src/.  Section 4.1:
    a post-order depth-first traversal over the start nodes and their
    transitive predecessors, visiting each node exactly once, dependencies
    before dependents.  The recursion of the C++ is bounded here by [fuel],
    the depth still allowed; [None] means the bound was hit. *)
Fixpoint PostOrderTraversalImpl (fuel : nat) (node : Node)
    (acc : gset Node * list Node) : option (gset Node * list Node) :=
  match fuel with
  | O => None
  | S fuel' =>
      if decide (node ∈ acc.1) then Some acc
      else
        match visitEach (PostOrderTraversalImpl fuel') (Predecessors node)
                ({[node]} ∪ acc.1, acc.2) with
        | Some acc' => Some (acc'.1, acc'.2 ++ [node])
        | None => None
        end
  end.

Definition PostOrderTraversal (fuel : nat) (startNodes : list Node) : option (list Node) :=
  snd <$> visitEach (PostOrderTraversalImpl fuel) startNodes (∅, []).

(** [edge a b]: [b] is an input of [a]. *)
Definition edge (a b : Node) : Prop := b ∈ Predecessors a.

(** What a traversal started from [starts] has done between two values of
    the visited set and the result list: it visited the start nodes, it
    appended the newly visited nodes, each once, all of them reachable
    from a start node, and the inputs of a newly visited node are visited. *)
Record visit_post (starts : list Node) (acc acc' : gset Node * list Node) : Prop := {
  vp_mono : acc.1 ⊆ acc'.1;
  vp_starts : ∀ s, s ∈ starts → s ∈ acc'.1;
  vp_result : ∃ new, acc'.2 = acc.2 ++ new ∧ NoDup new
                     ∧ ∀ x, x ∈ new ↔ x ∈ acc'.1 ∧ x ∉ acc.1;
  vp_reach : ∀ x, x ∈ acc'.1 → x ∉ acc.1 → ∃ s, s ∈ starts ∧ rtc edge s x;
  vp_closed : ∀ x, x ∈ acc'.1 → x ∉ acc.1 → ∀ p, p ∈ Predecessors x → p ∈ acc'.1
}.

End PostOrder.

(** ** Evaluation orders *)

(** [ExecutionGraph::Predecessors]: [node->GetInputs()] *)
Definition ExecutionGraph_Predecessors (w : World) (node : Node) : list Node :=
  GetInputs w node.

(** Depth that the recursion of [PostOrderTraversal] cannot exceed: one call
    per node object not yet visited, and one more that returns at once
    ([traversal_terminates] below). *)
Definition traversalFuel (w : World) : nat := S (size (nodes w)).

Definition CNTK_PostOrderTraversal (w : World) (startNodes : list Node) : Result (list Node) :=
  match PostOrderTraversal (ExecutionGraph_Predecessors w) (traversalFuel w) startNodes with
  | Some order => Ok order
  | None => Fail OutOfFuel
  end.

(** [const std::list<ComputationNodeBasePtr>& GetEvalOrder(rootNode) const].
    The arguments of [LogicError] are [rootNode->NodeName()] and
    [rootNode->OperationName()], evaluated before the call. *)
Definition GetEvalOrder (rootNode : ComputationNodeBasePtr) (w : World) : Result (list Node) :=
  match m_evalOrders (net w) !! rootNode with
  | Some order => Ok order
  | None =>
      match rootNode with
      | Some r =>
          Fail (LogicError
                  ("GetEvalOrder: Called without prior call to FormEvalOrder() for "
                   +:+ NodeName w r +:+ " " +:+ OperationName w r +:+ " operation"))
      | None => Fail NullDereference
      end
  end.

(** [bool EvalOrderExists(rootNode) const] *)
Definition EvalOrderExists (rootNode : ComputationNodeBasePtr) (w : World) : bool :=
  bool_decide (is_Some (m_evalOrders (net w) !! rootNode)).

Definition FormEvalOrder_warning (w : World) (rootNode : ComputationNodeBasePtr) : string :=
  match rootNode with
  | Some r =>
      "FormEvalOrder: WARNING: Was called twice for "
      +:+ NodeName w r +:+ " " +:+ OperationName w r +:+ " operation." +:+ nl
  | None => "FormEvalOrder: WARNING: Was called twice." +:+ nl
  end.

(** The first statement of [FormEvalOrder]: a warning goes to stderr when an
    order is already stored for [rootNode]. *)
Definition afterWarning (rootNode : ComputationNodeBasePtr) (w : World) : World :=
  if EvalOrderExists rootNode w
  then fprintf_stderr (FormEvalOrder_warning w rootNode) w
  else w.

(** [void FormEvalOrder(const ComputationNodeBasePtr& rootNode)] *)
Definition FormEvalOrder (rootNode : ComputationNodeBasePtr) : M World unit :=
  let! _ := modify (afterWarning rootNode) in
  let! evalOrder :=
    match rootNode with
    | None => (* this creates the global list of nodes *)
        liftR (λ w, CNTK_PostOrderTraversal w (m_allRoots (net w)))
    | Some r => (* a subset of the global eval order *)
        let! rawTraversalForRoot := liftR (λ w, CNTK_PostOrderTraversal w [r]) in
        let rawSet : gset Node := list_to_set rawTraversalForRoot in
        let! globalOrder := liftR (GetEvalOrder None) in
        ret (filter (λ node, node ∈ rawSet) globalOrder)
    end in
  modify (set_net (set_evalOrders <[rootNode := evalOrder]>)).

(** [SortByGlobalEvalOrder(const ContainerType& nodesToSort)]; the container
    is given by the sequence of its elements. *)
Definition SortByGlobalEvalOrder (nodesToSort : list Node) (w : World) : Result (list Node) :=
  if decide (length nodesToSort = 1) then Ok nodesToSort
  else
    bindR (GetEvalOrder None w) (λ allNodesEvalOrder,
      Ok (filter (λ node, node ∈ nodesToSort) allNodesEvalOrder)).

(** [r]'s transitive predecessor set, [r] included: the nodes reached from
    [r] through chains of inputs. *)
Definition dependsOn (w : World) (r n : Node) : Prop :=
  rtc (edge (ExecutionGraph_Predecessors w)) r n.

(** ** Traversal in global evaluation order *)

(** The first loop of [TravserseInSortedGlobalEvalOrder]: the evaluation
    orders of the requested nodes, appended. *)
Fixpoint combineEvalOrders (w : World) (nodes : list ComputationNodeBasePtr)
    (combinedEvalOrder : list Node) : Result (list Node) :=
  match nodes with
  | [] => Ok combinedEvalOrder
  | node :: rest =>
      bindR (GetEvalOrder node w) (λ currentNodeEvalOrder,
        combineEvalOrders w rest (combinedEvalOrder ++ currentNodeEvalOrder))
  end.

Section Traversal.

(** Whether [assert] is compiled in, that is, NDEBUG is not defined. *)
Variable assertions : bool.

(** [FindInRecurrentLoops(recurrentInfo, node)] is declared in the header
    and defined in another file: the SEQTraversalFlowControlNode of the
    loop that holds [node], or null. *)
Variable FindInRecurrentLoops : list Node → Node → ComputationNodeBasePtr.

(** The first half of the loop body: what becomes of [node], and of the
    set of SEQ nodes already passed on. *)
Definition collapseLoopMember (w : World) (node : Node)
    (completedSEQNodes : gset ComputationNodeBasePtr)
    : Result (ComputationNodeBasePtr * gset ComputationNodeBasePtr) :=
  if IsPartOfLoop w node then
    let recInfo := FindInRecurrentLoops (m_allSEQNodes (net w)) node in
    if assertions && bool_decide (recInfo = None) then Fail AssertionFailure
    else if bool_decide (recInfo ∉ completedSEQNodes)  (* insert(recInfo).second *)
    then Ok (recInfo, {[recInfo]} ∪ completedSEQNodes)
    else Ok (None, {[recInfo]} ∪ completedSEQNodes)
  else Ok (Some node, completedSEQNodes).

(** The second loop: [action] works on a state of type [S]. *)
Fixpoint traverseLoop {S : Type} (w : World) (action : Node → S → S)
    (combinedEvalOrder : list Node) (completedSEQNodes : gset ComputationNodeBasePtr)
    : M S unit :=
  match combinedEvalOrder with
  | [] => ret tt
  | node :: rest =>
      match collapseLoopMember w node completedSEQNodes with
      | Fail e => throw e
      | Ok (node', completedSEQNodes') =>
          let! _ := match node' with
                    | Some n => modify (action n)
                    | None => ret tt
                    end in
          traverseLoop w action rest completedSEQNodes'
      end
  end.

(** The outcome of the second loop and the nodes it hands to the action, in
    order, whatever the action is ([traverseLoop_passed] below). *)
Fixpoint passedToAction (w : World) (combinedEvalOrder : list Node)
    (completedSEQNodes : gset ComputationNodeBasePtr) : Result unit * list Node :=
  match combinedEvalOrder with
  | [] => (Ok tt, [])
  | node :: rest =>
      match collapseLoopMember w node completedSEQNodes with
      | Fail e => (Fail e, [])
      | Ok (node', completedSEQNodes') =>
          let '(r, passed) := passedToAction w rest completedSEQNodes' in
          (r, option_list node' ++ passed)
      end
  end.

(** [TravserseInSortedGlobalEvalOrder(nodes, action)] *)
Definition TravserseInSortedGlobalEvalOrder {S : Type} (w : World)
    (nodes : list ComputationNodeBasePtr) (action : Node → S → S) : M S unit :=
  let! combinedEvalOrder := liftR (λ _, combineEvalOrders w nodes []) in
  let! combinedEvalOrder := liftR (λ _, SortByGlobalEvalOrder combinedEvalOrder w) in
  traverseLoop w action combinedEvalOrder ∅.

(** The action that only records the node it is given. *)
Definition record (node : Node) (calls : list Node) : list Node := calls ++ [node].

(** [ForwardProp(const NODESET& nodes)]: the state is the sequence of nodes
    on which [PARTraversalFlowControlNode::ForwardProp] was invoked. *)
Definition ForwardProp (w : World) (nodes : list ComputationNodeBasePtr)
    : M (list Node) unit :=
  TravserseInSortedGlobalEvalOrder w nodes record.

(** The lambda of [ForwardPropFromTo]: the loop over the inputs of [node]
    that inserts [node] into [nodesToForward]. *)
Definition markForForward (w : World) (nodesFrom : list Node) (node : Node)
    (nodesToForward : gset Node) : gset Node :=
  foldl (λ nodesToForward input,
           if bool_decide (input ∈ nodesFrom) || bool_decide (input ∈ nodesToForward)
           then {[node]} ∪ nodesToForward
           else nodesToForward)
        nodesToForward (GetInputs w node).

(** The set [nodesToForward] after the lambda was applied to the nodes
    [passed], one after the other. *)
Definition nodesToForwardAfter (w : World) (nodesFrom : list Node) (passed : list Node)
    : gset Node :=
  foldl (λ nodesToForward node, markForForward w nodesFrom node nodesToForward) ∅ passed.

(** [ForwardPropFromTo(nodesFrom, nodesTo)], over the sequence of forward
    calls. *)
Definition ForwardPropFromTo (w : World) (nodesFrom : list Node)
    (nodesTo : list ComputationNodeBasePtr) : M (list Node) unit :=
  λ calls,
    match TravserseInSortedGlobalEvalOrder w nodesTo (markForForward w nodesFrom) ∅ with
    | (Fail e, _) => (Fail e, calls)
    | (Ok _, nodesToForward) =>
        match SortByGlobalEvalOrder (elements nodesToForward) w with
        | Fail e => (Fail e, calls)
        | Ok sorted => (Ok tt, foldl (λ calls node, record node calls) calls sorted)
        end
    end.

(** [fedFromFrontier w nodesFrom order n]: [n] is in [order] and a chain of
    inputs, all of it in [order], leads from [n] down to a node that has an
    input in the frontier [nodesFrom]. *)
Inductive fedFromFrontier (w : World) (nodesFrom : list Node) (order : list Node)
    : Node → Prop :=
  | fed_direct n f :
      n ∈ order → f ∈ GetInputs w n → f ∈ nodesFrom →
      fedFromFrontier w nodesFrom order n
  | fed_chain n m :
      n ∈ order → m ∈ GetInputs w n → fedFromFrontier w nodesFrom order m →
      fedFromFrontier w nodesFrom order n.

(** Every input of an entry that is itself listed comes before it. *)
Definition inputsFirst (w : World) (order : list Node) : Prop :=
  ∀ before n after, order = before ++ n :: after →
    ∀ input, input ∈ GetInputs w n → input ∈ order → input ∈ before.

End Traversal.

(** ** The node holder *)

(** [std::map::insert(make_pair(key, value))]: the map afterwards and whether
    the pair went in. *)
Definition map_insert {V : Type} (key : string) (value : V) (m : gmap string V)
    : gmap string V * bool :=
  match m !! key with
  | Some _ => (m, false)
  | None => (<[key := value]> m, true)
  end.

Definition set_nodeEnvironment (env : ComputationEnvironmentPtr) (o : ComputationNodeBase)
    : ComputationNodeBase :=
  {| m_nodeName := m_nodeName o; m_operationName := m_operationName o;
     m_inputs := m_inputs o; m_isPartOfLoop := m_isPartOfLoop o;
     m_tags := m_tags o; m_nodeEnvironment := Some env |}.

(** [node->SetEnvironment(env)] *)
Definition SetEnvironment (node : Node) (env : ComputationEnvironmentPtr) : M World unit :=
  modify (set_nodes (alter (set_nodeEnvironment env) node)).

Section NodeHolder.

(** [m_nameToNodeMap] orders its keys with [nocase_compare], a type of
    Basics.h: two names are one key when the comparator puts neither
    before the other.  [nocase_key name] stands for the key of [name]. *)
Variable nocase_key : string → string.

Definition AddNodeToNet_message (w : World) (node : Node) : string :=
  "AddNodeToNet: Duplicated name for "
  +:+ NodeName w node +:+ " " +:+ OperationName w node +:+ " operation.".

(** [ComputationNodeBasePtr AddNodeToNet(const ComputationNodeBasePtr& node)] *)
Definition AddNodeToNet (node : Node) : M World Node :=
  let! w := get in
  let result := map_insert (nocase_key (NodeName w node)) node (m_nameToNodeMap (net w)) in
  let! _ := modify (set_net (set_nameToNodeMap (λ _, result.1))) in
  let! _ := if negb result.2
            then throw (RuntimeError (AddNodeToNet_message w node))
            else ret tt in
  let! _ := SetEnvironment node (m_environment (net w)) in
  ret node.

(** [bool NodeNameExists(name) const]: whether the name is a key of the map. *)
Definition NodeNameExists (name : string) (w : World) : bool :=
  bool_decide (is_Some (m_nameToNodeMap (net w) !! nocase_key name)).

End NodeHolder.

(** ** Node groups *)

Inductive NodeGroup : Type :=
  | featureNodes | labelNodes | criterionNodes | evaluationNodes | outputNodes.

Definition allowedTags : list string :=
  ["feature"; "label"; "criterion"; "evaluation"; "output"].

(** [std::vector<ComputationNodeBasePtr>& GetNodeGroup(groupTag)]: which of
    the five vectors the reference is to. *)
Definition GetNodeGroup (groupTag : string) : Result NodeGroup :=
  if decide (groupTag = "feature") then Ok featureNodes
  else if decide (groupTag = "label") then Ok labelNodes
  else if decide (groupTag = "criterion") then Ok criterionNodes
  else if decide (groupTag = "evaluation") then Ok evaluationNodes
  else if decide (groupTag = "output") then Ok outputNodes
  else Fail (InvalidArgument
               ("Invalid group tag '" +:+ groupTag
                +:+ "', must be one of 'feature', 'label', 'criterion', 'evaluation', 'output'.")).

Definition nodeGroup (g : NodeGroup) (n : ComputationNetwork) : list Node :=
  match g with
  | featureNodes => m_featureNodes n
  | labelNodes => m_labelNodes n
  | criterionNodes => m_criterionNodes n
  | evaluationNodes => m_evaluationNodes n
  | outputNodes => m_outputNodes n
  end.

Definition set_nodeGroup (g : NodeGroup) (l : list Node) (n : ComputationNetwork)
    : ComputationNetwork :=
  {| m_nameToNodeMap := m_nameToNodeMap n;
     m_featureNodes := match g with featureNodes => l | _ => m_featureNodes n end;
     m_labelNodes := match g with labelNodes => l | _ => m_labelNodes n end;
     m_criterionNodes := match g with criterionNodes => l | _ => m_criterionNodes n end;
     m_evaluationNodes := match g with evaluationNodes => l | _ => m_evaluationNodes n end;
     m_outputNodes := match g with outputNodes => l | _ => m_outputNodes n end;
     m_environment := m_environment n;
     m_allRoots := m_allRoots n;
     m_allSEQNodes := m_allSEQNodes n;
     m_evalOrders := m_evalOrders n |}.

Definition set_tags (f : gset string → gset string) (o : ComputationNodeBase)
    : ComputationNodeBase :=
  {| m_nodeName := m_nodeName o; m_operationName := m_operationName o;
     m_inputs := m_inputs o; m_isPartOfLoop := m_isPartOfLoop o;
     m_tags := f (m_tags o); m_nodeEnvironment := m_nodeEnvironment o |}.

(** Modelled from the spec: [ComputationNodeBase::ClearTag] of
    ComputationNode.h, which is not under src/.  Section 3: a node carries
    membership tags; the caller's comment reads "if node was not member of
    the group, we are done".  The tag is taken off the node, and the answer
    is whether the node carried it. *)
Definition ClearTag (node : Node) (tag : string) : M World bool :=
  let! w := get in
  if HasTag w node tag
  then let! _ := modify (set_nodes (alter (set_tags (λ tags, tags ∖ {[tag]})) node)) in
       ret true
  else ret false.

(** The loop of [RemoveFromNodeGroup]: the vector with the first element
    equal to [node] erased, or [None] when the loop runs to the end. *)
Fixpoint eraseFirst (node : Node) (nodeGroup : list Node) : option (list Node) :=
  match nodeGroup with
  | [] => None
  | x :: rest =>
      if decide (x = node) then Some rest
      else cons x <$> eraseFirst node rest
  end.

Definition RemoveFromNodeGroup_message (w : World) (groupTag : string) (node : Node) : string :=
  "RemoveFromNodeGroup: " +:+ NodeName w node +:+ " " +:+ OperationName w node
  +:+ " operation not found in its node group '" +:+ groupTag +:+ "'.".

(** [bool RemoveFromNodeGroup(groupTag, node)] *)
Definition RemoveFromNodeGroup (groupTag : string) (node : Node) : M World bool :=
  let! wasActuallySet := ClearTag node groupTag in
  if negb wasActuallySet then ret false
  else
    let! g := liftR (λ _, GetNodeGroup groupTag) in
    let! w := get in
    match eraseFirst node (nodeGroup g (net w)) with
    | Some erased =>
        let! _ := modify (set_net (set_nodeGroup g erased)) in
        ret true
    | None => throw (LogicError (RemoveFromNodeGroup_message w groupTag node))
    end.

(** ** Flow-control nodes *)

(** Modelled from the spec: the macro [NOT_IMPLEMENTED] of Basics.h, which
    is not under src/.  Section 4.3: the request "must fail loudly (not
    silently no-op) if invoked"; section 7 counts it among the fatal
    programming errors. *)
Definition NOT_IMPLEMENTED {St A : Type} : M St A :=
  throw (LogicError "Not Implemented").

Module SEQTraversalFlowControlNode.
(** [virtual void BackpropTo(const size_t inputIndex, const FrameRange&) override] *)
Definition BackpropTo {FrameRange : Type} (inputIndex : nat) (fr : FrameRange)
    : M World unit :=
  NOT_IMPLEMENTED.
End SEQTraversalFlowControlNode.

Module PARTraversalFlowControlNode.
(** [virtual void BackpropTo(const size_t inputIndex, const FrameRange&) override] *)
Definition BackpropTo {FrameRange : Type} (inputIndex : nat) (fr : FrameRange)
    : M World unit :=
  NOT_IMPLEMENTED.
End PARTraversalFlowControlNode.

(** ** Concrete networks *)

Definition mkNode (name op : string) (inputs : list Node) (loop : bool)
    : ComputationNodeBase :=
  {| m_nodeName := name; m_operationName := op; m_inputs := inputs;
     m_isPartOfLoop := loop; m_tags := ∅; m_nodeEnvironment := None |}.

Definition mkNet (roots : list Node) (seqNodes : list Node)
    (orders : gmap ComputationNodeBasePtr (list Node)) : ComputationNetwork :=
  {| m_nameToNodeMap := ∅; m_featureNodes := []; m_labelNodes := [];
     m_criterionNodes := []; m_evaluationNodes := []; m_outputNodes := [];
     m_environment := 0; m_allRoots := roots; m_allSEQNodes := seqNodes;
     m_evalOrders := orders |}.

(** The chain [A -> B -> C] of section 8 of the spec, with root [C], before
    any evaluation order is formed. *)
Definition chainNodes : gmap Node ComputationNodeBase :=
  <[0 := mkNode "A" "InputValue" [] false]>
    (<[1 := mkNode "B" "Plus" [0] false]>
       (<[2 := mkNode "C" "Times" [1] false]> ∅)).

Definition chainFresh : World :=
  {| nodes := chainNodes; net := mkNet [2] [] ∅; stderr := [] |}.

(** The chain after [FormEvalOrder(nullptr)]. *)
Definition chainCompiled : World := (FormEvalOrder None chainFresh).2.

(** The chain after [FormEvalOrder(nullptr)] and [FormEvalOrder(B)]. *)
Definition chainRootB : World := (FormEvalOrder (Some 1) chainCompiled).2.

(** The compiled chain with a node [D] created afterwards: the stored global
    order does not list it. *)
Definition chainWithLateNode : World :=
  {| nodes := <[3 := mkNode "D" "Minus" [2] false]> chainNodes;
     net := net chainCompiled;
     stderr := [] |}.

(** The chain with the orders of all of its nodes formed. *)
Definition chainRootC : World := (FormEvalOrder (Some 2) chainRootB).2.

(** A network without recurrent loops: no node has a SEQ node. *)
Definition noLoops (recurrentInfo : list Node) (node : Node) : ComputationNodeBasePtr :=
  None.

(** Section 8 of the spec: a recurrent loop of [D] and [E] ([D] takes the
    past value of [E]), an input [F], two roots [R1] and [R2] that both
    reach into the loop, and the SEQ node of the loop. *)
Definition loopNodes : gmap Node ComputationNodeBase :=
  <[3 := mkNode "D" "PastValue" [4] true]>
    (<[4 := mkNode "E" "Plus" [3; 5] true]>
       (<[5 := mkNode "F" "InputValue" [] false]>
          (<[6 := mkNode "R1" "Times" [4] false]>
             (<[7 := mkNode "R2" "Minus" [3] false]>
                (<[10 := mkNode "Loop_D" "SEQTraversalFlowControlNode" [] false]> ∅))))).

Definition loopFresh : World :=
  {| nodes := loopNodes; net := mkNet [6; 7] [10] ∅; stderr := [] |}.

Definition loopCompiled : World :=
  (FormEvalOrder (Some 7)
     (FormEvalOrder (Some 6) (FormEvalOrder None loopFresh).2).2).2.

(** The loop of [D] and [E] is the first SEQ node. *)
Definition loopFind (recurrentInfo : list Node) (node : Node) : ComputationNodeBasePtr :=
  if bool_decide (node = 3 ∨ node = 4) then head recurrentInfo else None.

(** Lower case of the letters [A] to [Z], as a key for names that differ in
    case only. *)
Definition lowercase_ascii (c : Ascii.ascii) : Ascii.ascii :=
  let n := Ascii.nat_of_ascii c in
  if bool_decide (65 ≤ n ≤ 90) then Ascii.ascii_of_nat (n + 32) else c.

Fixpoint lowercase (s : string) : string :=
  match s with
  | EmptyString => EmptyString
  | String c s' => String (lowercase_ascii c) (lowercase s')
  end.

Definition mkTaggedNode (name op : string) (inputs : list Node) (tags : gset string)
    : ComputationNodeBase :=
  {| m_nodeName := name; m_operationName := op; m_inputs := inputs;
     m_isPartOfLoop := false; m_tags := tags; m_nodeEnvironment := None |}.

(** A network that holds the feature node [A]; [B] carries the label tag but
    is in no group; the node named [a] is not in the network. *)
Definition groupsWorld : World :=
  {| nodes := <[0 := mkTaggedNode "A" "InputValue" [] {["feature"]}]>
                (<[1 := mkTaggedNode "B" "Plus" [0] {["label"]}]>
                   (<[8 := mkTaggedNode "a" "Times" [] ∅]> ∅));
     net := {| m_nameToNodeMap := {["a" := 0]};
               m_featureNodes := [0]; m_labelNodes := [];
               m_criterionNodes := []; m_evaluationNodes := []; m_outputNodes := [];
               m_environment := 1; m_allRoots := []; m_allSEQNodes := [];
               m_evalOrders := ∅ |};
     stderr := [] |}.


(** The loop network with [F] as an input of the SEQ node of the loop, the
    orders of both roots formed. *)
Definition loopFedCompiled : World :=
  (FormEvalOrder (Some 7)
     (FormEvalOrder (Some 6)
        (FormEvalOrder None
           {| nodes := <[10 := mkNode "Loop_D" "SEQTraversalFlowControlNode" [5] false]>
                         loopNodes;
              net := mkNet [6; 7] [10] ∅;
              stderr := [] |}).2).2).2.

(** ** More of the cache of evaluation orders *)

(** [void UpdateEvalOrder(rootNode, nodes)]: replace an existing eval order
    with an updated one. *)
Definition UpdateEvalOrder (rootNode : ComputationNodeBasePtr) (order : list Node)
    : M World unit :=
  let! _ := liftR (GetEvalOrder rootNode) in (* verify that there is already an entry *)
  modify (set_net (set_evalOrders <[rootNode := order]>)).

(** ** More of the node holder *)

Definition set_nodeName (name : string) (o : ComputationNodeBase) : ComputationNodeBase :=
  {| m_nodeName := name; m_operationName := m_operationName o;
     m_inputs := m_inputs o; m_isPartOfLoop := m_isPartOfLoop o;
     m_tags := m_tags o; m_nodeEnvironment := m_nodeEnvironment o |}.

Definition clear_nodeEnvironment (o : ComputationNodeBase) : ComputationNodeBase :=
  {| m_nodeName := m_nodeName o; m_operationName := m_operationName o;
     m_inputs := m_inputs o; m_isPartOfLoop := m_isPartOfLoop o;
     m_tags := m_tags o; m_nodeEnvironment := None |}.

(** [node->SetName(name)] *)
Definition SetName (node : Node) (name : string) : M World unit :=
  modify (set_nodes (alter (set_nodeName name) node)).

(** Whether the character [c] is one of the characters of [chars]. *)
Fixpoint occursIn (c : Ascii.ascii) (chars : string) : bool :=
  match chars with
  | EmptyString => false
  | String c' rest => bool_decide (c = c') || occursIn c rest
  end.

(** [name.find_first_of(chars) != npos]: some character of [name] is one of
    [chars]. *)
Fixpoint containsAnyOf (chars : string) (name : string) : bool :=
  match name with
  | EmptyString => false
  | String c rest => occursIn c chars || containsAnyOf chars rest
  end.

Section NodeAccess.

Variable nocase_key : string → string.

(** [size_t GetTotalNumberOfNodes() const] *)
Definition GetTotalNumberOfNodes (w : World) : nat := size (m_nameToNodeMap (net w)).

(** [ComputationNodeBasePtr GetNodeFromName(const std::wstring& name) const] *)
Definition GetNodeFromName (name : string) (w : World) : Result Node :=
  match m_nameToNodeMap (net w) !! nocase_key name with
  | None =>
      Fail (RuntimeError ("GetNodeFromName: Network has no node named '" +:+ name +:+ "'."))
  | Some node => Ok node
  end.

(** [ComputationNodeBasePtr RemoveNodeFromNet(const ComputationNodeBasePtr& node)] *)
Definition RemoveNodeFromNet (node : Node) : M World Node :=
  let! _ := modify (set_nodes (alter clear_nodeEnvironment node)) in (* SetEnvironment(nullptr) *)
  let! w := get in
  let! _ := modify (set_net (set_nameToNodeMap (delete (nocase_key (NodeName w node))))) in
  ret node.

(** The text that [%d] prints for [(int) node->m_uniqueNumericId]; the member
    is declared in ComputationNode.h. *)
Variable show_uniqueNumericId : Node → string.

Definition AddNodeToNetIfNotYet_message (w : World) (node other : Node) : string :=
  "AddNodeToNetIfNotYet: Duplicated name for "
  +:+ NodeName w node +:+ " " +:+ OperationName w node +:+ " operation ("
  +:+ show_uniqueNumericId node +:+ " vs. " +:+ show_uniqueNumericId other +:+ ").".

(** The insertion of [AddNodeToNetIfNotYet] and its [while] loop: insert
    under the name; while the name is taken by another node, fail or put
    [_] before the name and insert again.  [fuel] bounds the number of
    renamings. *)
Fixpoint insertUnderUniqueName (fuel : nat) (node : Node) (makeUniqueName : bool)
    : M World bool :=
  let! w := get in
  let key := nocase_key (NodeName w node) in
  let result := map_insert key node (m_nameToNodeMap (net w)) in
  let! _ := modify (set_net (set_nameToNodeMap (λ _, result.1))) in
  (* result.first->second: the node now stored under the key *)
  let found := default node (m_nameToNodeMap (net w) !! key) in
  if negb result.2 && negb (bool_decide (found = node)) then
    if negb makeUniqueName || negb (containsAnyOf ".[]" (NodeName w node))
    then throw (RuntimeError (AddNodeToNetIfNotYet_message w node found))
    else
      match fuel with
      | O => throw OutOfFuel
      | S fuel' =>
          let! _ := SetName node ("_" +:+ NodeName w node) in
          insertUnderUniqueName fuel' node makeUniqueName
      end
  else ret result.2.

(** [bool AddNodeToNetIfNotYet(const ComputationNodeBasePtr& node, bool makeUniqueName)].
    Each renaming makes the name longer, so the loop tries a new key every
    time: one more renaming than the map has entries is never needed. *)
Definition AddNodeToNetIfNotYet (node : Node) (makeUniqueName : bool) : M World bool :=
  let! w := get in
  let! second := insertUnderUniqueName (size (m_nameToNodeMap (net w))) node makeUniqueName in
  let! w := get in
  let! _ := SetEnvironment node (m_environment (net w)) in
  ret second.

End NodeAccess.

(** The name after [k] renamings of [AddNodeToNetIfNotYet]: [k] times [_]
    before [name]. *)
Fixpoint prefixed (k : nat) (name : string) : string :=
  match k with
  | O => name
  | S k' => "_" +:+ prefixed k' name
  end.

(** ** More of the node groups *)

(** Modelled from the spec: [ComputationNodeBase::SetTag] of
    ComputationNode.h, which is not under src/.  Section 3: a node carries
    membership tags out of feature, label, criterion, evaluation and output;
    the caller's comment reads "verify and update the node's tag".  A tag
    that is none of the five is an error; otherwise the node carries the
    tag afterwards. *)
Definition SetTag (node : Node) (tag : string) : M World unit :=
  if bool_decide (tag ∈ allowedTags)
  then modify (set_nodes (alter (set_tags (λ tags, {[tag]} ∪ tags)) node))
  else throw (RuntimeError ("SetTag: Invalid tag '" +:+ tag +:+ "'")).

(** [void AddToNodeGroup(const std::wstring& groupTag, const ComputationNodeBasePtr& node)] *)
Definition AddToNodeGroup (groupTag : string) (node : Node) : M World unit :=
  (* determine the node group by its group tag string *)
  let! g := liftR (λ _, GetNodeGroup groupTag) in
  let! w := get in
  (* if node is already in the list then we are done *)
  if HasTag w node groupTag && bool_decide (node ∈ nodeGroup g (net w)) then ret tt
  else
    (* verify and update the node's tag *)
    let! _ := SetTag node groupTag in
    (* add to the node group *)
    modify (set_net (set_nodeGroup g (nodeGroup g (net w) ++ [node]))).

(** ** Node access over the whole network *)

Section AllNodes.

(** The comparator [nocase_compare] of [m_nameToNodeMap], a type of
    Basics.h, on keys: whether the first key is ordered before the second.
    The map is iterated in this order. *)
Variable nocase_compare : string → string → bool.

(** The entries of the map in the order [for (const auto& iter : m)] visits
    them: ascending keys. *)
Definition entryBefore (e1 e2 : string * Node) : Prop :=
  nocase_compare e1.1 e2.1 = true.

Definition entryBefore_dec (e1 e2 : string * Node) : Decision (entryBefore e1 e2) :=
  decide (nocase_compare e1.1 e2.1 = true).

Definition inKeyOrder (m : gmap string Node) : list (string * Node) :=
  @merge_sort _ entryBefore entryBefore_dec (map_to_list m).

(** [std::vector<ComputationNodeBasePtr> GetAllNodes() const] *)
Definition GetAllNodes (w : World) : list Node :=
  (inKeyOrder (m_nameToNodeMap (net w))).*2.

(** [parents[node];]: make sure there is an entry. *)
Definition touchEntry (node : Node) (parents : gmap Node (gset Node)) : gmap Node (gset Node) :=
  match parents !! node with
  | Some _ => parents
  | None => <[node := ∅]> parents
  end.

(** [parents[child].insert(node);] *)
Definition insertParent (node : Node) (parents : gmap Node (gset Node)) (child : Node)
    : gmap Node (gset Node) :=
  <[child := {[node]} ∪ default ∅ (parents !! child)]> parents.

(** [CreateParentsMap() const]: a map [node] -> set of parent nodes. *)
Definition CreateParentsMap (w : World) : gmap Node (gset Node) :=
  foldl (λ parents node,
           foldl (insertParent node) (touchEntry node parents) (GetInputs w node))
        ∅ (GetAllNodes w).

End AllNodes.

Section NodeQueries.

Variable nocase_key : string → string.

(** The loop of [OutputNodesByName] over the given names. *)
Fixpoint nodesFromNames (names : list string) (w : World) : Result (list Node) :=
  match names with
  | [] => Ok []
  | name :: rest =>
      bindR (GetNodeFromName nocase_key name w) (λ node,
        bindR (nodesFromNames rest w) (λ nodes, Ok (node :: nodes)))
  end.

(** [std::vector<ComputationNodeBasePtr> OutputNodesByName(outputNodeNames)] *)
Definition OutputNodesByName (outputNodeNames : list string) (w : World) : Result (list Node) :=
  if decide (length outputNodeNames = 0) then
    if decide (length (m_outputNodes (net w)) = 0)
    then Fail (RuntimeError "There is no default output node specified in the network.")
    else Ok (m_outputNodes (net w))
  else nodesFromNames outputNodeNames w.

(** [node->GetSampleLayout().GetNumElements()]; the sample layout is
    declared in ComputationNode.h. *)
Variable GetNumElements : Node → nat.

(** The loops of [GetEvalNodesWithName] over a list of nodes:
    [if (criteriaLogged.insert(node).second) evalNodes.push_back(node);] *)
Fixpoint logEach (nodes : list Node) (acc : gset Node * list Node) : gset Node * list Node :=
  match nodes with
  | [] => acc
  | node :: rest =>
      if bool_decide (node ∈ acc.1) then logEach rest acc
      else logEach rest ({[node]} ∪ acc.1, acc.2 ++ [node])
  end.

(** The loop of [GetEvalNodesWithName] over the given names. *)
Fixpoint logEachNamed (names : list string) (w : World) (acc : gset Node * list Node)
    : Result (gset Node * list Node) :=
  match names with
  | [] => Ok acc
  | name :: rest =>
      bindR (GetNodeFromName nocase_key name w) (λ node,
        if bool_decide (node ∈ acc.1) then logEachNamed rest w acc
        else if bool_decide (GetNumElements node ≠ 1)
        then Fail (InvalidArgument "Criterion nodes to evaluate must have dimension 1x1.")
        else logEachNamed rest w ({[node]} ∪ acc.1, acc.2 ++ [node]))
  end.

(** [std::vector<ComputationNodeBasePtr> GetEvalNodesWithName(evalNodeNames)] *)
Definition GetEvalNodesWithName (evalNodeNames : list string) : M World (list Node) :=
  if decide (length evalNodeNames = 0) then
    let! _ := modify (fprintf_stderr
      ("evalNodeNames are not specified, using all the default evalnodes and training criterion nodes."
       +:+ nl)) in
    let! w := get in
    if bool_decide (m_evaluationNodes (net w) = []) && bool_decide (m_criterionNodes (net w) = [])
    then throw (InvalidArgument
                  "There is no default evaluation node or training criterion specified in the network.")
    else ret (logEach (m_criterionNodes (net w))
                (logEach (m_evaluationNodes (net w)) (∅, []))).2
  else
    let! logged := liftR (λ w, logEachNamed evalNodeNames w (∅, [])) in
    ret logged.2.

(** The comparator of [m_nameToNodeMap], as for [GetAllNodes]. *)
Variable nocase_compare : string → string → bool.

(** [GetNodesWhere(predicate, rootNode)] *)
Definition GetNodesWhere (predicate : Node → bool) (rootNode : ComputationNodeBasePtr)
    (w : World) : Result (list Node) :=
  match rootNode with
  | None => (* find nodes from all available nodes *)
      Ok (filter (λ node, predicate node = true) (GetAllNodes nocase_compare w))
  | Some r => (* for calculating a specific node *)
      bindR (GetEvalOrder (Some r) w) (λ order,
        Ok (filter (λ node, predicate node = true) order))
  end.

(** [GetNodesWithType(typeName, rootNode)] *)
Definition GetNodesWithType (typeName : string) (rootNode : ComputationNodeBasePtr) (w : World)
    : Result (list Node) :=
  GetNodesWhere (λ node, bool_decide (OperationName w node = typeName)) rootNode w.

End NodeQueries.

(** ** Word error rate *)

Module WERFunctions.

(** [std::string]: a sequence of chars.  A position is a [size_t];
    [string::npos], which no string is long enough to reach, is [None]. *)
Abbreviation cstring := (list Ascii.ascii) (only parsing).

(** The searches [s.find_first_of(c, pos)] and [s.find_first_not_of(c, pos)]
    of the C++ library: the first position at or after [pos] whose char
    satisfies [P], or npos; npos again when [pos] is npos. *)
Definition find_from (P : Ascii.ascii → Prop) `{!∀ a, Decision (P a)}
    (s : cstring) (pos : option nat) : option nat :=
  match pos with
  | None => None
  | Some p => (λ found, p + found.1) <$> list_find P (drop p s)
  end.

Definition find_first_not_of (s : cstring) (c : Ascii.ascii) (pos : option nat) : option nat :=
  find_from (λ a, a ≠ c) s pos.

Definition find_first_of (s : cstring) (c : Ascii.ascii) (pos : option nat) : option nat :=
  find_from (λ a, a = c) s pos.

(** [s.substr(pos, n)] of the C++ library, [n] defaulting to npos: [None]
    is the exception std::out_of_range, thrown when [pos > s.size()]. *)
Definition substr (s : cstring) (pos : option nat) (n : option nat) : option cstring :=
  match pos with
  | None => None
  | Some p =>
      if decide (p ≤ length s)
      then Some match n with
                | Some n => take n (drop p s)
                | None => drop p s
                end
      else None
  end.

(** [rp - lp] on [size_t]; it is evaluated only where [rp] is not npos, and
    then [lp] is a position not after [rp]. *)
Definition distance (rp : nat) (lp : option nat) : nat := rp - default 0 lp.

(** How a call ends: it returns, or std::out_of_range leaves it; the third
    is the bound of this model on the iterations of [while (true)]. *)
Inductive Completion : Type :=
  | Returns
  | Throws_out_of_range
  | Unfinished.

(** The [while (true)] loop of [convert_word_sequence_string_2_vector],
    entered with the value of [rp]; the answer holds [vt_words] as the call
    leaves it. *)
Fixpoint splitLoop (fuel : nat) (word_sequence : cstring) (separator : Ascii.ascii)
    (rp : nat) (vt_words : list cstring) : Completion * list cstring :=
  match fuel with
  | O => (Unfinished, vt_words)
  | S fuel' =>
      let lp := find_first_not_of word_sequence separator (Some rp) in
      match find_first_of word_sequence separator lp with
      | None =>
          match substr word_sequence lp None with
          | Some word => (Returns, vt_words ++ [word])
          | None => (Throws_out_of_range, vt_words)
          end
      | Some rp' =>
          match substr word_sequence lp (Some (distance rp' lp)) with
          | Some word => splitLoop fuel' word_sequence separator rp' (vt_words ++ [word])
          | None => (Throws_out_of_range, vt_words)
          end
      end
  end.

(** [void convert_word_sequence_string_2_vector(string word_sequence,
    vector<string>& vt_words, char separator)].  Every iteration but the
    last moves [rp] forward to a later separator, so the loop body runs at
    most once for each char. *)
Definition convert_word_sequence_string_2_vector (word_sequence : cstring)
    (vt_words : list cstring) (separator : Ascii.ascii) : Completion * list cstring :=
  if decide (word_sequence = []) then (Returns, vt_words)
  else splitLoop (length word_sequence) word_sequence separator 0 vt_words.

(** The words with one separator between each two of them. *)
Fixpoint joined (separator : Ascii.ascii) (words : list cstring) : cstring :=
  match words with
  | [] => []
  | [word] => word
  | word :: rest => word ++ separator :: joined separator rest
  end.

(** [short(z)]: the 16-bit two's complement value that the conversion of the
    integer [z] to [short] gives. *)
Definition to_short (z : Z) : Z := ((z + 32768) `mod` 65536 - 32768)%Z.

(** [short** mat]: the cells written so far; a cell that was allocated and
    never written has no entry. *)
Abbreviation Matrix := (gmap (nat * nat) Z) (only parsing).

(** A [for] loop over the values [l] of its index, with a body that may
    fail. *)
Fixpoint forEach {A S : Type} (body : A → S → option S) (l : list A) (s : S) : option S :=
  match l with
  | [] => Some s
  | a :: l' => s' ← body a s; forEach body l' s'
  end.

(** The body of the inner loop of [compute_wer].  [None]: an index was out
    of range or a cell was read before it was written. *)
Definition compute_wer_cell (ref rec : list cstring) (i j : nat) (mat : Matrix)
    : option Matrix :=
  diagonal ← mat !! (i - 1, j - 1);
  let mat := <[(i, j) := diagonal]> mat in
  r ← rec !! (i - 1);
  f ← ref !! (j - 1);
  if decide (r ≠ f) then
    above ← mat !! (i - 1, j);
    here ← mat !! (i, j);
    let mat := if decide (above < here)%Z then <[(i, j) := above]> mat else mat in
    left ← mat !! (i, j - 1);
    here ← mat !! (i, j);
    let mat := if decide (left < here)%Z then <[(i, j) := left]> mat else mat in
    here ← mat !! (i, j);
    Some (<[(i, j) := to_short (here + 1)]> mat)
  else Some mat.

(** The loops of [compute_wer] that fill [mat]. *)
Definition compute_wer_mat (ref rec : list cstring) : option Matrix :=
  let mat := foldl (λ mat i, <[(i, 0) := to_short (Z.of_nat i)]> mat) ∅
                   (seq 0 (S (length rec))) in
  let mat := foldl (λ mat j, <[(0, j) := to_short (Z.of_nat j)]> mat) mat
                   (seq 1 (length ref)) in
  forEach (λ i, forEach (λ j, compute_wer_cell ref rec i j) (seq 1 (length ref)))
          (seq 1 (length rec)) mat.

(** [float compute_wer(const vector<string>& ref, vector<string>& rec)]: the
    two operands of the division [float(mat[rec.size()][ref.size()]) /
    ref.size()] whose quotient is returned; the division in [float] is not
    part of this model. *)
Definition compute_wer (ref rec : list cstring) : option (Z * nat) :=
  mat ← compute_wer_mat ref rec;
  errors ← mat !! (length rec, length ref);
  Some (errors, length ref).

(** What the body of the inner loop leaves in [mat[i][j]], given whether
    the two words differ and the cells [mat[i-1][j-1]], [mat[i-1][j]] and
    [mat[i][j-1]]. *)
Definition cellValue (differ : bool) (diagonal above left : Z) : Z :=
  if differ then to_short (Z.min (Z.min diagonal above) left + 1) else diagonal.

(** [filledTo ref rec mat i j]: column 0 and row 0 of [mat] hold the
    indices, and each cell of the rows before [i], and of row [i] up to
    column [j], holds what the loop body makes of its three neighbours. *)
Definition filledTo (ref rec : list cstring) (mat : Matrix) (i j : nat) : Prop :=
  (∀ a, a ≤ length rec → mat !! (a, 0) = Some (to_short (Z.of_nat a)))
  ∧ (∀ b, b ≤ length ref → mat !! (0, b) = Some (to_short (Z.of_nat b)))
  ∧ ∀ a b, 1 ≤ a → 1 ≤ b ≤ length ref → a < i ∨ (a = i ∧ b ≤ j) →
      ∃ r f diagonal above left,
        rec !! (a - 1) = Some r ∧ ref !! (b - 1) = Some f
        ∧ mat !! (a - 1, b - 1) = Some diagonal
        ∧ mat !! (a - 1, b) = Some above
        ∧ mat !! (a, b - 1) = Some left
        ∧ mat !! (a, b) = Some (cellValue (bool_decide (r ≠ f)) diagonal above left).

End WERFunctions.

(** ** More concrete networks *)

(** The text of a node's numeric id in the examples. *)
Definition showId (node : Node) : string :=
  match node with
  | 0 => "0"
  | 1 => "1"
  | _ => "n"
  end.

(** A network that holds the node named [a.b]; the node named [A.B] is not
    in the network and has the same key. *)
Definition clashWorld : World :=
  {| nodes := <[0 := mkNode "a.b" "Plus" [] false]>
                (<[1 := mkNode "A.B" "Times" [] false]> ∅);
     net := {| m_nameToNodeMap := {["a.b" := 0]};
               m_featureNodes := []; m_labelNodes := [];
               m_criterionNodes := []; m_evaluationNodes := []; m_outputNodes := [];
               m_environment := 1; m_allRoots := []; m_allSEQNodes := [];
               m_evalOrders := ∅ |};
     stderr := [] |}.

(** A network with the evaluation nodes [err] and [ce], of which [ce] is a
    criterion node as well, and the node [wide] of four elements. *)
Definition evalWorld : World :=
  {| nodes := <[0 := mkNode "err" "ClassificationError" [2] false]>
                (<[1 := mkNode "ce" "CrossEntropyWithSoftmax" [2] false]>
                   (<[2 := mkNode "wide" "Times" [] false]> ∅));
     net := {| m_nameToNodeMap := <["err" := 0]> (<["ce" := 1]> {["wide" := 2]});
               m_featureNodes := []; m_labelNodes := [];
               m_criterionNodes := [1]; m_evaluationNodes := [0; 1]; m_outputNodes := [];
               m_environment := 1; m_allRoots := [0; 1]; m_allSEQNodes := [];
               m_evalOrders := ∅ |};
     stderr := [] |}.

Definition evalWorldNumElements (node : Node) : nat :=
  match node with
  | 2 => 4
  | _ => 1
  end.

(** The separator and words of a transcript. *)
Definition space : Ascii.ascii := Ascii.ascii_of_nat 32.

Definition theWords : list (list Ascii.ascii) :=
  [String.list_ascii_of_string "the"; String.list_ascii_of_string "cat";
   String.list_ascii_of_string "sat"].

Definition theRecognised : list (list Ascii.ascii) :=
  [String.list_ascii_of_string "the"; String.list_ascii_of_string "sat"].

(** A reference of 32768 words. *)
Definition longReference : list (list Ascii.ascii) := replicate (Z.to_nat 32768) [].

(** The comparator of the examples: the order of [String.ltb] on keys. *)
Definition keyBefore (key1 key2 : string) : bool := String.ltb key1 key2.

(** * Theorems *)

(** ** The post-order traversal *)

Section PostOrderFacts.

Variable Predecessors : Node → list Node.

Local Abbreviation edge := (edge Predecessors).
Local Abbreviation visit_post := (visit_post Predecessors).

Lemma visit_post_nil acc : visit_post [] acc acc.
Proof.
  split; try set_solver.
  exists []. rewrite app_nil_r. split; [done|]. split; [constructor|]. set_solver.
Qed.

Lemma visit_post_seq s1 s2 a b c :
  visit_post s1 a b → visit_post s2 b c → visit_post (s1 ++ s2) a c.
Proof.
  intros [m1 st1 (n1 & e1 & d1 & i1) r1 c1] [m2 st2 (n2 & e2 & d2 & i2) r2 c2].
  split.
  - set_solver.
  - intros s [Hs|Hs]%elem_of_app; [apply m2, st1, Hs | apply st2, Hs].
  - exists (n1 ++ n2). split; [by rewrite e2, e1, app_assoc|]. split.
    + apply NoDup_app. split; [done|]. split; [|done].
      intros x Hx1 Hx2. apply i1 in Hx1. apply i2 in Hx2. tauto.
    + intros x. rewrite elem_of_app, i1, i2. split.
      * intros [[? ?]|[? ?]]; split; auto.
      * intros [? ?]. destruct (decide (x ∈ b.1)); auto.
  - intros x Hc Ha. destruct (decide (x ∈ b.1)) as [Hb|Hb].
    + destruct (r1 x Hb Ha) as (s & ? & ?). exists s. split; [|done].
      apply elem_of_app; auto.
    + destruct (r2 x Hc Hb) as (s & ? & ?). exists s. split; [|done].
      apply elem_of_app; auto.
  - intros x Hc Ha p Hp. destruct (decide (x ∈ b.1)) as [Hb|Hb].
    + apply m2. eapply c1; eauto.
    + eapply c2; eauto.
Qed.

Lemma visitEach_post visit ps :
  (∀ p acc acc', visit p acc = Some acc' → visit_post [p] acc acc') →
  ∀ acc acc', visitEach visit ps acc = Some acc' → visit_post ps acc acc'.
Proof.
  intros Hvisit. induction ps as [|p ps IH]; intros acc acc' H; simpl in H.
  - inversion H; subst. apply visit_post_nil.
  - destruct (visit p acc) as [acc1|] eqn:E; [|done].
    change (p :: ps) with ([p] ++ ps).
    eapply visit_post_seq; eauto.
Qed.

Lemma PostOrderTraversalImpl_post fuel :
  ∀ node acc acc',
    PostOrderTraversalImpl Predecessors fuel node acc = Some acc' →
    visit_post [node] acc acc'.
Proof.
  induction fuel as [|fuel IH]; intros node acc acc' H; simpl in H; [done|].
  destruct (decide (node ∈ acc.1)) as [Hin|Hnin].
  - inversion H; subst. split; try set_solver.
    exists []. rewrite app_nil_r. split; [done|]. split; [constructor|]. set_solver.
  - destruct (visitEach _ _ _) as [acc1|] eqn:E; [|done].
    inversion H; subst; clear H.
    apply (visitEach_post _ _ IH) in E.
    destruct E as [m1 st1 (n1 & e1 & d1 & i1) r1 c1]. simpl in *.
    assert (Hnode : node ∈ acc1.1) by set_solver.
    split; simpl.
    + set_solver.
    + intros s Hs. apply list_elem_of_singleton in Hs. by subst.
    + exists (n1 ++ [node]). split; [by rewrite e1, app_assoc|]. split.
      * apply NoDup_app. split; [done|]. split; [|apply NoDup_singleton].
        intros x Hx1 Hx2. apply list_elem_of_singleton in Hx2. subst.
        apply i1 in Hx1. set_solver.
      * intros x. rewrite elem_of_app, i1, list_elem_of_singleton. split.
        -- intros [[? ?] | ->]; [set_solver|done].
        -- intros [? ?]. destruct (decide (x = node)); [auto|left; set_solver].
    + intros x Hx Ha. exists node. split; [apply list_elem_of_singleton; done|].
      destruct (decide (x = node)) as [->|Hne]; [done|].
      destruct (r1 x Hx) as (p & Hp & Hrtc); [set_solver|].
      eapply rtc_l; [exact Hp | exact Hrtc].
    + intros x Hx Ha p Hp.
      destruct (decide (x = node)) as [->|Hne]; [by apply st1|].
      eapply c1; eauto. set_solver.
Qed.

(** The traversal lists exactly the nodes reachable from the start nodes,
    each once. *)
Lemma PostOrderTraversal_reachable fuel startNodes order :
  PostOrderTraversal Predecessors fuel startNodes = Some order →
  NoDup order ∧ ∀ x, x ∈ order ↔ ∃ s, s ∈ startNodes ∧ rtc edge s x.
Proof.
  unfold PostOrderTraversal. intros H.
  destruct (visitEach _ _ _) as [acc'|] eqn:E; [|done].
  simpl in H. inversion H; subst; clear H.
  apply (visitEach_post _ _ (PostOrderTraversalImpl_post fuel)) in E.
  destruct E as [m1 st1 (n1 & e1 & d1 & i1) r1 c1]. simpl in *. subst.
  split; [done|]. intros x. rewrite i1. split.
  - intros [Hx _]. apply r1; set_solver.
  - intros (s & Hs & Hrtc). split; [|set_solver].
    apply st1 in Hs. induction Hrtc as [|a b c Hab _ IH]; [done|].
    apply IH. eapply c1; eauto. set_solver.
Qed.

(** Termination: when every node that has inputs lies in the finite set
    [U], a depth of one more than the nodes of [U] not yet visited is
    enough. *)
Variable U : gset Node.
Hypothesis leaves_outside : ∀ n, n ∉ U → Predecessors n = [].

Lemma visitEach_is_Some fuel :
  (∀ node acc, size (U ∖ acc.1) < fuel →
     is_Some (PostOrderTraversalImpl Predecessors fuel node acc)) →
  ∀ ps acc, size (U ∖ acc.1) < fuel →
    is_Some (visitEach (PostOrderTraversalImpl Predecessors fuel) ps acc).
Proof.
  intros Hvisit. induction ps as [|p ps IH]; intros acc Hsz; simpl; [eauto|].
  destruct (Hvisit p acc Hsz) as [acc1 E]. rewrite E.
  apply IH. apply PostOrderTraversalImpl_post in E. destruct E as [m1 _ _ _ _].
  eapply Nat.le_lt_trans; [|exact Hsz].
  apply subseteq_size. set_solver.
Qed.

Lemma PostOrderTraversalImpl_is_Some fuel :
  ∀ node acc, size (U ∖ acc.1) < fuel →
    is_Some (PostOrderTraversalImpl Predecessors fuel node acc).
Proof.
  induction fuel as [|fuel IH]; intros node acc Hsz; [lia|]. simpl.
  destruct (decide (node ∈ acc.1)) as [Hin|Hnin]; [eauto|].
  destruct (decide (node ∈ U)) as [HU|HU].
  - assert (Hlt : size (U ∖ ({[node]} ∪ acc.1)) < fuel).
    { assert (size (U ∖ ({[node]} ∪ acc.1)) < size (U ∖ acc.1)); [|lia].
      apply subset_size. set_solver. }
    destruct (visitEach_is_Some fuel IH (Predecessors node) ({[node]} ∪ acc.1, acc.2) Hlt)
      as [acc1 E].
    rewrite E. eauto.
  - rewrite (leaves_outside node HU). simpl. eauto.
Qed.

Lemma PostOrderTraversal_is_Some startNodes :
  is_Some (PostOrderTraversal Predecessors (S (size U)) startNodes).
Proof.
  unfold PostOrderTraversal.
  destruct (visitEach_is_Some (S (size U)) (PostOrderTraversalImpl_is_Some (S (size U)))
              startNodes (∅, [])) as [acc E].
  - simpl. assert (size (U ∖ ∅) ≤ size U)%nat; [|lia]. apply subseteq_size. set_solver.
  - rewrite E. simpl. eauto.
Qed.

End PostOrderFacts.

(** ** Evaluation orders *)

Lemma GetInputs_outside w n : n ∉ dom (nodes w) → ExecutionGraph_Predecessors w n = [].
Proof.
  intros H. unfold ExecutionGraph_Predecessors, GetInputs, deref.
  apply not_elem_of_dom in H. by rewrite lookup_total_alt, H.
Qed.

(** [PostOrderTraversal] returns: the bound [traversalFuel] is never hit, and
    the answer lists the transitive predecessors of the start nodes. *)
Lemma traversal_terminates w startNodes :
  ∃ order, CNTK_PostOrderTraversal w startNodes = Ok order
           ∧ NoDup order
           ∧ ∀ x, x ∈ order ↔ ∃ s, s ∈ startNodes ∧ dependsOn w s x.
Proof.
  unfold CNTK_PostOrderTraversal, traversalFuel.
  destruct (PostOrderTraversal_is_Some (ExecutionGraph_Predecessors w) (dom (nodes w))
              (GetInputs_outside w) startNodes) as [order E].
  rewrite size_dom in E. rewrite E. exists order. split; [done|].
  by apply PostOrderTraversal_reachable in E.
Qed.

Lemma nodes_afterWarning rootNode w : nodes (afterWarning rootNode w) = nodes w.
Proof. unfold afterWarning. by destruct (EvalOrderExists rootNode w). Qed.

Lemma net_afterWarning rootNode w : net (afterWarning rootNode w) = net w.
Proof. unfold afterWarning. by destruct (EvalOrderExists rootNode w). Qed.

Lemma traversal_afterWarning rootNode w startNodes :
  CNTK_PostOrderTraversal (afterWarning rootNode w) startNodes
  = CNTK_PostOrderTraversal w startNodes.
Proof. unfold afterWarning. by destruct (EvalOrderExists rootNode w). Qed.

Lemma GetEvalOrder_afterWarning rootNode r w :
  GetEvalOrder r (afterWarning rootNode w) = GetEvalOrder r w.
Proof. unfold afterWarning. by destruct (EvalOrderExists rootNode w). Qed.

Lemma GetEvalOrder_Some rootNode w order :
  m_evalOrders (net w) !! rootNode = Some order → GetEvalOrder rootNode w = Ok order.
Proof. unfold GetEvalOrder. by intros ->. Qed.

Lemma traversal_nodes w w' startNodes :
  nodes w' = nodes w →
  CNTK_PostOrderTraversal w' startNodes = CNTK_PostOrderTraversal w startNodes.
Proof.
  intros H. unfold CNTK_PostOrderTraversal, traversalFuel, ExecutionGraph_Predecessors,
    GetInputs, deref. by rewrite H.
Qed.

(** The set built from the raw traversal of a root. *)
Lemma rawSet_dependsOn w r :
  ∃ raw, CNTK_PostOrderTraversal w [r] = Ok raw
    ∧ ∀ n, n ∈ (list_to_set raw : gset Node) ↔ dependsOn w r n.
Proof.
  destruct (traversal_terminates w [r]) as (raw & E & _ & Hraw).
  exists raw. split; [done|]. intros n. rewrite elem_of_list_to_set, Hraw. split.
  - intros (s & ->%list_elem_of_singleton & ?). done.
  - intros ?. exists r. split; [apply list_elem_of_singleton; done | done].
Qed.

(** What [FormEvalOrder] does for a root once the global order is stored. *)
Lemma FormEvalOrder_root w r g raw :
  m_evalOrders (net w) !! None = Some g →
  CNTK_PostOrderTraversal w [r] = Ok raw →
  FormEvalOrder (Some r) w
  = (Ok tt,
     set_net (set_evalOrders
                <[Some r := filter (λ node, node ∈ (list_to_set raw : gset Node)) g]>)
             (afterWarning (Some r) w)).
Proof.
  intros Hg E.
  unfold FormEvalOrder, bind, modify, liftR, ret.
  rewrite traversal_afterWarning, E, GetEvalOrder_afterWarning.
  by rewrite (GetEvalOrder_Some None w g Hg).
Qed.

(** What [FormEvalOrder] does for the null root. *)
Lemma FormEvalOrder_global w :
  ∃ order, CNTK_PostOrderTraversal w (m_allRoots (net w)) = Ok order
    ∧ FormEvalOrder None w
      = (Ok tt, set_net (set_evalOrders <[None := order]>) (afterWarning None w)).
Proof.
  destruct (traversal_terminates w (m_allRoots (net w))) as (order & E & _).
  exists order. split; [done|].
  unfold FormEvalOrder, bind, modify, liftR, ret.
  by rewrite net_afterWarning, traversal_afterWarning, E.
Qed.

(** C1.  When [FormEvalOrder(r)] is called with the global order stored, it
    succeeds and the order it stores for [r] is the global order filtered to
    the transitive predecessor set of [r] ([r] included), hence a subsequence
    of it.  Formed one after the other for two roots, the two orders list
    the nodes they share in the same relative order: each, restricted to the
    predecessor set of the other root, is the same list; and when the first
    root is a dependency of the second, its order is a subsequence of the
    second's. *)
Theorem FormEvalOrder_subsequence_of_global w g r1 r2 :
  m_evalOrders (net w) !! None = Some g →
  ∃ w1 w2 (deps1 deps2 : gset Node) order1 order2,
    FormEvalOrder (Some r1) w = (Ok tt, w1)
    ∧ FormEvalOrder (Some r2) w1 = (Ok tt, w2)
    ∧ (∀ n, n ∈ deps1 ↔ dependsOn w r1 n)
    ∧ (∀ n, n ∈ deps2 ↔ dependsOn w r2 n)
    ∧ m_evalOrders (net w1) !! Some r1 = Some order1
    ∧ m_evalOrders (net w2) !! Some r1 = Some order1
    ∧ m_evalOrders (net w2) !! Some r2 = Some order2
    ∧ m_evalOrders (net w2) !! None = Some g
    ∧ order1 = filter (λ n, n ∈ deps1) g
    ∧ order2 = filter (λ n, n ∈ deps2) g
    ∧ order1 `sublist_of` g
    ∧ order2 `sublist_of` g
    ∧ filter (λ n, n ∈ deps2) order1 = filter (λ n, n ∈ deps1) order2
    ∧ (dependsOn w r2 r1 → order1 `sublist_of` order2).
Proof.
  intros Hg.
  destruct (rawSet_dependsOn w r1) as (raw1 & E1 & D1).
  destruct (rawSet_dependsOn w r2) as (raw2 & E2 & D2).
  pose proof (FormEvalOrder_root w r1 g raw1 Hg E1) as F1.
  set (order1 := filter (λ node, node ∈ (list_to_set raw1 : gset Node)) g) in *.
  set (order2 := filter (λ node, node ∈ (list_to_set raw2 : gset Node)) g).
  set (w1 := set_net (set_evalOrders <[Some r1 := order1]>) (afterWarning (Some r1) w)) in *.
  assert (Hn1 : nodes w1 = nodes w) by apply nodes_afterWarning.
  assert (Ho1 : m_evalOrders (net w1) = <[Some r1 := order1]> (m_evalOrders (net w))).
  { unfold w1. simpl. by rewrite net_afterWarning. }
  assert (Hg1 : m_evalOrders (net w1) !! None = Some g).
  { rewrite Ho1, lookup_insert_ne; done. }
  assert (E2' : CNTK_PostOrderTraversal w1 [r2] = Ok raw2).
  { by rewrite (traversal_nodes w w1 [r2] Hn1). }
  pose proof (FormEvalOrder_root w1 r2 g raw2 Hg1 E2') as F2.
  fold order2 in F2.
  set (w2 := set_net (set_evalOrders <[Some r2 := order2]>) (afterWarning (Some r2) w1)) in *.
  assert (Ho2 : m_evalOrders (net w2) = <[Some r2 := order2]> (m_evalOrders (net w1))).
  { unfold w2. simpl. by rewrite net_afterWarning. }
  exists w1, w2, (list_to_set raw1), (list_to_set raw2), order1, order2.
  repeat split; try done; try apply D1; try apply D2.
  - rewrite Ho1. apply lookup_insert_eq.
  - rewrite Ho2, Ho1. destruct (decide (r1 = r2)) as [->|Hne].
    + rewrite lookup_insert_eq. f_equal. unfold order1, order2.
      rewrite E1 in E2. by inversion E2.
    + rewrite lookup_insert_ne by congruence. apply lookup_insert_eq.
  - rewrite Ho2. apply lookup_insert_eq.
  - rewrite Ho2, lookup_insert_ne; done.
  - apply sublist_filter.
  - apply sublist_filter.
  - unfold order1, order2. rewrite !list_filter_filter.
    apply list_filter_iff. tauto.
  - intros Hdep. unfold order1, order2.
    rewrite <- (list_filter_filter_l (λ n, n ∈ (list_to_set raw1 : gset Node))
                  (λ n, n ∈ (list_to_set raw2 : gset Node))).
    + apply sublist_filter.
    + intros n Hn. apply D2. apply D1 in Hn. unfold dependsOn in *. by etrans.
Qed.

Lemma FormEvalOrder_root_unformed w r :
  m_evalOrders (net w) !! None = None →
  FormEvalOrder (Some r) w = (Fail NullDereference, afterWarning (Some r) w).
Proof.
  intros Hg. destruct (traversal_terminates w [r]) as (raw & E & _).
  unfold FormEvalOrder, bind, modify, liftR, ret.
  rewrite traversal_afterWarning, E, GetEvalOrder_afterWarning.
  unfold GetEvalOrder. by rewrite Hg.
Qed.

Lemma set_evalOrders_id f n :
  f (m_evalOrders n) = m_evalOrders n → set_evalOrders f n = n.
Proof. destruct n; unfold set_evalOrders; simpl. intros ->. reflexivity. Qed.

Lemma set_net_id f w : f (net w) = net w → set_net f w = w.
Proof. destruct w; unfold set_net; simpl. intros ->. reflexivity. Qed.

Lemma afterWarning_formed rootNode w :
  is_Some (m_evalOrders (net w) !! rootNode) →
  afterWarning rootNode w = fprintf_stderr (FormEvalOrder_warning w rootNode) w.
Proof.
  intros H. unfold afterWarning, EvalOrderExists. by rewrite bool_decide_eq_true_2.
Qed.

(** C6.  A second [FormEvalOrder(r)], called in the state the first one
    left, succeeds, prints the warning on stderr and changes nothing else:
    the cached orders, that of [r] among them, are those the first call
    left. *)
Theorem FormEvalOrder_twice rootNode w w1 :
  FormEvalOrder rootNode w = (Ok tt, w1) →
  ∃ w2, FormEvalOrder rootNode w1 = (Ok tt, w2)
    ∧ w2 = fprintf_stderr (FormEvalOrder_warning w1 rootNode) w1
    ∧ stderr w2 = stderr w1 ++ [FormEvalOrder_warning w1 rootNode]
    ∧ m_evalOrders (net w2) = m_evalOrders (net w1)
    ∧ m_evalOrders (net w2) !! rootNode = m_evalOrders (net w1) !! rootNode
    ∧ is_Some (m_evalOrders (net w1) !! rootNode).
Proof.
  intros F.
  assert (∃ order, w1 = set_net (set_evalOrders <[rootNode := order]>) (afterWarning rootNode w)
                   ∧ FormEvalOrder rootNode w1
                     = (Ok tt, set_net (set_evalOrders <[rootNode := order]>)
                                 (afterWarning rootNode w1))) as (order & Hw1 & F2).
  { destruct rootNode as [r|].
    - destruct (m_evalOrders (net w) !! None) as [g|] eqn:Hg.
      + destruct (rawSet_dependsOn w r) as (raw & E & _).
        rewrite (FormEvalOrder_root w r g raw Hg E) in F. inversion F as [Hw1].
        eexists. split; [reflexivity|]. rewrite Hw1.
        apply FormEvalOrder_root.
        * rewrite <- Hw1. simpl. rewrite net_afterWarning, lookup_insert_ne; done.
        * rewrite <- E. apply traversal_nodes. rewrite <- Hw1. apply nodes_afterWarning.
      + rewrite (FormEvalOrder_root_unformed w r Hg) in F. discriminate.
    - destruct (FormEvalOrder_global w) as (order & E & F1).
      rewrite F1 in F. inversion F as [Hw1].
      exists order. split; [reflexivity|]. rewrite Hw1.
      destruct (FormEvalOrder_global w1) as (order' & E' & F2).
      rewrite F2. do 3 f_equal.
      assert (Hr : m_allRoots (net w1) = m_allRoots (net w)).
      { rewrite <- Hw1. simpl. by rewrite net_afterWarning. }
      rewrite Hr, (traversal_nodes w w1) in E'.
      * rewrite E in E'. by inversion E'.
      * rewrite <- Hw1. apply nodes_afterWarning. }
  assert (Hl : m_evalOrders (net w1) !! rootNode = Some order).
  { rewrite Hw1. simpl. by rewrite lookup_insert_eq. }
  assert (Hw2 : set_net (set_evalOrders <[rootNode := order]>) (afterWarning rootNode w1)
                = fprintf_stderr (FormEvalOrder_warning w1 rootNode) w1).
  { rewrite afterWarning_formed by eauto.
    apply set_net_id, set_evalOrders_id. simpl. by apply insert_id. }
  rewrite Hw2 in F2.
  exists (fprintf_stderr (FormEvalOrder_warning w1 rootNode) w1).
  repeat split; eauto.
Qed.

(** C3 (the code departs from the claim).  For the null root with no global
    order stored, [GetEvalOrder] evaluates [rootNode->NodeName()] on the null
    pointer: the outcome is not the [LogicError] that names the root. *)
Theorem GetEvalOrder_null_root_unformed :
  m_evalOrders (net chainFresh) !! None = None
  ∧ GetEvalOrder None chainFresh = Fail NullDereference
  ∧ isLogicError (GetEvalOrder None chainFresh) = false.
Proof. repeat split. Qed.

(** For a non-null root with no order stored, [GetEvalOrder] throws the
    [LogicError] that names the root; being a const method it leaves the
    cache as it is. *)
Lemma GetEvalOrder_root_unformed w r :
  m_evalOrders (net w) !! Some r = None →
  GetEvalOrder (Some r) w
  = Fail (LogicError
            ("GetEvalOrder: Called without prior call to FormEvalOrder() for "
             +:+ NodeName w r +:+ " " +:+ OperationName w r +:+ " operation")).
Proof. unfold GetEvalOrder. by intros ->. Qed.

Lemma GetEvalOrder_null_unformed w :
  m_evalOrders (net w) !! None = None → GetEvalOrder None w = Fail NullDereference.
Proof. unfold GetEvalOrder. by intros ->. Qed.

(** ** Sorting by the global order *)

Lemma SortByGlobalEvalOrder_single w n : SortByGlobalEvalOrder [n] w = Ok [n].
Proof. reflexivity. Qed.

Lemma SortByGlobalEvalOrder_other w nodesToSort g :
  length nodesToSort ≠ 1 →
  m_evalOrders (net w) !! None = Some g →
  SortByGlobalEvalOrder nodesToSort w = Ok (filter (λ node, node ∈ nodesToSort) g).
Proof.
  intros Hlen Hg. unfold SortByGlobalEvalOrder.
  rewrite decide_False by done. by rewrite (GetEvalOrder_Some None w g Hg).
Qed.

Lemma filter_singleton_NoDup (n : Node) (g : list Node) :
  NoDup g → n ∈ g → filter (λ node, node ∈ [n]) g = [n].
Proof.
  induction 1 as [|x g Hx Hnd IH]; intros Hin; [by apply elem_of_nil in Hin|].
  rewrite filter_cons. destruct (decide (x ∈ [n])) as [Hxn|Hxn].
  - apply list_elem_of_singleton in Hxn. subst x. f_equal.
    clear IH Hin. induction g as [|y g IHg]; [done|].
    rewrite filter_cons_False.
    + apply IHg; [set_solver | by inversion Hnd].
    + intros Hy%list_elem_of_singleton. set_solver.
  - apply IH. apply elem_of_cons in Hin as [->|]; [|done].
    exfalso. apply Hxn. by apply list_elem_of_singleton.
Qed.

(** C4, as the code has it.  With the global order stored, a subset whose
    size is not one is answered by the global order filtered to the members
    of the subset, in the global order's relative order; a subset of exactly
    one node is handed back as it is, which is that filter when the node
    occurs in a duplicate-free global order. *)
Theorem SortByGlobalEvalOrder_filters_global w nodesToSort g :
  m_evalOrders (net w) !! None = Some g →
  (length nodesToSort ≠ 1 →
     SortByGlobalEvalOrder nodesToSort w = Ok (filter (λ node, node ∈ nodesToSort) g)
     ∧ filter (λ node, node ∈ nodesToSort) g `sublist_of` g)
  ∧ (length nodesToSort = 1 →
       SortByGlobalEvalOrder nodesToSort w = Ok nodesToSort
       ∧ (NoDup g → (∀ node, node ∈ nodesToSort → node ∈ g) →
          filter (λ node, node ∈ nodesToSort) g = nodesToSort)).
Proof.
  intros Hg. split.
  - intros Hlen. split; [by apply SortByGlobalEvalOrder_other | apply sublist_filter].
  - intros Hlen. destruct nodesToSort as [|n [|? ?]]; try done. split; [done|].
    intros Hnd Hin. apply filter_singleton_NoDup; [done|].
    apply Hin, list_elem_of_singleton. done.
Qed.

(** C4, as stated, fails: the one-node subset [D] comes back as [D], though
    the global order [A; B; C] filtered to it is empty. *)
Lemma SortByGlobalEvalOrder_single_not_filtered :
  GetEvalOrder None chainWithLateNode = Ok [0; 1; 2]
  ∧ SortByGlobalEvalOrder [3] chainWithLateNode = Ok [3]
  ∧ SortByGlobalEvalOrder [3] chainWithLateNode
    ≠ Ok (filter (λ node, node ∈ [3]) [0; 1; 2]).
Proof. split; [|split]; [vm_compute; reflexivity | reflexivity | discriminate]. Qed.

(** C9.  A subset of exactly one node is returned as it is in every state,
    whatever the cache of orders holds; for a subset of any other size the
    answer is drawn from the global order only, so a node of the subset that
    the global order does not list is not in the answer, and no error comes
    of it. *)
Theorem SortByGlobalEvalOrder_single_unconditional :
  (∀ w n, SortByGlobalEvalOrder [n] w = Ok [n])
  ∧ (∀ w nodesToSort g,
       length nodesToSort ≠ 1 →
       m_evalOrders (net w) !! None = Some g →
       ∃ sorted, SortByGlobalEvalOrder nodesToSort w = Ok sorted
         ∧ ∀ node, node ∈ nodesToSort → node ∉ g → node ∉ sorted).
Proof.
  split; [done|]. intros w nodesToSort g Hlen Hg.
  eexists. split; [by apply SortByGlobalEvalOrder_other|].
  intros node _ Hng [_ Hin]%list_elem_of_filter. done.
Qed.

(** ** Traversal with loops collapsed *)

Section TraversalFacts.

Variable assertions : bool.
Variable FindInRecurrentLoops : list Node → Node → ComputationNodeBasePtr.

Local Abbreviation collapse := (collapseLoopMember assertions FindInRecurrentLoops).
Local Abbreviation passedTo := (passedToAction assertions FindInRecurrentLoops).
Local Abbreviation Find w := (FindInRecurrentLoops (m_allSEQNodes (net w))).

(** Whatever the action, the loop applies it to the nodes of
    [passedToAction], in order. *)
Lemma traverseLoop_passed {S : Type} w (action : Node → S → S) sorted :
  ∀ completed s,
    traverseLoop assertions FindInRecurrentLoops w action sorted completed s
    = ((passedTo w sorted completed).1,
       foldl (λ s node, action node s) s (passedTo w sorted completed).2).
Proof.
  induction sorted as [|node rest IH]; intros completed s; simpl; [done|].
  destruct (collapse w node completed) as [[node' completed']|e]; [|done].
  unfold bind. destruct node' as [n|]; simpl.
  - rewrite IH. by destruct (passedTo w rest completed').
  - rewrite IH. by destruct (passedTo w rest completed').
Qed.

Lemma foldl_record (passed calls : list Node) :
  foldl (λ calls node, record node calls) calls passed = calls ++ passed.
Proof.
  revert calls. induction passed as [|x passed IH]; intros calls; simpl.
  - by rewrite app_nil_r.
  - rewrite IH. unfold record. by rewrite <- app_assoc.
Qed.

(** Where a node handed to the action comes from. *)
Lemma passedToAction_origin w sorted :
  ∀ completed x, x ∈ (passedTo w sorted completed).2 →
    (x ∈ sorted ∧ IsPartOfLoop w x = false)
    ∨ ((Some x ∉ completed)
       ∧ ∃ n, n ∈ sorted ∧ IsPartOfLoop w n = true ∧ Find w n = Some x).
Proof.
  induction sorted as [|node rest IH]; intros completed x; simpl.
  - intros []%elem_of_nil.
  - unfold collapseLoopMember.
    destruct (IsPartOfLoop w node) eqn:Hloop.
    + destruct (assertions && bool_decide (Find w node = None)); simpl;
        [intros []%elem_of_nil|].
      case_bool_decide as Hnew.
      * destruct (passedTo w rest ({[Find w node]} ∪ completed)) as [r passed] eqn:E.
        simpl. intros [Hx|Hx]%elem_of_app.
        -- destruct (Find w node) as [u|] eqn:Hu; simpl in Hx;
             [|by apply elem_of_nil in Hx].
           apply list_elem_of_singleton in Hx. subst x. right. split; [done|].
           exists node. split; [left|]; done.
        -- specialize (IH ({[Find w node]} ∪ completed) x). rewrite E in IH.
           destruct (IH Hx) as [[? ?]|[Hc (n & ? & ? & ?)]].
           ++ left. split; [by right|done].
           ++ right. split; [set_solver|]. exists n. split; [by right|done].
      * destruct (passedTo w rest ({[Find w node]} ∪ completed)) as [r passed] eqn:E.
        simpl. intros Hx.
        specialize (IH ({[Find w node]} ∪ completed) x). rewrite E in IH.
        destruct (IH Hx) as [[? ?]|[Hc (n & ? & ? & ?)]].
        -- left. split; [by right|done].
        -- right. split; [set_solver|]. exists n. split; [by right|done].
    + destruct (passedTo w rest completed) as [r passed] eqn:E.
      simpl. intros [->|Hx]%elem_of_cons.
      * left. split; [left|]; done.
      * specialize (IH completed x). rewrite E in IH.
        destruct (IH Hx) as [[? ?]|[Hc (n & ? & ? & ?)]].
        -- left. split; [by right|done].
        -- right. split; [done|]. exists n. split; [by right|done].
Qed.

(** A node that the order does not list as a plain node is handed to the
    action at one position at most, and not at all once its pointer is in
    the set of completed SEQ nodes. *)
Lemma passedToAction_once w u sorted :
  (∀ n, n ∈ sorted → IsPartOfLoop w n = false → n ≠ u) →
  ∀ completed,
    (Some u ∈ completed → u ∉ (passedTo w sorted completed).2)
    ∧ (∀ i j, (passedTo w sorted completed).2 !! i = Some u →
              (passedTo w sorted completed).2 !! j = Some u → i = j).
Proof.
  induction sorted as [|node rest IH]; intros Hplain completed; simpl.
  - split; [intros _ []%elem_of_nil | intros i j Hi; by rewrite lookup_nil in Hi].
  - assert (Hrest : ∀ n, n ∈ rest → IsPartOfLoop w n = false → n ≠ u).
    { intros n Hn. apply Hplain. by right. }
    specialize (IH Hrest).
    unfold collapseLoopMember.
    destruct (IsPartOfLoop w node) eqn:Hloop.
    + remember (Find w node) as recInfo eqn:HrecInfo.
      destruct (assertions && bool_decide (recInfo = None)); simpl.
      { split; [intros _ []%elem_of_nil | intros i j Hi; by rewrite lookup_nil in Hi]. }
      destruct (IH ({[recInfo]} ∪ completed)) as [IHnot IHpos].
      case_bool_decide as Hnew;
        destruct (passedTo w rest ({[recInfo]} ∪ completed)) as [r passed] eqn:E;
        simpl in *.
      * destruct recInfo as [v|]; simpl.
        -- destruct (decide (v = u)) as [->|Hvu].
           ++ assert (Hnot : u ∉ passed) by (apply IHnot; set_solver).
              split; [intros Hc; exfalso; by apply Hnew|].
              intros [|i] [|j]; simpl; intros Hi Hj; try done.
              ** exfalso. apply Hnot. eapply list_elem_of_lookup_2; eauto.
              ** exfalso. apply Hnot. eapply list_elem_of_lookup_2; eauto.
              ** f_equal. eauto.
           ++ split.
              ** intros Hc [?|Hin]%elem_of_cons; [congruence|].
                 revert Hin. apply IHnot. set_solver.
              ** intros [|i] [|j]; simpl; intros Hi Hj; try congruence.
                 f_equal. eauto.
        -- split; [intros Hc; apply IHnot; set_solver | done].
      * split; [intros Hc; apply IHnot; set_solver | done].
    + destruct (IH completed) as [IHnot IHpos].
      destruct (passedTo w rest completed) as [r passed] eqn:E. simpl in *.
      assert (Hne : node ≠ u) by (apply Hplain; [left|]; done).
      split.
      * intros Hc [?|Hin]%elem_of_cons; [congruence|]. by apply IHnot in Hin.
      * intros [|i] [|j]; simpl; intros Hi Hj; try congruence.
        f_equal. eauto.
Qed.

(** When the loop runs to its end, every plain node of the order and the SEQ
    node of every loop member has been handed to the action, unless the SEQ
    node was completed before. *)
Lemma passedToAction_complete w sorted :
  ∀ completed, (passedTo w sorted completed).1 = Ok tt →
    (∀ n, n ∈ sorted → IsPartOfLoop w n = false → n ∈ (passedTo w sorted completed).2)
    ∧ (∀ n u, n ∈ sorted → IsPartOfLoop w n = true → Find w n = Some u →
         Some u ∈ completed ∨ u ∈ (passedTo w sorted completed).2).
Proof.
  induction sorted as [|node rest IH]; intros completed; simpl.
  - intros _. split; [intros n []%elem_of_nil | intros n u []%elem_of_nil].
  - unfold collapseLoopMember.
    destruct (IsPartOfLoop w node) eqn:Hloop.
    + destruct (assertions && bool_decide (Find w node = None)); simpl; [done|].
      specialize (IH ({[Find w node]} ∪ completed)).
      case_bool_decide as Hnew;
        destruct (passedTo w rest ({[Find w node]} ∪ completed)) as [r passed] eqn:E;
        simpl in *; intros Hr; destruct (IH Hr) as [IHp IHl]; split.
      * intros n [->|Hn]%elem_of_cons Hnl; [congruence|].
        apply elem_of_app. right. by apply IHp.
      * intros n u [->|Hn]%elem_of_cons Hnl Hu.
        -- right. rewrite Hu. simpl. by left.
        -- destruct (IHl n u Hn Hnl Hu) as [Hc|Hp].
           ++ apply elem_of_union in Hc as [Hc|Hc]; [|by left].
              apply elem_of_singleton in Hc. right. rewrite <- Hc. simpl. by left.
           ++ right. apply elem_of_app. by right.
      * intros n [->|Hn]%elem_of_cons Hnl; [congruence|]. by apply IHp.
      * intros n u [->|Hn]%elem_of_cons Hnl Hu.
        -- left. by rewrite <- Hu.
        -- destruct (IHl n u Hn Hnl Hu) as [Hc|Hp]; [|by right].
           apply elem_of_union in Hc as [Hc|Hc]; [|by left].
           apply elem_of_singleton in Hc. left. by rewrite Hc.
    + specialize (IH completed).
      destruct (passedTo w rest completed) as [r passed] eqn:E. simpl in *.
      intros Hr; destruct (IH Hr) as [IHp IHl]; split.
      * intros n [->|Hn]%elem_of_cons Hnl; [by left|]. right. by apply IHp.
      * intros n u [->|Hn]%elem_of_cons Hnl Hu; [congruence|].
        destruct (IHl n u Hn Hnl Hu) as [Hc|Hp]; [by left|]. right. by right.
Qed.

Lemma TravserseInSortedGlobalEvalOrder_passed {S : Type} w nodes combined sorted
    (action : Node → S → S) (s : S) :
  combineEvalOrders w nodes [] = Ok combined →
  SortByGlobalEvalOrder combined w = Ok sorted →
  TravserseInSortedGlobalEvalOrder assertions FindInRecurrentLoops w nodes action s
  = ((passedTo w sorted ∅).1, foldl (λ s node, action node s) s (passedTo w sorted ∅).2).
Proof.
  intros Hc Hs. unfold TravserseInSortedGlobalEvalOrder, bind, liftR.
  rewrite Hc, Hs. apply traverseLoop_passed.
Qed.

(** C2.  Let the orders of the requested nodes be stored, [sorted] be their
    combination sorted by the global order, and the SEQ node of a loop be a
    flow-control node: not itself a loop member and not listed in [sorted].
    Then every action, and so the multi-node [ForwardProp], is applied to
    one and the same sequence [passed] of nodes, in which no loop member
    occurs, every element is a plain node of [sorted] or the SEQ node of one
    of its loop members, and the SEQ node of a loop member occurs at one
    position at most, and does occur when the traversal completes. *)
Theorem TravserseInSortedGlobalEvalOrder_collapses_loops w nodes combined sorted :
  combineEvalOrders w nodes [] = Ok combined →
  SortByGlobalEvalOrder combined w = Ok sorted →
  (∀ n u, n ∈ sorted → IsPartOfLoop w n = true → Find w n = Some u →
     IsPartOfLoop w u = false ∧ u ∉ sorted) →
  ∃ r passed,
    (∀ (S : Type) (action : Node → S → S) (s : S),
       TravserseInSortedGlobalEvalOrder assertions FindInRecurrentLoops w nodes action s
       = (r, foldl (λ s node, action node s) s passed))
    ∧ (∀ calls, ForwardProp assertions FindInRecurrentLoops w nodes calls
                = (r, calls ++ passed))
    ∧ (∀ x, x ∈ passed → IsPartOfLoop w x = false)
    ∧ (∀ n, n ∈ sorted → IsPartOfLoop w n = true → n ∉ passed)
    ∧ (∀ x, x ∈ passed →
         x ∈ sorted ∨ ∃ n, n ∈ sorted ∧ IsPartOfLoop w n = true ∧ Find w n = Some x)
    ∧ (∀ n u, n ∈ sorted → IsPartOfLoop w n = true → Find w n = Some u →
         (∀ i j, passed !! i = Some u → passed !! j = Some u → i = j)
         ∧ (r = Ok tt → u ∈ passed)).
Proof.
  intros Hc Hs Hseq.
  exists (passedTo w sorted ∅).1, (passedTo w sorted ∅).2.
  assert (Hnoloop : ∀ x, x ∈ (passedTo w sorted ∅).2 → IsPartOfLoop w x = false).
  { intros x Hx. apply passedToAction_origin in Hx as [[_ ?]|[_ (n & Hn & Hl & Hu)]];
      [done|]. by destruct (Hseq n x Hn Hl Hu). }
  split; [|split; [|split; [|split; [|split]]]].
  - intros S action s. by eapply TravserseInSortedGlobalEvalOrder_passed.
  - intros calls. unfold ForwardProp.
    rewrite (TravserseInSortedGlobalEvalOrder_passed w nodes combined sorted) by done.
    by rewrite foldl_record.
  - exact Hnoloop.
  - intros n Hn Hl Hp. apply Hnoloop in Hp. congruence.
  - intros x Hx. apply passedToAction_origin in Hx as [[? _]|[_ ?]]; auto.
  - intros n u Hn Hl Hu. destruct (Hseq n u Hn Hl Hu) as [_ Hnot]. split.
    + apply passedToAction_once. intros m Hm _ ->. done.
    + intros Hr. destruct (passedToAction_complete w sorted ∅ Hr) as [_ H].
      destruct (H n u Hn Hl Hu) as [Hc'|Hp]; [set_solver|done].
Qed.

End TraversalFacts.

(** ** Forward propagation from a frontier *)

Lemma markForForward_keeps w nodesFrom node (acc : gset Node) :
  (∀ input, input ∈ GetInputs w node → (input ∉ nodesFrom) ∧ (input ∉ acc)) →
  markForForward w nodesFrom node acc = acc.
Proof.
  unfold markForForward. induction (GetInputs w node) as [|i inputs IH]; intros H; simpl.
  - done.
  - destruct (H i) as [Hf Ha]; [by left|].
    rewrite (bool_decide_eq_false_2 _ Hf), (bool_decide_eq_false_2 _ Ha). simpl.
    apply IH. intros input Hin. apply H. by right.
Qed.

Lemma markForForward_marked (nodesFrom : list Node) (node : Node) (acc : gset Node) inputs :
  foldl (λ nodesToForward input,
           if bool_decide (input ∈ nodesFrom) || bool_decide (input ∈ nodesToForward)
           then {[node]} ∪ nodesToForward else nodesToForward)
        ({[node]} ∪ acc) inputs
  = {[node]} ∪ acc.
Proof.
  induction inputs as [|i inputs IH]; simpl; [done|].
  destruct (bool_decide (i ∈ nodesFrom) || bool_decide (i ∈ {[node]} ∪ acc)); [|done].
  replace ({[node]} ∪ ({[node]} ∪ acc)) with ({[node]} ∪ acc) by set_solver. done.
Qed.

Lemma markForForward_inserts w nodesFrom node (acc : gset Node) :
  (∃ input, input ∈ GetInputs w node ∧ (input ∈ nodesFrom ∨ input ∈ acc)) →
  markForForward w nodesFrom node acc = {[node]} ∪ acc.
Proof.
  unfold markForForward. induction (GetInputs w node) as [|i inputs IH];
    intros (input & Hin & Hor); simpl.
  - by apply elem_of_nil in Hin.
  - destruct (bool_decide (i ∈ nodesFrom) || bool_decide (i ∈ acc)) eqn:Hb.
    + apply markForForward_marked.
    + apply orb_false_iff in Hb as [Hf Ha].
      apply bool_decide_eq_false in Hf. apply bool_decide_eq_false in Ha.
      apply IH. exists input. split; [|done].
      apply elem_of_cons in Hin as [->|]; [|done]. tauto.
Qed.

(** The node is inserted exactly when one of its inputs is in the frontier
    or was inserted before. *)
Lemma markForForward_cases w nodesFrom node (acc : gset Node) :
  (markForForward w nodesFrom node acc = {[node]} ∪ acc
   ∧ ∃ input, input ∈ GetInputs w node ∧ (input ∈ nodesFrom ∨ input ∈ acc))
  ∨ (markForForward w nodesFrom node acc = acc
     ∧ ∀ input, input ∈ GetInputs w node → (input ∉ nodesFrom) ∧ (input ∉ acc)).
Proof.
  destruct (decide (Exists (λ input, input ∈ nodesFrom ∨ input ∈ acc) (GetInputs w node)))
    as [H|H].
  - apply Exists_exists in H. left. split; [by apply markForForward_inserts | done].
  - right. rewrite <- Forall_Exists_neg, Forall_forall in H.
    assert (∀ input, input ∈ GetInputs w node → (input ∉ nodesFrom) ∧ (input ∉ acc))
      by (intros input Hin; specialize (H input Hin); tauto).
    split; [by apply markForForward_keeps | done].
Qed.

Lemma nodesToForward_mono w nodesFrom passed :
  ∀ acc : gset Node, acc ⊆ foldl (λ s node, markForForward w nodesFrom node s) acc passed.
Proof.
  induction passed as [|n passed IH]; intros acc; simpl; [done|].
  etrans; [|apply IH].
  destruct (markForForward_cases w nodesFrom n acc) as [[-> _]|[-> _]]; set_solver.
Qed.

Lemma nodesToForward_origin w nodesFrom passed :
  ∀ (acc : gset Node) x,
    x ∈ foldl (λ s node, markForForward w nodesFrom node s) acc passed →
    x ∈ acc ∨ x ∈ passed.
Proof.
  induction passed as [|n passed IH]; intros acc x; simpl; [auto|].
  intros [Hx|Hx]%IH; [|right; by right].
  destruct (markForForward_cases w nodesFrom n acc) as [[E _]|[E _]]; rewrite E in Hx.
  - apply elem_of_union in Hx as [->%elem_of_singleton|]; [right; by left | by left].
  - by left.
Qed.

Lemma fedFromFrontier_listed w nodesFrom order x :
  fedFromFrontier w nodesFrom order x → x ∈ order.
Proof. by destruct 1. Qed.

(** Soundness: every node marked for forward is fed from the frontier. *)
Lemma nodesToForward_sound w nodesFrom order passed :
  ∀ acc : gset Node,
    (∀ x, x ∈ passed → x ∈ order) →
    (∀ x, x ∈ acc → fedFromFrontier w nodesFrom order x) →
    ∀ x, x ∈ foldl (λ s node, markForForward w nodesFrom node s) acc passed →
         fedFromFrontier w nodesFrom order x.
Proof.
  induction passed as [|n passed IH]; intros acc Hsub Hacc x; simpl; [apply Hacc|].
  apply IH; [intros y Hy; apply Hsub; by right|].
  intros y Hy.
  destruct (markForForward_cases w nodesFrom n acc) as [[E (i & Hi & Hor)]|[E _]];
    rewrite E in Hy; [|by apply Hacc].
  apply elem_of_union in Hy as [->%elem_of_singleton|]; [|by apply Hacc].
  assert (n ∈ order) by (apply Hsub; by left).
  destruct Hor as [Hf|Ha].
  - by eapply fed_direct.
  - eapply fed_chain; eauto.
Qed.

(** Completeness, for an order without duplicates in which inputs come
    first: every node fed from the frontier is marked. *)
Lemma nodesToForward_complete w nodesFrom passed x :
  NoDup passed → inputsFirst w passed →
  fedFromFrontier w nodesFrom passed x →
  x ∈ foldl (λ s node, markForForward w nodesFrom node s) (∅ : gset Node) passed.
Proof.
  intros Hnd Hfirst. induction 1 as [n f Hn Hf Hfrom | n m Hn Hm Hfed IH].
  - apply list_elem_of_split in Hn as (before & after & ->).
    rewrite foldl_app. simpl. apply nodesToForward_mono.
    rewrite markForForward_inserts; [set_solver|]. exists f. auto.
  - pose proof (fedFromFrontier_listed _ _ _ _ Hfed) as Hmin.
    apply list_elem_of_split in Hn as (before & after & ->).
    pose proof (Hfirst before n after eq_refl m Hm Hmin) as Hmb.
    rewrite foldl_app in IH |- *. simpl in *.
    apply nodesToForward_mono.
    rewrite markForForward_inserts; [set_solver|]. exists m. split; [done|]. right.
    apply nodesToForward_origin in IH as [IH|IH].
    + destruct (markForForward_cases w nodesFrom n
                  (foldl (λ s node, markForForward w nodesFrom node s) ∅ before))
        as [[E _]|[E _]]; rewrite E in IH; [|done].
      apply elem_of_union in IH as [->%elem_of_singleton|]; [|done].
      apply NoDup_app in Hnd as (_ & Hdis & _). exfalso. eapply Hdis; [exact Hmb|by left].
    + apply NoDup_app in Hnd as (_ & Hdis & _). exfalso. eapply Hdis; [exact Hmb|by right].
Qed.

(** A marked node has an input in the frontier or among the marked nodes. *)
Lemma nodesToForward_feeder w nodesFrom passed :
  ∀ (acc : gset Node) x,
    x ∈ foldl (λ s node, markForForward w nodesFrom node s) acc passed →
    x ∈ acc
    ∨ ∃ input, input ∈ GetInputs w x
        ∧ (input ∈ nodesFrom
           ∨ input ∈ foldl (λ s node, markForForward w nodesFrom node s) acc passed).
Proof.
  induction passed as [|n passed IH]; intros acc x; simpl; [auto|].
  intros [Hx|Hx]%IH; [|by right].
  destruct (markForForward_cases w nodesFrom n acc) as [[E (i & Hi & Hor)]|[E _]].
  - rewrite E in Hx. apply elem_of_union in Hx as [->%elem_of_singleton|]; [|by left].
    right. exists i. split; [done|]. destruct Hor as [|Ha]; [by left|]. right.
    apply nodesToForward_mono. rewrite E. set_solver.
  - rewrite E in Hx. by left.
Qed.

(** The set after the traversal, exactly: a node is in it when, at one of
    the places where the traversal hands it out, it has an input in the
    frontier or in the set as built up to that place. *)
Lemma nodesToForwardAfter_exact w nodesFrom passed x :
  x ∈ nodesToForwardAfter w nodesFrom passed ↔
  ∃ before after, passed = before ++ x :: after
    ∧ ∃ input, input ∈ GetInputs w x
        ∧ (input ∈ nodesFrom ∨ input ∈ nodesToForwardAfter w nodesFrom before).
Proof.
  unfold nodesToForwardAfter.
  induction passed as [|n passed IH] using rev_ind.
  - simpl. split; [intros []%elem_of_empty|].
    intros (before & after & Heq & _). by destruct before.
  - rewrite foldl_app. simpl.
    assert (Hold : x ∈ foldl (λ s node, markForForward w nodesFrom node s) ∅ passed →
              ∃ before after, passed ++ [n] = before ++ x :: after
                ∧ ∃ input, input ∈ GetInputs w x
                    ∧ (input ∈ nodesFrom
                       ∨ input ∈ foldl (λ s node, markForForward w nodesFrom node s) ∅ before)).
    { intros Hx. apply IH in Hx as (before & after & -> & Hin).
      exists before, (after ++ [n]). split; [by rewrite <-app_assoc|done]. }
    assert (Hsplit : ∀ before after, passed ++ [n] = before ++ x :: after →
              (after = [] ∧ before = passed ∧ x = n)
              ∨ ∃ after', after = after' ++ [n] ∧ passed = before ++ x :: after').
    { intros before after Heq. destruct after as [|a after _] using rev_ind.
      - apply app_inj_tail in Heq as [-> ->]. by left.
      - right. rewrite app_comm_cons, app_assoc in Heq.
        apply app_inj_tail in Heq as [-> ->]. by exists after. }
    destruct (markForForward_cases w nodesFrom n
                (foldl (λ s node, markForForward w nodesFrom node s) ∅ passed))
      as [[E (i & Hi & Hor)]|[E Hnone]]; rewrite E.
    + split.
      * intros [->%elem_of_singleton|Hx]%elem_of_union; [|by apply Hold].
        exists passed, []. split; [done|]. by exists i.
      * intros (before & after & Heq & Hin).
        destruct (Hsplit before after Heq) as [(_ & _ & ->)|(after' & _ & Hp)].
        -- apply elem_of_union. left. by apply elem_of_singleton.
        -- apply elem_of_union. right. apply IH. by exists before, after'.
    + split; [exact Hold|].
      intros (before & after & Heq & input & Hin & Hfed).
      destruct (Hsplit before after Heq) as [(_ & -> & ->)|(after' & _ & Hp)].
      * destruct (Hnone input Hin) as [Hf Hs]. by destruct Hfed.
      * apply IH. exists before, after'. split; [done|]. by exists input.
Qed.

Section ForwardPropFromToFacts.

Variable assertions : bool.
Variable FindInRecurrentLoops : list Node → Node → ComputationNodeBasePtr.

(** When the traversal with the recording action completes, so does the
    traversal with any other action, over the same nodes. *)
Lemma TravserseInSortedGlobalEvalOrder_record_inv w nodes passed :
  TravserseInSortedGlobalEvalOrder assertions FindInRecurrentLoops w nodes record []
  = (Ok tt, passed) →
  ∀ (S : Type) (action : Node → S → S) (s : S),
    TravserseInSortedGlobalEvalOrder assertions FindInRecurrentLoops w nodes action s
    = (Ok tt, foldl (λ s node, action node s) s passed).
Proof.
  intros H S action s.
  destruct (combineEvalOrders w nodes []) as [combined|e] eqn:Hc.
  - destruct (SortByGlobalEvalOrder combined w) as [sorted|e] eqn:Hs.
    + rewrite (TravserseInSortedGlobalEvalOrder_passed _ _ w nodes combined sorted) in H
        by done.
      rewrite (TravserseInSortedGlobalEvalOrder_passed _ _ w nodes combined sorted) by done.
      rewrite foldl_record in H. simpl in H. inversion H as [[Hr Hp]].
      by rewrite Hr.
    + unfold TravserseInSortedGlobalEvalOrder, bind, liftR in H.
      rewrite Hc, Hs in H. discriminate.
  - unfold TravserseInSortedGlobalEvalOrder, bind, liftR in H.
    rewrite Hc in H. discriminate.
Qed.

(** C5, as the code has it.  Let the traversal of the targets complete over
    the sequence [passed], with the global order stored.  Then
    [ForwardPropFromTo] completes.  The set [nodesToForward] it selects
    holds exactly the nodes that, at a place where the traversal hands them
    out, have an input in the frontier or an input selected before.
    Forward is invoked on the selected nodes that the global order lists,
    in the global order; when one node only is selected, on that node,
    listed or not; a selected node that the global order does not list is
    passed over when more than one node is selected.  Every selected node
    is fed from the frontier, having an input in the frontier or in the
    set; when [passed] has no duplicates and lists inputs first, the set
    holds every node fed from the frontier.  Frontier nodes are not left
    out: a frontier node that the traversal hands out and that has an input
    in the frontier is selected, and forward is invoked on it again if the
    global order lists it. *)
Theorem ForwardPropFromTo_forwards_fed w nodesFrom nodesTo passed g calls :
  TravserseInSortedGlobalEvalOrder assertions FindInRecurrentLoops w nodesTo record []
  = (Ok tt, passed) →
  m_evalOrders (net w) !! None = Some g →
  let nodesToForward := nodesToForwardAfter w nodesFrom passed in
  ∃ forwarded,
    ForwardPropFromTo assertions FindInRecurrentLoops w nodesFrom nodesTo calls
    = (Ok tt, calls ++ forwarded)
    ∧ (∀ x, x ∈ nodesToForward ↔
         ∃ before after, passed = before ++ x :: after
           ∧ ∃ input, input ∈ GetInputs w x
               ∧ (input ∈ nodesFrom ∨ input ∈ nodesToForwardAfter w nodesFrom before))
    ∧ SortByGlobalEvalOrder (elements nodesToForward) w = Ok forwarded
    ∧ (size nodesToForward ≠ 1 → forwarded = filter (λ x, x ∈ nodesToForward) g)
    ∧ (size nodesToForward = 1 → forwarded = elements nodesToForward)
    ∧ (∀ x, x ∈ forwarded ↔ x ∈ nodesToForward ∧ (x ∈ g ∨ size nodesToForward = 1))
    ∧ (∀ x, x ∈ nodesToForward → fedFromFrontier w nodesFrom passed x)
    ∧ (∀ x, x ∈ nodesToForward →
         ∃ input, input ∈ GetInputs w x ∧ (input ∈ nodesFrom ∨ input ∈ nodesToForward))
    ∧ (NoDup passed → inputsFirst w passed →
       ∀ x, fedFromFrontier w nodesFrom passed x → x ∈ nodesToForward)
    ∧ (∀ x, x ∈ nodesFrom → x ∈ passed →
         (∃ input, input ∈ GetInputs w x ∧ input ∈ nodesFrom) →
         x ∈ nodesToForward ∧ (x ∈ g → x ∈ forwarded)).
Proof.
  intros Hrec Hg nodesToForward.
  pose proof (TravserseInSortedGlobalEvalOrder_record_inv w nodesTo passed Hrec
                (gset Node) (markForForward w nodesFrom) ∅) as Hmark.
  fold (nodesToForwardAfter w nodesFrom passed) in Hmark. fold nodesToForward in Hmark.
  assert (Hsort : ∃ forwarded,
             SortByGlobalEvalOrder (elements nodesToForward) w = Ok forwarded
             ∧ (size nodesToForward ≠ 1 →
                forwarded = filter (λ x, x ∈ nodesToForward) g)
             ∧ (size nodesToForward = 1 → forwarded = elements nodesToForward)
             ∧ (∀ x, x ∈ forwarded ↔
                  x ∈ nodesToForward ∧ (x ∈ g ∨ size nodesToForward = 1))).
  { destruct (decide (length (elements nodesToForward) = 1)) as [Hlen|Hlen].
    - exists (elements nodesToForward). unfold SortByGlobalEvalOrder.
      rewrite decide_True by done. split; [done|].
      split; [intros Hsz; by destruct Hsz|]. split; [done|].
      intros x. rewrite elem_of_elements. split; [|tauto].
      intros Hx. split; [done|]. by right.
    - eexists. split; [by apply SortByGlobalEvalOrder_other|].
      split; [intros _; apply list_filter_iff; intros x; apply elem_of_elements|].
      split; [intros Hsz; by destruct Hlen|].
      intros x. rewrite list_elem_of_filter, elem_of_elements. split; [tauto|].
      intros [Hx [Hin|Hsz]]; [done|by destruct Hlen]. }
  destruct Hsort as (forwarded & Hs & Hfilter & Hone & Hiff).
  assert (Hsound : ∀ x, x ∈ nodesToForward → fedFromFrontier w nodesFrom passed x).
  { apply (nodesToForward_sound w nodesFrom passed passed ∅); [done|].
    intros x Hx. by apply elem_of_empty in Hx. }
  exists forwarded.
  split; [|split; [|split; [|split; [|split; [|split; [|split; [|split; [|split]]]]]]]];
    try done.
  - unfold ForwardPropFromTo. rewrite Hmark, Hs. by rewrite foldl_record.
  - intros x. apply nodesToForwardAfter_exact.
  - intros x Hx. apply nodesToForward_feeder in Hx as [Hx|Hx]; [|done].
    by apply elem_of_empty in Hx.
  - intros Hnd Hfirst x Hx. by apply nodesToForward_complete.
  - intros x _ Hx (input & Hin & Hfrom).
    assert (Hsel : x ∈ nodesToForward).
    { apply list_elem_of_split in Hx as (before & after & ->).
      apply nodesToForwardAfter_exact. exists before, after. split; [done|].
      exists input. split; [done|by left]. }
    split; [done|]. intros Hxg. apply Hiff. split; [done|by left].
Qed.

End ForwardPropFromToFacts.

(** ** The node holder *)

Lemma set_nameToNodeMap_id f n :
  f (m_nameToNodeMap n) = m_nameToNodeMap n → set_nameToNodeMap f n = n.
Proof. destruct n; unfold set_nameToNodeMap; simpl. intros ->. reflexivity. Qed.

Lemma NodeName_alter w f node node' :
  (∀ o, m_nodeName (f o) = m_nodeName o) →
  NodeName (set_nodes (alter f node') w) node = NodeName w node.
Proof.
  intros Hf. unfold NodeName, deref, set_nodes. simpl.
  rewrite lookup_total_alter. case_decide as E; [|done]. subst node'.
  rewrite lookup_total_alt. by destruct (nodes w !! node); simpl.
Qed.

Section NodeHolderFacts.

Variable nocase_key : string → string.

(** C8.  When the name of [node] is registered already ([NodeNameExists]),
    [AddNodeToNet] throws the [RuntimeError] whose message carries the name
    and the operation of [node], and the state is the state before the call:
    no node is replaced or renamed.  When the name is not registered, the
    call returns [node]; the map then holds [node] under that name and is
    unchanged under every other key, and [node] is given the network's
    environment. *)
Theorem AddNodeToNet_rejects_duplicate_names w node :
  (NodeNameExists nocase_key (NodeName w node) w = true →
     AddNodeToNet nocase_key node w
     = (Fail (RuntimeError
                ("AddNodeToNet: Duplicated name for "
                 +:+ NodeName w node +:+ " " +:+ OperationName w node +:+ " operation.")),
        w))
  ∧ (NodeNameExists nocase_key (NodeName w node) w = false →
     ∃ w', AddNodeToNet nocase_key node w = (Ok node, w')
       ∧ m_nameToNodeMap (net w')
         = <[nocase_key (NodeName w node) := node]> (m_nameToNodeMap (net w))
       ∧ m_nameToNodeMap (net w') !! nocase_key (NodeName w node) = Some node
       ∧ (∀ key, key ≠ nocase_key (NodeName w node) →
            m_nameToNodeMap (net w') !! key = m_nameToNodeMap (net w) !! key)
       ∧ nodes w' = alter (set_nodeEnvironment (m_environment (net w))) node (nodes w)
       ∧ NodeName w' node = NodeName w node
       ∧ NodeNameExists nocase_key (NodeName w' node) w' = true).
Proof.
  unfold NodeNameExists. split.
  - intros [other H]%bool_decide_eq_true.
    unfold AddNodeToNet, bind, get, modify, throw, ret, map_insert. rewrite H. simpl.
    do 2 f_equal. by apply set_net_id, set_nameToNodeMap_id.
  - intros H%bool_decide_eq_false. rewrite <- eq_None_not_Some in H.
    unfold AddNodeToNet, SetEnvironment, bind, get, modify, throw, ret, map_insert.
    rewrite H. simpl. eexists. split; [reflexivity|]. simpl.
    assert (Hname : NodeName (set_nodes (alter (set_nodeEnvironment (m_environment (net w)))
                                           node)
                                (set_net (set_nameToNodeMap
                                            (λ _, <[nocase_key (NodeName w node) := node]>
                                                    (m_nameToNodeMap (net w)))) w)) node
                    = NodeName w node)
      by (by apply (NodeName_alter (set_net _ w))).
    split; [done|]. split; [apply lookup_insert_eq|].
    split; [intros key Hk; by rewrite lookup_insert_ne|]. split; [done|].
    split; [exact Hname|].
    apply bool_decide_eq_true. rewrite Hname. simpl. rewrite lookup_insert_eq. eauto.
Qed.

End NodeHolderFacts.

(** ** Node groups *)



Lemma GetNodeGroup_allowed groupTag :
  groupTag ∈ allowedTags → ∃ g, GetNodeGroup groupTag = Ok g.
Proof.
  unfold allowedTags, GetNodeGroup. intros H.
  repeat (apply elem_of_cons in H as [->|H]); try (eexists; reflexivity).
  by apply elem_of_nil in H.
Qed.

Lemma nodeGroup_set_nodeGroup g l n : nodeGroup g (set_nodeGroup g l n) = l.
Proof. by destruct g. Qed.

Lemma ClearTag_carried w node tag :
  HasTag w node tag = true →
  ClearTag node tag w
  = (Ok true, set_nodes (alter (set_tags (λ tags, tags ∖ {[tag]})) node) w).
Proof. intros H. unfold ClearTag, bind, get, modify, ret. by rewrite H. Qed.

Lemma HasTag_cleared w node tag :
  HasTag (set_nodes (alter (set_tags (λ tags, tags ∖ {[tag]})) node) w) node tag = false.
Proof.
  unfold HasTag, deref, set_nodes. simpl. apply bool_decide_eq_false.
  rewrite lookup_total_alter_eq.
  destruct (nodes w !! node) as [o|]; simpl; set_solver.
Qed.

Lemma GetNodeGroup_not_allowed groupTag :
  groupTag ∉ allowedTags →
  GetNodeGroup groupTag
  = Fail (InvalidArgument
            ("Invalid group tag '" +:+ groupTag
             +:+ "', must be one of 'feature', 'label', 'criterion', 'evaluation', 'output'.")).
Proof.
  unfold GetNodeGroup, allowedTags. intros H.
  repeat match goal with
         | |- context [decide (?a = ?b)] =>
             destruct (decide (a = b)) as [->|?]; [exfalso; apply H; set_solver|]
         end.
  done.
Qed.

Lemma nodeGroup_set_other g g' l n : g ≠ g' → nodeGroup g' (set_nodeGroup g l n) = nodeGroup g' n.
Proof. by destruct g, g'. Qed.



(** ** Flow-control nodes *)

(** C7.  [BackpropTo] of a SEQ and of a PAR flow-control node throws for
    every input index and every frame range, in every state, and leaves the
    state as it was: it never returns. *)
Theorem BackpropTo_fails_loudly (FrameRange : Type) (inputIndex : nat) (fr : FrameRange)
    (w : World) :
  (∃ msg, SEQTraversalFlowControlNode.BackpropTo inputIndex fr w = (Fail (LogicError msg), w))
  ∧ (∃ msg, PARTraversalFlowControlNode.BackpropTo inputIndex fr w
            = (Fail (LogicError msg), w))
  ∧ isOk (SEQTraversalFlowControlNode.BackpropTo inputIndex fr w).1 = false
  ∧ isOk (PARTraversalFlowControlNode.BackpropTo inputIndex fr w).1 = false.
Proof. repeat split; eexists; reflexivity. Qed.

(** ** The theorems at concrete networks *)

Lemma FormEvalOrder_subsequence_of_global_witness :
  m_evalOrders (net chainCompiled) !! None = Some [0; 1; 2]
  ∧ ∃ w1 w2 order1 order2,
      FormEvalOrder (Some 1) chainCompiled = (Ok tt, w1)
      ∧ FormEvalOrder (Some 2) w1 = (Ok tt, w2)
      ∧ m_evalOrders (net w2) !! Some 1 = Some order1
      ∧ m_evalOrders (net w2) !! Some 2 = Some order2
      ∧ order1 `sublist_of` [0; 1; 2]
      ∧ order2 `sublist_of` [0; 1; 2].
Proof.
  assert (Hg : m_evalOrders (net chainCompiled) !! None = Some [0; 1; 2])
    by (vm_compute; reflexivity).
  split; [exact Hg|].
  destruct (FormEvalOrder_subsequence_of_global chainCompiled [0; 1; 2] 1 2 Hg)
    as (w1 & w2 & deps1 & deps2 & order1 & order2 & F1 & F2 & _ & _ & _ & H1 & H2 & _ & _
        & _ & S1 & S2 & _ & _).
  exists w1, w2, order1, order2. auto 10.
Defined.

Lemma FormEvalOrder_twice_witness :
  ∃ w2, FormEvalOrder (Some 1) chainRootB = (Ok tt, w2)
    ∧ m_evalOrders (net w2) = m_evalOrders (net chainRootB)
    ∧ stderr w2 = stderr chainRootB ++ [FormEvalOrder_warning chainRootB (Some 1)].
Proof.
  assert (H : FormEvalOrder (Some 1) chainCompiled = (Ok tt, chainRootB))
    by (vm_compute; reflexivity).
  destruct (FormEvalOrder_twice (Some 1) chainCompiled chainRootB H)
    as (w2 & F & _ & Hs & Ho & _).
  exists w2. auto.
Defined.

Lemma SortByGlobalEvalOrder_filters_global_witness :
  SortByGlobalEvalOrder [2; 3; 0] chainWithLateNode
  = Ok (filter (λ node, node ∈ [2; 3; 0]) [0; 1; 2])
  ∧ SortByGlobalEvalOrder [1] chainWithLateNode = Ok [1].
Proof.
  assert (Hg : m_evalOrders (net chainWithLateNode) !! None = Some [0; 1; 2])
    by (vm_compute; reflexivity).
  split.
  - apply (SortByGlobalEvalOrder_filters_global chainWithLateNode [2; 3; 0] [0; 1; 2] Hg).
    simpl. lia.
  - apply (SortByGlobalEvalOrder_filters_global chainWithLateNode [1] [0; 1; 2] Hg).
    reflexivity.
Defined.

Lemma SortByGlobalEvalOrder_single_unconditional_witness :
  SortByGlobalEvalOrder [3] chainFresh = Ok [3]
  ∧ ∃ sorted, SortByGlobalEvalOrder [2; 3; 0] chainWithLateNode = Ok sorted
      ∧ ∀ node, node ∈ [2; 3; 0] → node ∉ [0; 1; 2] → node ∉ sorted.
Proof.
  destruct SortByGlobalEvalOrder_single_unconditional as [Hone Hother].
  split; [apply Hone|].
  apply (Hother chainWithLateNode [2; 3; 0] [0; 1; 2]).
  - simpl. lia.
  - vm_compute. reflexivity.
Defined.

Lemma TravserseInSortedGlobalEvalOrder_collapses_loops_witness :
  ForwardProp true loopFind loopCompiled [Some 6; Some 7] [] = (Ok tt, [10; 5; 6; 7])
  ∧ ∃ r passed,
      (∀ calls, ForwardProp true loopFind loopCompiled [Some 6; Some 7] calls
                = (r, calls ++ passed))
      ∧ (∀ x, x ∈ passed → IsPartOfLoop loopCompiled x = false)
      ∧ (∀ i j, passed !! i = Some 10 → passed !! j = Some 10 → i = j)
      ∧ (r = Ok tt → 10 ∈ passed).
Proof.
  split; [vm_compute; reflexivity|].
  assert (Hc : combineEvalOrders loopCompiled [Some 6; Some 7] []
               = Ok [3; 5; 4; 6; 3; 5; 4; 7]) by (vm_compute; reflexivity).
  assert (Hs : SortByGlobalEvalOrder [3; 5; 4; 6; 3; 5; 4; 7] loopCompiled
               = Ok [3; 5; 4; 6; 7]) by (vm_compute; reflexivity).
  assert (Hseq : ∀ n u, n ∈ [3; 5; 4; 6; 7] → IsPartOfLoop loopCompiled n = true →
                   loopFind (m_allSEQNodes (net loopCompiled)) n = Some u →
                   IsPartOfLoop loopCompiled u = false ∧ u ∉ [3; 5; 4; 6; 7]).
  { intros n u Hn Hl Hu.
    repeat (apply elem_of_cons in Hn as [->|Hn]); try (by apply elem_of_nil in Hn);
      vm_compute in Hl; try discriminate Hl;
      vm_compute in Hu; injection Hu as <-;
      (split; [vm_compute; reflexivity|]);
      intros Hin; repeat (apply elem_of_cons in Hin as [Hin|Hin]; [discriminate Hin|]);
      by apply elem_of_nil in Hin. }
  destruct (TravserseInSortedGlobalEvalOrder_collapses_loops true loopFind loopCompiled
              [Some 6; Some 7] _ _ Hc Hs Hseq)
    as (r & passed & _ & Hfp & Hno & _ & _ & Hunit).
  exists r, passed. split; [exact Hfp|]. split; [exact Hno|].
  assert (H3 : (3 : nat) ∈ [3; 5; 4; 6; 7]) by (apply elem_of_cons; by left).
  destruct (Hunit 3 10 H3) as [Honce Hin];
    [vm_compute; reflexivity | vm_compute; reflexivity |].
  split; [exact Honce | exact Hin].
Defined.

Lemma inputsFirst_chain : inputsFirst chainRootC [0; 1; 2].
Proof.
  intros before n after Heq input Hin _.
  destruct before as [|a [|b [|c before]]]; simpl in Heq.
  - injection Heq as <- _. vm_compute in Hin. by apply elem_of_nil in Hin.
  - injection Heq as <- <- _. vm_compute in Hin.
    apply elem_of_cons in Hin as [->|Hin]; [by left | by apply elem_of_nil in Hin].
  - injection Heq as <- <- <- _. vm_compute in Hin.
    apply elem_of_cons in Hin as [->|Hin]; [right; by left | by apply elem_of_nil in Hin].
  - exfalso. injection Heq as _ _ _ Heq. by destruct before.
Qed.

Lemma ForwardPropFromTo_forwards_fed_witness :
  ∃ forwarded,
    ForwardPropFromTo false noLoops chainRootC [0] [Some 2] [] = (Ok tt, [] ++ forwarded)
    ∧ SortByGlobalEvalOrder (elements (nodesToForwardAfter chainRootC [0] [0; 1; 2]))
        chainRootC = Ok forwarded
    ∧ (∀ x, x ∈ forwarded ↔
         x ∈ nodesToForwardAfter chainRootC [0] [0; 1; 2]
         ∧ (x ∈ [0; 1; 2] ∨ size (nodesToForwardAfter chainRootC [0] [0; 1; 2]) = 1))
    ∧ (∀ x, x ∈ nodesToForwardAfter chainRootC [0] [0; 1; 2] →
         fedFromFrontier chainRootC [0] [0; 1; 2] x)
    ∧ (∀ x, fedFromFrontier chainRootC [0] [0; 1; 2] x →
         x ∈ nodesToForwardAfter chainRootC [0] [0; 1; 2]).
Proof.
  assert (Ht : TravserseInSortedGlobalEvalOrder false noLoops chainRootC [Some 2] record []
               = (Ok tt, [0; 1; 2])) by (vm_compute; reflexivity).
  assert (Hg : m_evalOrders (net chainRootC) !! None = Some [0; 1; 2])
    by (vm_compute; reflexivity).
  destruct (ForwardPropFromTo_forwards_fed false noLoops chainRootC [0] [Some 2]
              [0; 1; 2] [0; 1; 2] [] Ht Hg)
    as (forwarded & Hrun & _ & Hsort & _ & _ & Hiff & Hfed & _ & Hall & _).
  exists forwarded.
  split; [exact Hrun|]. split; [exact Hsort|]. split; [exact Hiff|]. split; [exact Hfed|].
  apply Hall.
  - repeat (apply NoDup_cons; split;
            [intros Hin; repeat (apply elem_of_cons in Hin as [Hin|Hin]; [discriminate Hin|]);
             by apply elem_of_nil in Hin|]).
    apply NoDup_nil. exact I.
  - exact inputsFirst_chain.
Defined.

(** A selected node that the global order does not list: the traversal of
    [R1] hands out the SEQ node, [F] and [R1].  With the frontier [F; E]
    the SEQ node and [R1] are selected, and forward is invoked on [R1]
    only; with the frontier [F] the SEQ node is the one node selected, and
    forward is invoked on it. *)
Example ForwardPropFromTo_passes_over_unlisted_node :
  TravserseInSortedGlobalEvalOrder true loopFind loopFedCompiled [Some 6] record []
  = (Ok tt, [10; 5; 6])
  ∧ nodesToForwardAfter loopFedCompiled [5; 4] [10; 5; 6] = {[10; 6]}
  ∧ ForwardPropFromTo true loopFind loopFedCompiled [5; 4] [Some 6] [] = (Ok tt, [6])
  ∧ ForwardPropFromTo true loopFind loopFedCompiled [5] [Some 6] [] = (Ok tt, [10]).
Proof. repeat split; vm_compute; reflexivity. Qed.

(** C5, as stated, fails: with the frontier [A; B] and the target [B],
    forward is invoked on [B], a node of the frontier. *)
Lemma ForwardPropFromTo_recomputes_frontier_node :
  ForwardPropFromTo false noLoops chainRootB [0; 1] [Some 1] [] = (Ok tt, [1])
  ∧ 1 ∈ [0; 1].
Proof. split; [vm_compute; reflexivity | right; by left]. Qed.

Lemma AddNodeToNet_rejects_duplicate_names_witness :
  AddNodeToNet lowercase 8 groupsWorld
  = (Fail (RuntimeError "AddNodeToNet: Duplicated name for a Times operation."), groupsWorld)
  ∧ ∃ w', AddNodeToNet lowercase 1 groupsWorld = (Ok 1, w')
      ∧ m_nameToNodeMap (net w') !! "b" = Some 1
      ∧ m_nameToNodeMap (net w') !! "a" = Some 0.
Proof.
  split.
  - destruct (AddNodeToNet_rejects_duplicate_names lowercase groupsWorld 8) as [Hdup _].
    apply Hdup. vm_compute. reflexivity.
  - destruct (AddNodeToNet_rejects_duplicate_names lowercase groupsWorld 1) as [_ Hfresh].
    destruct Hfresh as (w' & Hrun & _ & Hnew & Hold & _); [vm_compute; reflexivity|].
    exists w'. split; [exact Hrun|]. split; [exact Hnew|].
    rewrite Hold; [vm_compute; reflexivity | discriminate].
Defined.



(** * Further properties *)

(** ** The cache of evaluation orders *)

(** X1.  [UpdateEvalOrder] on a root that has an order replaces that order:
    [GetEvalOrder] then returns the new one, and the orders of all other
    roots, the node objects and stderr are as before. *)
Theorem UpdateEvalOrder_replaces rootNode order w old :
  m_evalOrders (net w) !! rootNode = Some old →
  ∃ w', UpdateEvalOrder rootNode order w = (Ok tt, w')
    ∧ GetEvalOrder rootNode w' = Ok order
    ∧ (∀ r, r ≠ rootNode → GetEvalOrder r w' = GetEvalOrder r w)
    ∧ nodes w' = nodes w
    ∧ stderr w' = stderr w.
Proof.
  intros H. unfold UpdateEvalOrder, bind, liftR, modify.
  rewrite (GetEvalOrder_Some rootNode w old H).
  eexists. split; [reflexivity|]. split; [|split; [|done]].
  - apply GetEvalOrder_Some. simpl. apply lookup_insert_eq.
  - intros r Hr. unfold GetEvalOrder. simpl. by rewrite lookup_insert_ne.
Qed.

(** X2.  [FormEvalOrder(nullptr)] succeeds in every state, also on a graph
    with cycles; afterwards [EvalOrderExists(nullptr)] holds and
    [GetEvalOrder(nullptr)] returns an order that lists each node reachable
    from the roots through inputs once, and no other node. *)
Theorem FormEvalOrder_global_lists_reachable w :
  ∃ w' order,
    FormEvalOrder None w = (Ok tt, w')
    ∧ EvalOrderExists None w' = true
    ∧ GetEvalOrder None w' = Ok order
    ∧ NoDup order
    ∧ (∀ x, x ∈ order ↔ ∃ root, root ∈ m_allRoots (net w) ∧ dependsOn w root x)
    ∧ nodes w' = nodes w.
Proof.
  destruct (traversal_terminates w (m_allRoots (net w))) as (order & E & Hnd & Hin).
  destruct (FormEvalOrder_global w) as (order' & E' & F).
  rewrite E in E'. inversion E'; subst order'.
  eexists _, order. split; [exact F|].
  assert (Hl : m_evalOrders (net (set_net (set_evalOrders <[None := order]>)
                                    (afterWarning None w))) !! None = Some order)
    by (simpl; apply lookup_insert_eq).
  split; [|split; [|split; [|split]]]; try done.
  - unfold EvalOrderExists. apply bool_decide_eq_true. rewrite Hl. eauto.
  - by apply GetEvalOrder_Some.
  - simpl. apply nodes_afterWarning.
Qed.

(** X3.  [FormEvalOrder] for a non-null root while no global order is stored
    fails on the null pointer inside [GetEvalOrder(nullptr)] and stores no
    order. *)
Theorem FormEvalOrder_root_needs_global w r :
  m_evalOrders (net w) !! None = None →
  ∃ w', FormEvalOrder (Some r) w = (Fail NullDereference, w')
    ∧ m_evalOrders (net w') = m_evalOrders (net w)
    ∧ EvalOrderExists (Some r) w' = EvalOrderExists (Some r) w.
Proof.
  intros H. exists (afterWarning (Some r) w).
  split; [by apply FormEvalOrder_root_unformed|].
  unfold EvalOrderExists. by rewrite net_afterWarning.
Qed.

(** X4.  After [FormEvalOrder(nullptr)] and then [FormEvalOrder(r)], the
    order of [r] has no duplicates, lists exactly the nodes that [r] depends
    on and that some root reaches, and holds every input of each of its
    nodes.  It holds [r] itself only when a root reaches [r]. *)
Theorem FormEvalOrder_root_order_closed w r :
  ∃ w0 w1 order,
    FormEvalOrder None w = (Ok tt, w0)
    ∧ FormEvalOrder (Some r) w0 = (Ok tt, w1)
    ∧ GetEvalOrder (Some r) w1 = Ok order
    ∧ NoDup order
    ∧ (∀ x, x ∈ order ↔
         dependsOn w r x ∧ ∃ root, root ∈ m_allRoots (net w) ∧ dependsOn w root x)
    ∧ (∀ x input, x ∈ order → input ∈ GetInputs w x → input ∈ order)
    ∧ (r ∈ order ↔ ∃ root, root ∈ m_allRoots (net w) ∧ dependsOn w root r).
Proof.
  destruct (traversal_terminates w (m_allRoots (net w))) as (g & E & Hnd & Hin).
  destruct (FormEvalOrder_global w) as (g' & E' & F).
  rewrite E in E'. inversion E'; subst g'.
  set (w0 := set_net (set_evalOrders <[None := g]>) (afterWarning None w)) in *.
  assert (Hn0 : nodes w0 = nodes w) by apply nodes_afterWarning.
  assert (Hg0 : m_evalOrders (net w0) !! None = Some g) by (simpl; apply lookup_insert_eq).
  destruct (rawSet_dependsOn w r) as (raw & Er & Hraw).
  assert (Er0 : CNTK_PostOrderTraversal w0 [r] = Ok raw)
    by (by rewrite (traversal_nodes w w0 [r] Hn0)).
  pose proof (FormEvalOrder_root w0 r g raw Hg0 Er0) as F1.
  set (order := filter (λ node, node ∈ (list_to_set raw : gset nat)) g) in *.
  assert (Hmem : ∀ x, x ∈ order ↔
            dependsOn w r x ∧ ∃ root, root ∈ m_allRoots (net w) ∧ dependsOn w root x).
  { intros x. unfold order. rewrite list_elem_of_filter, Hraw, Hin. done. }
  eexists w0, _, order. split; [exact F|]. split; [exact F1|].
  split; [|split; [|split; [|split]]].
  - apply GetEvalOrder_Some. simpl. apply lookup_insert_eq.
  - by apply NoDup_filter.
  - exact Hmem.
  - intros x input Hx Hi. apply Hmem in Hx as (Hr & root & Hroot & Hd). apply Hmem.
    assert (Hedge : edge (ExecutionGraph_Predecessors w) x input) by exact Hi.
    split; [|exists root; split; [done|]]; unfold dependsOn in *;
      (eapply rtc_r; [eassumption | exact Hedge]).
  - rewrite Hmem. split; [by intros [_ ?]|]. intros H. split; [|done].
    unfold dependsOn. reflexivity.
Qed.

(** ** Sorting and traversal *)

Lemma filter_agree_on (P Q : nat → Prop) `{!∀ x, Decision (P x), !∀ x, Decision (Q x)}
    (l : list nat) :
  (∀ x, x ∈ l → (P x ↔ Q x)) → filter P l = filter Q l.
Proof.
  induction l as [|a l IH]; intros Hagree; [done|].
  rewrite !filter_cons.
  assert (Ha : P a ↔ Q a) by (apply Hagree; by left).
  rewrite IH by (intros x Hx; apply Hagree; by right).
  destruct (decide (P a)), (decide (Q a)); tauto.
Qed.

(** X5.  With the global order stored, sorting by the global order is
    idempotent: the sorted sequence sorted again is itself. *)
Theorem SortByGlobalEvalOrder_idempotent w nodesToSort g :
  m_evalOrders (net w) !! None = Some g →
  ∃ sorted, SortByGlobalEvalOrder nodesToSort w = Ok sorted
    ∧ SortByGlobalEvalOrder sorted w = Ok sorted.
Proof.
  intros Hg. destruct (decide (length nodesToSort = 1)) as [Hlen|Hlen].
  - exists nodesToSort. unfold SortByGlobalEvalOrder. by rewrite decide_True.
  - exists (filter (λ node, node ∈ nodesToSort) g).
    split; [by apply SortByGlobalEvalOrder_other|].
    destruct (decide (length (filter (λ node, node ∈ nodesToSort) g) = 1)) as [H1|H1].
    + unfold SortByGlobalEvalOrder. by rewrite decide_True.
    + rewrite (SortByGlobalEvalOrder_other w _ g H1 Hg). f_equal.
      apply filter_agree_on. intros x Hx. rewrite list_elem_of_filter. tauto.
Qed.

Section TraversalEdgeCases.

Variable assertions : bool.
Variable FindInRecurrentLoops : list Node → Node → ComputationNodeBasePtr.

Lemma combineEvalOrders_fails w nodes :
  ∀ combined node,
    node ∈ nodes → isOk (GetEvalOrder node w) = false →
    isOk (combineEvalOrders w nodes combined) = false.
Proof.
  induction nodes as [|n nodes IH]; intros combined node Hin Hfail; simpl.
  - by apply elem_of_nil in Hin.
  - destruct (GetEvalOrder n w) as [order|e] eqn:E; simpl; [|done].
    apply elem_of_cons in Hin as [->|Hin]; [by rewrite E in Hfail|].
    by eapply IH.
Qed.

(** X6.  When one of the requested nodes has no evaluation order, the
    traversal throws before the action is applied to anything: the state of
    the action is the one it started with. *)
Theorem TravserseInSortedGlobalEvalOrder_missing_order {S : Type} w nodes node
    (action : Node → S → S) (s : S) :
  node ∈ nodes →
  isOk (GetEvalOrder node w) = false →
  ∃ e, TravserseInSortedGlobalEvalOrder assertions FindInRecurrentLoops w nodes action s
       = (Fail e, s).
Proof.
  intros Hin Hfail.
  pose proof (combineEvalOrders_fails w nodes [] node Hin Hfail) as Hc.
  unfold TravserseInSortedGlobalEvalOrder, bind, liftR.
  destruct (combineEvalOrders w nodes []) as [combined|e]; [done|]. by exists e.
Qed.

Lemma passedToAction_no_loops w sorted :
  (∀ n, n ∈ sorted → IsPartOfLoop w n = false) →
  ∀ completed,
    passedToAction assertions FindInRecurrentLoops w sorted completed = (Ok tt, sorted).
Proof.
  induction sorted as [|n sorted IH]; intros Hplain completed; simpl; [done|].
  unfold collapseLoopMember. rewrite Hplain by (by left).
  rewrite IH; [done|]. intros m Hm. apply Hplain. by right.
Qed.

(** X7.  When no node of the sorted combined order is part of a loop, the
    traversal completes and applies the action to the nodes of that order,
    one after the other, each as often as the order lists it. *)
Theorem TravserseInSortedGlobalEvalOrder_no_loops {S : Type} w nodes combined sorted
    (action : Node → S → S) (s : S) :
  combineEvalOrders w nodes [] = Ok combined →
  SortByGlobalEvalOrder combined w = Ok sorted →
  (∀ n, n ∈ sorted → IsPartOfLoop w n = false) →
  TravserseInSortedGlobalEvalOrder assertions FindInRecurrentLoops w nodes action s
  = (Ok tt, foldl (λ s node, action node s) s sorted).
Proof.
  intros Hc Hs Hplain.
  rewrite (TravserseInSortedGlobalEvalOrder_passed _ _ w nodes combined sorted) by done.
  by rewrite passedToAction_no_loops.
Qed.

Lemma markForForward_empty_frontier w passed :
  foldl (λ s node, markForForward w [] node s) (∅ : gset nat) passed = ∅.
Proof.
  induction passed as [|n passed IH] using rev_ind; [done|].
  rewrite foldl_app. simpl. rewrite IH.
  apply markForForward_keeps. intros input _. split; [apply not_elem_of_nil|set_solver].
Qed.

(** X8.  With an empty frontier nothing is computed: when the traversal of
    the targets completes and the global order is stored,
    [ForwardPropFromTo] completes without one forward call.  When the
    global order is not stored it fails instead, on the null pointer in
    [GetEvalOrder(nullptr)], also when the traversal itself did not need the
    global order. *)
Theorem ForwardPropFromTo_empty_frontier w nodesTo passed calls :
  TravserseInSortedGlobalEvalOrder assertions FindInRecurrentLoops w nodesTo record []
  = (Ok tt, passed) →
  (∀ g, m_evalOrders (net w) !! None = Some g →
     ForwardPropFromTo assertions FindInRecurrentLoops w [] nodesTo calls = (Ok tt, calls))
  ∧ (m_evalOrders (net w) !! None = None →
     ForwardPropFromTo assertions FindInRecurrentLoops w [] nodesTo calls
     = (Fail NullDereference, calls)).
Proof.
  intros Hrec.
  pose proof (TravserseInSortedGlobalEvalOrder_record_inv _ _ w nodesTo passed Hrec
                (gset nat) (markForForward w []) ∅) as Hmark.
  rewrite markForForward_empty_frontier in Hmark.
  unfold ForwardPropFromTo. rewrite Hmark. rewrite elements_empty.
  split.
  - intros g Hg. rewrite (SortByGlobalEvalOrder_other w [] g) by done.
    assert (Hnone : filter (λ node : nat, node ∈ ([] : list nat)) g = []).
    { clear. induction g as [|x g IH]; [done|].
      rewrite filter_cons_False; [done | apply not_elem_of_nil]. }
    by rewrite Hnone.
  - intros Hg. unfold SortByGlobalEvalOrder, GetEvalOrder. simpl. by rewrite Hg.
Qed.

End TraversalEdgeCases.

(** ** The node holder *)

Section NodeAccessFacts.

Variable nocase_key : string → string.

Lemma AddNodeToNet_fresh w node :
  m_nameToNodeMap (net w) !! nocase_key (NodeName w node) = None →
  AddNodeToNet nocase_key node w
  = (Ok node,
     set_nodes (alter (set_nodeEnvironment (m_environment (net w))) node)
       (set_net (set_nameToNodeMap
                   (λ _, <[nocase_key (NodeName w node) := node]> (m_nameToNodeMap (net w))))
          w)).
Proof.
  intros H. unfold AddNodeToNet, SetEnvironment, bind, get, modify, throw, ret, map_insert.
  by rewrite H.
Qed.

(** X9.  A node added under a fresh name is found again: after
    [AddNodeToNet], [GetNodeFromName] returns the node for its name and for
    every name with the same key, answers as before for all other names,
    and the network counts one node more. *)
Theorem AddNodeToNet_then_GetNodeFromName w node :
  NodeNameExists nocase_key (NodeName w node) w = false →
  ∃ w', AddNodeToNet nocase_key node w = (Ok node, w')
    ∧ GetNodeFromName nocase_key (NodeName w' node) w' = Ok node
    ∧ (∀ name, nocase_key name = nocase_key (NodeName w node) →
         GetNodeFromName nocase_key name w' = Ok node)
    ∧ (∀ name, nocase_key name ≠ nocase_key (NodeName w node) →
         GetNodeFromName nocase_key name w' = GetNodeFromName nocase_key name w)
    ∧ GetTotalNumberOfNodes w' = S (GetTotalNumberOfNodes w).
Proof.
  unfold NodeNameExists. intros H%bool_decide_eq_false. rewrite <- eq_None_not_Some in H.
  eexists. split; [by apply AddNodeToNet_fresh|].
  assert (Hsame : ∀ name, nocase_key name = nocase_key (NodeName w node) →
            GetNodeFromName nocase_key name
              (set_nodes (alter (set_nodeEnvironment (m_environment (net w))) node)
                 (set_net (set_nameToNodeMap
                             (λ _, <[nocase_key (NodeName w node) := node]>
                                     (m_nameToNodeMap (net w)))) w))
            = Ok node).
  { intros name Hk. unfold GetNodeFromName. simpl. by rewrite Hk, lookup_insert_eq. }
  split; [|split; [exact Hsame|split]].
  - apply Hsame. f_equal. by apply (NodeName_alter (set_net _ w)).
  - intros name Hk. unfold GetNodeFromName. simpl. by rewrite lookup_insert_ne.
  - unfold GetTotalNumberOfNodes. simpl. by apply map_size_insert_None.
Qed.

(** X10.  [GetNodeFromName] succeeds exactly for the names that
    [NodeNameExists] accepts, so a call guarded by [NodeNameExists] does not
    throw; for any other name it throws the [RuntimeError] that quotes the
    name asked for. *)
Theorem GetNodeFromName_guarded name w :
  (NodeNameExists nocase_key name w = true →
     ∃ node, GetNodeFromName nocase_key name w = Ok node
       ∧ m_nameToNodeMap (net w) !! nocase_key name = Some node)
  ∧ (NodeNameExists nocase_key name w = false →
     GetNodeFromName nocase_key name w
     = Fail (RuntimeError
               ("GetNodeFromName: Network has no node named '" +:+ name +:+ "'."))).
Proof.
  unfold NodeNameExists, GetNodeFromName. split.
  - intros [node H]%bool_decide_eq_true. exists node. by rewrite H.
  - intros H%bool_decide_eq_false. rewrite <- eq_None_not_Some in H. by rewrite H.
Qed.

Lemma RemoveNodeFromNet_run w node :
  RemoveNodeFromNet nocase_key node w
  = (Ok node,
     set_net (set_nameToNodeMap (delete (nocase_key (NodeName w node))))
       (set_nodes (alter clear_nodeEnvironment node) w)).
Proof.
  unfold RemoveNodeFromNet, bind, get, modify, ret.
  by rewrite (NodeName_alter w clear_nodeEnvironment node node).
Qed.

(** X11.  [RemoveNodeFromNet] erases whatever the map holds under the name
    of the node, be it this node or another one: afterwards the name does
    not exist, every other key is as before, and the node has no
    environment. *)
Theorem RemoveNodeFromNet_erases_name w node :
  ∃ w', RemoveNodeFromNet nocase_key node w = (Ok node, w')
    ∧ NodeNameExists nocase_key (NodeName w node) w' = false
    ∧ m_nameToNodeMap (net w') = delete (nocase_key (NodeName w node)) (m_nameToNodeMap (net w))
    ∧ (∀ name, nocase_key name ≠ nocase_key (NodeName w node) →
         GetNodeFromName nocase_key name w' = GetNodeFromName nocase_key name w)
    ∧ (node ∈ dom (nodes w) → m_nodeEnvironment (deref w' node) = None)
    ∧ NodeName w' node = NodeName w node.
Proof.
  eexists. split; [apply RemoveNodeFromNet_run|].
  split; [|split; [done|split; [|split]]].
  - unfold NodeNameExists. apply bool_decide_eq_false. simpl.
    rewrite lookup_delete_eq. by intros [? ?].
  - intros name Hk. unfold GetNodeFromName. simpl. by rewrite lookup_delete_ne.
  - intros [o Ho]%elem_of_dom. unfold deref. simpl.
    by rewrite lookup_total_alter_eq, Ho.
  - by apply (NodeName_alter w clear_nodeEnvironment node node).
Qed.

(** X12.  Removing a node right after it was added under a fresh name gives
    back the name map and the node count of before. *)
Theorem AddNodeToNet_then_RemoveNodeFromNet w node :
  NodeNameExists nocase_key (NodeName w node) w = false →
  ∃ w1 w2, AddNodeToNet nocase_key node w = (Ok node, w1)
    ∧ RemoveNodeFromNet nocase_key node w1 = (Ok node, w2)
    ∧ m_nameToNodeMap (net w2) = m_nameToNodeMap (net w)
    ∧ GetTotalNumberOfNodes w2 = GetTotalNumberOfNodes w
    ∧ net w2 = net w.
Proof.
  unfold NodeNameExists. intros H%bool_decide_eq_false. rewrite <- eq_None_not_Some in H.
  eexists _, _. split; [by apply AddNodeToNet_fresh|].
  split; [apply RemoveNodeFromNet_run|].
  assert (Hname : NodeName (set_nodes (alter (set_nodeEnvironment (m_environment (net w)))
                                           node)
                              (set_net (set_nameToNodeMap
                                          (λ _, <[nocase_key (NodeName w node) := node]>
                                                  (m_nameToNodeMap (net w)))) w)) node
                  = NodeName w node)
    by (by apply (NodeName_alter (set_net _ w))).
  rewrite Hname.
  assert (Hmap : delete (nocase_key (NodeName w node))
                   (<[nocase_key (NodeName w node) := node]> (m_nameToNodeMap (net w)))
                 = m_nameToNodeMap (net w)) by (by apply delete_insert_id).
  split; [simpl; exact Hmap|]. split; [unfold GetTotalNumberOfNodes; simpl; by rewrite Hmap|].
  simpl. destruct (net w); unfold set_nameToNodeMap; simpl in *. by rewrite Hmap.
Qed.

End NodeAccessFacts.

Section AddNodeToNetIfNotYetFacts.

Variable nocase_key : string → string.
Variable show_uniqueNumericId : Node → string.

Local Abbreviation insertLoop := (insertUnderUniqueName nocase_key show_uniqueNumericId).
Local Abbreviation key_of w node := (nocase_key (NodeName w node)).
Local Abbreviation map_of w := (m_nameToNodeMap (net w)).

(** One round of the insertion loop. *)
Lemma insertUnderUniqueName_unfold fuel node makeUniqueName w :
  insertLoop fuel node makeUniqueName w
  = match map_of w !! key_of w node with
    | None =>
        (Ok true, set_net (set_nameToNodeMap (λ _, <[key_of w node := node]> (map_of w))) w)
    | Some found =>
        if bool_decide (found = node) then (Ok false, w)
        else if negb makeUniqueName || negb (containsAnyOf ".[]" (NodeName w node))
        then (Fail (RuntimeError
                      (AddNodeToNetIfNotYet_message show_uniqueNumericId w node found)), w)
        else match fuel with
             | O => (Fail OutOfFuel, w)
             | S fuel' =>
                 insertLoop fuel' node makeUniqueName
                   (set_nodes (alter (set_nodeName ("_" +:+ NodeName w node)) node) w)
             end
    end.
Proof.
  assert (Hid : set_net (set_nameToNodeMap (λ _, map_of w)) w = w)
    by (by apply set_net_id, set_nameToNodeMap_id).
  destruct fuel; unfold insertUnderUniqueName; fold insertUnderUniqueName;
    unfold bind, get, modify, throw, ret, map_insert, SetName;
    destruct (map_of w !! key_of w node) as [found|] eqn:E; simpl; try done;
    rewrite Hid; destruct (bool_decide (found = node)); simpl; try done;
    destruct (negb makeUniqueName || negb (containsAnyOf ".[]" (NodeName w node))); done.
Qed.

Lemma AddNodeToNetIfNotYet_unfold node makeUniqueName w :
  AddNodeToNetIfNotYet nocase_key show_uniqueNumericId node makeUniqueName w
  = match insertLoop (size (map_of w)) node makeUniqueName w with
    | (Ok second, w') =>
        (Ok second, set_nodes (alter (set_nodeEnvironment (m_environment (net w'))) node) w')
    | (Fail e, w') => (Fail e, w')
    end.
Proof.
  unfold AddNodeToNetIfNotYet, bind, get, ret, SetEnvironment, modify.
  by destruct (insertLoop (size (map_of w)) node makeUniqueName w) as [[second|e] w'].
Qed.

(** X13.  When the name of the node is free, or held by this very node,
    [AddNodeToNetIfNotYet] returns whether the node was not there yet:
    [true] and the node is inserted, or [false] and the map is as before.
    Either way the node is in the map under its unchanged name, the other
    keys are untouched, and the node has the network's environment. *)
Theorem AddNodeToNetIfNotYet_no_clash node makeUniqueName w :
  map_of w !! key_of w node = None ∨ map_of w !! key_of w node = Some node →
  ∃ w', AddNodeToNetIfNotYet nocase_key show_uniqueNumericId node makeUniqueName w
        = (Ok (bool_decide (map_of w !! key_of w node = None)), w')
    ∧ map_of w' !! key_of w node = Some node
    ∧ (∀ key, key ≠ key_of w node → map_of w' !! key = map_of w !! key)
    ∧ NodeName w' node = NodeName w node
    ∧ (node ∈ dom (nodes w) →
       m_nodeEnvironment (deref w' node) = Some (m_environment (net w))).
Proof.
  intros H. rewrite AddNodeToNetIfNotYet_unfold, insertUnderUniqueName_unfold.
  destruct H as [H|H]; rewrite H.
  - eexists. split; [by rewrite bool_decide_eq_true_2|].
    split; [simpl; apply lookup_insert_eq|].
    split; [intros key Hk; simpl; by rewrite lookup_insert_ne|].
    split; [by apply (NodeName_alter (set_net _ w))|].
    intros [o Ho]%elem_of_dom. unfold deref. simpl.
    by rewrite lookup_total_alter_eq, Ho.
  - rewrite bool_decide_eq_true_2 by done.
    eexists. split; [by rewrite bool_decide_eq_false_2|].
    split; [done|]. split; [done|].
    split; [by apply NodeName_alter|].
    intros [o Ho]%elem_of_dom. unfold deref. simpl.
    by rewrite lookup_total_alter_eq, Ho.
Qed.

(** X14.  When the name is held by another node and renaming is not asked
    for, or the name has none of the characters [.], [[] and []],
    [AddNodeToNetIfNotYet] throws the [RuntimeError] that names the node,
    and the state is the one before the call: with [makeUniqueName] set, a
    name without such a character is still rejected. *)
Theorem AddNodeToNetIfNotYet_clash_rejected node makeUniqueName w other :
  map_of w !! key_of w node = Some other → other ≠ node →
  makeUniqueName = false ∨ containsAnyOf ".[]" (NodeName w node) = false →
  AddNodeToNetIfNotYet nocase_key show_uniqueNumericId node makeUniqueName w
  = (Fail (RuntimeError (AddNodeToNetIfNotYet_message show_uniqueNumericId w node other)), w).
Proof.
  intros H Hne Hor. rewrite AddNodeToNetIfNotYet_unfold, insertUnderUniqueName_unfold, H.
  rewrite bool_decide_eq_false_2 by done.
  by destruct Hor as [-> | ->]; [|rewrite orb_true_r].
Qed.

Lemma prefixed_shift k name : prefixed k ("_" +:+ name) = prefixed (S k) name.
Proof. induction k as [|k IH]; simpl; [done|]. by rewrite IH. Qed.

Lemma length_underscore name : String.length ("_" +:+ name) = S (String.length name).
Proof. reflexivity. Qed.

Lemma containsAnyOf_underscore chars name :
  containsAnyOf chars name = true → containsAnyOf chars ("_" +:+ name) = true.
Proof.
  intros H. change (containsAnyOf chars ("_" +:+ name))
    with (occursIn (Ascii.ascii_of_nat 95) chars || containsAnyOf chars name).
  rewrite H. apply orb_true_r.
Qed.

Lemma length_prefixed k name : String.length (prefixed k name) = k + String.length name.
Proof.
  induction k as [|k IH]; [done|].
  change (prefixed (S k) name) with ("_" +:+ prefixed k name).
  by rewrite length_underscore, IH.
Qed.

(** What the loop does when renaming is asked for and the name has one of
    the characters: it stops at the first of the names [name], [_name],
    [__name], ... whose key is free or held by the node, or runs out of
    fuel when the keys of the first [fuel + 1] of them are held by other
    nodes. *)
Lemma insertUnderUniqueName_renames fuel node :
  ∀ w, node ∈ dom (nodes w) →
    containsAnyOf ".[]" (NodeName w node) = true →
    ((∀ j, j ≤ fuel →
        ∃ other, map_of w !! nocase_key (prefixed j (NodeName w node)) = Some other
                 ∧ other ≠ node)
     ∧ ∃ w', insertLoop fuel node true w = (Fail OutOfFuel, w'))
    ∨ ∃ k w' second,
        k ≤ fuel
        ∧ insertLoop fuel node true w = (Ok second, w')
        ∧ (∀ j, j < k →
             ∃ other, map_of w !! nocase_key (prefixed j (NodeName w node)) = Some other
                      ∧ other ≠ node)
        ∧ NodeName w' node = prefixed k (NodeName w node)
        ∧ second = bool_decide (map_of w !! nocase_key (prefixed k (NodeName w node)) = None)
        ∧ (map_of w !! nocase_key (prefixed k (NodeName w node)) = None
           ∨ map_of w !! nocase_key (prefixed k (NodeName w node)) = Some node)
        ∧ map_of w' !! nocase_key (prefixed k (NodeName w node)) = Some node
        ∧ (∀ key, key ≠ nocase_key (prefixed k (NodeName w node)) →
             map_of w' !! key = map_of w !! key)
        ∧ m_environment (net w') = m_environment (net w)
        ∧ (∀ n, n ≠ node → deref w' n = deref w n).
Proof.
  induction fuel as [|fuel IH]; intros w Hdom Hchars;
    rewrite insertUnderUniqueName_unfold;
    destruct (map_of w !! key_of w node) as [found|] eqn:E.
  1,3: destruct (decide (found = node)) as [->|Hne].
  1,3: right; exists 0, w, false; rewrite bool_decide_eq_true_2 by done; simpl;
       rewrite E; split; [lia|]; split; [done|]; split; [intros j; lia|];
       split; [done|]; split; [by rewrite bool_decide_eq_false_2|]; auto 10.
  3,4: right; eexists 0, _, true; simpl; rewrite E;
       split; [lia|]; split; [done|]; split; [intros j; lia|];
       split; [done|];
       split; [by rewrite bool_decide_eq_true_2|]; split; [by left|];
       split; [simpl; apply lookup_insert_eq|];
       split; [intros key Hk; simpl; by rewrite lookup_insert_ne|]; done.
  - rewrite bool_decide_eq_false_2 by done. rewrite Hchars. simpl.
    left. split; [|by exists w]. intros j Hj. assert (j = 0) as -> by lia. simpl. eauto.
  - rewrite bool_decide_eq_false_2 by done. rewrite Hchars. simpl.
    set (w1 := set_nodes (alter (set_nodeName ("_" +:+ NodeName w node)) node) w).
    assert (Hname1 : NodeName w1 node = "_" +:+ NodeName w node).
    { unfold NodeName, deref, w1. simpl. apply elem_of_dom in Hdom as [o Ho].
      by rewrite lookup_total_alter_eq, Ho. }
    assert (Hdom1 : node ∈ dom (nodes w1)).
    { unfold w1. simpl. apply elem_of_dom. rewrite lookup_alter_eq.
      apply elem_of_dom in Hdom as [o Ho]. rewrite Ho. simpl. eauto. }
    assert (Hchars1 : containsAnyOf ".[]" (NodeName w1 node) = true).
    { rewrite Hname1. by apply containsAnyOf_underscore. }
    assert (Hother : ∀ n, n ≠ node → deref w1 n = deref w n).
    { intros n Hn. unfold deref, w1. simpl. by rewrite lookup_total_alter_ne. }
    destruct (IH w1 Hdom1 Hchars1) as [[Hall [w' Hrun]]|(k & w' & second & Hk & Hrun & Hbefore
        & Hn & Hsec & Hcase & Hnew & Hold & Henv & Hderef)].
    + left. split; [|by exists w']. intros [|j] Hj; [simpl; eauto|].
      destruct (Hall j) as (o & Ho & Hno); [lia|]. exists o.
      rewrite Hname1, prefixed_shift in Ho. done.
    + right. exists (S k), w', second.
      rewrite Hname1, prefixed_shift in *.
      split; [lia|]. split; [done|].
      split.
      { intros [|j] Hj; [simpl; eauto|].
        destruct (Hbefore j) as (o & Ho & Hno); [lia|].
        rewrite prefixed_shift in Ho. eauto. }
      split; [done|]. split; [done|]. split; [done|]. split; [done|].
      split; [done|]. split; [done|].
      intros n Hnn. rewrite Hderef by done. by apply Hother.
Qed.

Lemma distinct_keys_bound (m : gmap string nat) (candidate : nat → string) n :
  (∀ i j, candidate i = candidate j → i = j) →
  (∀ j, j ≤ n → is_Some (m !! candidate j)) →
  n < size m.
Proof.
  intros Hinj Hall.
  assert (Hnd : NoDup (candidate <$> seq 0 (S n))).
  { apply NoDup_fmap_2_strong; [|apply NoDup_seq]. intros i j _ _. apply Hinj. }
  assert (Hsub : (list_to_set (candidate <$> seq 0 (S n)) : gset string) ⊆ dom m).
  { intros key Hkey. apply elem_of_list_to_set, list_elem_of_fmap in Hkey.
    destruct Hkey as (j & -> & Hj).
    apply elem_of_dom, Hall. apply elem_of_seq in Hj. lia. }
  apply subseteq_size in Hsub.
  rewrite size_list_to_set, length_fmap, length_seq, size_dom in Hsub by done. lia.
Qed.

(** X15.  When the name is held by another node, renaming is asked for and
    the name has one of the characters [.], [[] and []], and names of one
    key have one length, [AddNodeToNetIfNotYet] completes: it puts [_]
    before the name of the node until the key is free or held by the node
    itself, at least once and at most as often as the map has entries.  The
    node then carries the new name and is in the map under it, all other
    keys are as before, and the answer tells whether the node was inserted. *)
Theorem AddNodeToNetIfNotYet_makes_unique node w other :
  (∀ s t, nocase_key s = nocase_key t → String.length s = String.length t) →
  node ∈ dom (nodes w) →
  containsAnyOf ".[]" (NodeName w node) = true →
  map_of w !! key_of w node = Some other → other ≠ node →
  ∃ k w' second,
    AddNodeToNetIfNotYet nocase_key show_uniqueNumericId node true w = (Ok second, w')
    ∧ 1 ≤ k ≤ size (map_of w)
    ∧ NodeName w' node = prefixed k (NodeName w node)
    ∧ (∀ j, j < k →
         ∃ o, map_of w !! nocase_key (prefixed j (NodeName w node)) = Some o ∧ o ≠ node)
    ∧ map_of w' !! key_of w' node = Some node
    ∧ (∀ key, key ≠ key_of w' node → map_of w' !! key = map_of w !! key)
    ∧ second = bool_decide (map_of w !! key_of w' node = None)
    ∧ (∀ n, n ≠ node → deref w' n = deref w n).
Proof.
  intros Hlen Hdom Hchars Hheld Hne.
  rewrite AddNodeToNetIfNotYet_unfold.
  destruct (insertUnderUniqueName_renames (size (map_of w)) node w Hdom Hchars)
    as [[Hall _]|(k & w' & second & Hk & Hrun & Hbefore & Hn & Hsec & Hcase & Hnew & Hold
                 & Henv & Hderef)].
  - exfalso.
    assert (size (map_of w) < size (map_of w)); [|lia].
    apply (distinct_keys_bound _ (λ j, nocase_key (prefixed j (NodeName w node)))).
    + intros i j Hij. apply Hlen in Hij. rewrite !length_prefixed in Hij. lia.
    + intros j Hj. destruct (Hall j Hj) as (o & Ho & _). eauto.
  - rewrite Hrun.
    assert (Hname : NodeName (set_nodes (alter (set_nodeEnvironment (m_environment (net w')))
                                            node) w') node
                    = prefixed k (NodeName w node))
      by (rewrite <- Hn; by apply NodeName_alter).
    exists k, (set_nodes (alter (set_nodeEnvironment (m_environment (net w'))) node) w'),
      second.
    rewrite Hname.
    split; [done|]. split.
    { split; [|done]. destruct k as [|k]; [|lia]. simpl in Hcase.
      rewrite Hheld in Hcase. destruct Hcase as [?|?]; congruence. }
    split; [done|]. split; [done|]. split; [done|]. split; [done|]. split; [done|].
    intros n Hnn. rewrite <- Hderef by done. unfold deref. simpl.
    by rewrite lookup_total_alter_ne.
Qed.

End AddNodeToNetIfNotYetFacts.

(** ** Node groups *)

Lemma GetNodeGroup_Ok_allowed groupTag g :
  GetNodeGroup groupTag = Ok g → groupTag ∈ allowedTags.
Proof.
  unfold GetNodeGroup, allowedTags. intros H.
  repeat match type of H with
         | context [decide (?a = ?b)] => destruct (decide (a = b)) as [->|?]; [set_solver|]
         end.
  discriminate H.
Qed.

Lemma set_nodeGroup_id g n : set_nodeGroup g (nodeGroup g n) n = n.
Proof. by destruct g, n. Qed.

Lemma HasTag_set w node tag :
  node ∈ dom (nodes w) →
  HasTag (set_nodes (alter (set_tags (λ tags, {[tag]} ∪ tags)) node) w) node tag = true.
Proof.
  intros [o Ho]%elem_of_dom. unfold HasTag, deref. simpl. apply bool_decide_eq_true.
  rewrite lookup_total_alter_eq, Ho. simpl. set_solver.
Qed.

(** What [AddToNodeGroup] does for a group tag. *)
Lemma AddToNodeGroup_run groupTag node w g :
  GetNodeGroup groupTag = Ok g →
  AddToNodeGroup groupTag node w
  = if HasTag w node groupTag && bool_decide (node ∈ nodeGroup g (net w))
    then (Ok tt, w)
    else (Ok tt,
          set_net (set_nodeGroup g (nodeGroup g (net w) ++ [node]))
            (set_nodes (alter (set_tags (λ tags, {[groupTag]} ∪ tags)) node) w)).
Proof.
  intros Hg. unfold AddToNodeGroup, bind, liftR, get, SetTag, modify, ret.
  rewrite Hg. rewrite (bool_decide_eq_true_2 _ (GetNodeGroup_Ok_allowed _ _ Hg)).
  by destruct (HasTag w node groupTag && bool_decide (node ∈ nodeGroup g (net w))).
Qed.

(** X16.  A tag that is none of the five group tags is refused:
    [AddToNodeGroup] throws [InvalidArgument] quoting the tag, and neither
    the node nor any group is changed. *)
Theorem AddToNodeGroup_invalid_tag groupTag node w :
  groupTag ∉ allowedTags →
  AddToNodeGroup groupTag node w
  = (Fail (InvalidArgument
             ("Invalid group tag '" +:+ groupTag
              +:+ "', must be one of 'feature', 'label', 'criterion', 'evaluation', 'output'.")),
     w).
Proof.
  intros H. unfold AddToNodeGroup, bind, liftR. by rewrite (GetNodeGroup_not_allowed _ H).
Qed.

(** X17.  For a group tag, [AddToNodeGroup] completes; afterwards the node
    is in the group and carries the tag, the other groups are as before,
    and adding the node once more changes nothing. *)
Theorem AddToNodeGroup_idempotent groupTag node w :
  groupTag ∈ allowedTags → node ∈ dom (nodes w) →
  ∃ g w', GetNodeGroup groupTag = Ok g
    ∧ AddToNodeGroup groupTag node w = (Ok tt, w')
    ∧ node ∈ nodeGroup g (net w')
    ∧ HasTag w' node groupTag = true
    ∧ (∀ g', g' ≠ g → nodeGroup g' (net w') = nodeGroup g' (net w))
    ∧ AddToNodeGroup groupTag node w' = (Ok tt, w').
Proof.
  intros Htag Hdom. destruct (GetNodeGroup_allowed groupTag Htag) as [g Hg].
  exists g. rewrite (AddToNodeGroup_run groupTag node w g Hg).
  destruct (HasTag w node groupTag && bool_decide (node ∈ nodeGroup g (net w))) eqn:Hb.
  - apply andb_true_iff in Hb as [Hh Hin]. apply bool_decide_eq_true in Hin.
    exists w. split; [done|]. split; [done|]. split; [done|]. split; [done|].
    split; [done|]. rewrite (AddToNodeGroup_run groupTag node w g Hg).
    by rewrite Hh, (bool_decide_eq_true_2 _ Hin).
  - eexists. split; [done|]. split; [reflexivity|].
    assert (Hin : node ∈ nodeGroup g
              (net (set_net (set_nodeGroup g (nodeGroup g (net w) ++ [node]))
                      (set_nodes (alter (set_tags (λ tags, {[groupTag]} ∪ tags)) node) w)))).
    { simpl. rewrite nodeGroup_set_nodeGroup. apply elem_of_app. right. by left. }
    assert (Hh : HasTag (set_net (set_nodeGroup g (nodeGroup g (net w) ++ [node]))
                           (set_nodes (alter (set_tags (λ tags, {[groupTag]} ∪ tags)) node) w))
                   node groupTag = true) by (by apply (HasTag_set w)).
    split; [exact Hin|]. split; [exact Hh|].
    split; [intros g' Hg'; simpl; by apply nodeGroup_set_other|].
    rewrite (AddToNodeGroup_run groupTag node _ g Hg).
    by rewrite Hh, (bool_decide_eq_true_2 _ Hin).
Qed.

(** X18.  [AddToNodeGroup] keeps a group free of duplicates, provided the
    nodes listed in the group carry its tag: the group afterwards is the old
    one, or the old one with the node, which it did not hold, at its end. *)
Theorem AddToNodeGroup_keeps_NoDup groupTag node w g :
  GetNodeGroup groupTag = Ok g →
  NoDup (nodeGroup g (net w)) →
  (node ∈ nodeGroup g (net w) → HasTag w node groupTag = true) →
  ∃ w', AddToNodeGroup groupTag node w = (Ok tt, w')
    ∧ NoDup (nodeGroup g (net w'))
    ∧ (nodeGroup g (net w') = nodeGroup g (net w)
       ∨ ((node ∉ nodeGroup g (net w))
          ∧ nodeGroup g (net w') = nodeGroup g (net w) ++ [node])).
Proof.
  intros Hg Hnd Hcons. rewrite (AddToNodeGroup_run groupTag node w g Hg).
  destruct (HasTag w node groupTag && bool_decide (node ∈ nodeGroup g (net w))) eqn:Hb.
  - exists w. auto.
  - assert (Hnot : node ∉ nodeGroup g (net w)).
    { intros Hin. rewrite (Hcons Hin), (bool_decide_eq_true_2 _ Hin) in Hb. discriminate. }
    eexists. split; [reflexivity|]. simpl. rewrite nodeGroup_set_nodeGroup.
    split; [|by right].
    apply NoDup_app. split; [done|]. split; [|apply NoDup_singleton].
    intros x Hx ->%list_elem_of_singleton. done.
Qed.

Lemma eraseFirst_app_new node l : node ∉ l → eraseFirst node (l ++ [node]) = Some l.
Proof.
  induction l as [|x l IH]; intros Hnot; simpl.
  - by rewrite decide_True.
  - rewrite decide_False by (intros ->; apply Hnot; by left).
    rewrite IH; [done|]. intros ?. apply Hnot. by right.
Qed.

(** X19.  Adding a node to a group that does not list it and removing it
    again gives back the groups of before: [RemoveFromNodeGroup] answers
    [true], and the network is the one before the two calls. *)
Theorem AddToNodeGroup_then_RemoveFromNodeGroup groupTag node w g :
  GetNodeGroup groupTag = Ok g →
  node ∈ dom (nodes w) →
  node ∉ nodeGroup g (net w) →
  ∃ w1 w2,
    AddToNodeGroup groupTag node w = (Ok tt, w1)
    ∧ RemoveFromNodeGroup groupTag node w1 = (Ok true, w2)
    ∧ net w2 = net w
    ∧ HasTag w2 node groupTag = false.
Proof.
  intros Hg Hdom Hnot. rewrite (AddToNodeGroup_run groupTag node w g Hg).
  rewrite (bool_decide_eq_false_2 _ Hnot), andb_false_r.
  set (w1 := set_net (set_nodeGroup g (nodeGroup g (net w) ++ [node]))
               (set_nodes (alter (set_tags (λ tags, {[groupTag]} ∪ tags)) node) w)).
  assert (Hh : HasTag w1 node groupTag = true) by (by apply (HasTag_set w)).
  exists w1. eexists. split; [done|].
  unfold RemoveFromNodeGroup, bind. rewrite (ClearTag_carried w1 node groupTag Hh).
  simpl. unfold liftR, get. rewrite Hg. simpl. rewrite nodeGroup_set_nodeGroup.
  rewrite (eraseFirst_app_new node _ Hnot). unfold modify, ret.
  split; [reflexivity|]. split.
  - simpl. destruct g, (net w); reflexivity.
  - apply (HasTag_cleared w1).
Qed.

(** ** Node access over the whole network *)

Lemma GetAllNodes_holds nocase_compare w n :
  n ∈ GetAllNodes nocase_compare w ↔ ∃ name, m_nameToNodeMap (net w) !! name = Some n.
Proof.
  unfold GetAllNodes, inKeyOrder. rewrite list_elem_of_fmap. split.
  - intros ([name n'] & -> & H). exists name.
    rewrite merge_sort_Permutation in H. by apply elem_of_map_to_list in H.
  - intros (name & H). exists (name, n). split; [done|].
    rewrite merge_sort_Permutation. by apply elem_of_map_to_list.
Qed.

Lemma insertParent_foldl node inputs parents c :
  (c ∈ dom (foldl (insertParent node) parents inputs) ↔ c ∈ dom parents ∨ c ∈ inputs)
  ∧ ∀ p, p ∈ default ∅ (foldl (insertParent node) parents inputs !! c)
         ↔ p ∈ default ∅ (parents !! c) ∨ (p = node ∧ c ∈ inputs).
Proof.
  revert parents. induction inputs as [|child inputs IH]; intros parents; simpl.
  - split; [|intros p]; rewrite elem_of_nil; tauto.
  - destruct (IH (insertParent node parents child)) as [IHd IHp]. split.
    + rewrite IHd. unfold insertParent. rewrite dom_insert, elem_of_union, elem_of_singleton,
        elem_of_cons. tauto.
    + intros p. rewrite IHp, elem_of_cons. unfold insertParent.
      destruct (decide (c = child)) as [->|Hne].
      * rewrite lookup_insert_eq. simpl. rewrite elem_of_union, elem_of_singleton. tauto.
      * rewrite lookup_insert_ne by done. intuition congruence.
Qed.

Lemma touchEntry_spec node parents c :
  (c ∈ dom (touchEntry node parents) ↔ c ∈ dom parents ∨ c = node)
  ∧ default ∅ (touchEntry node parents !! c) = default ∅ (parents !! c).
Proof.
  unfold touchEntry. destruct (parents !! node) as [ps|] eqn:E.
  - split; [|done]. split; [tauto|]. intros [?| ->]; [done|]. apply elem_of_dom. eauto.
  - split.
    + rewrite dom_insert, elem_of_union, elem_of_singleton. tauto.
    + destruct (decide (c = node)) as [->|Hne].
      * by rewrite lookup_insert_eq, E.
      * by rewrite lookup_insert_ne.
Qed.

Lemma CreateParentsMap_foldl w l parents c :
  let step := λ parents node,
    foldl (insertParent node) (touchEntry node parents) (GetInputs w node) in
  (c ∈ dom (foldl step parents l)
   ↔ c ∈ dom parents ∨ c ∈ l ∨ ∃ p, p ∈ l ∧ c ∈ GetInputs w p)
  ∧ ∀ p, p ∈ default ∅ (foldl step parents l !! c)
         ↔ p ∈ default ∅ (parents !! c) ∨ (p ∈ l ∧ c ∈ GetInputs w p).
Proof.
  intros step. revert parents. induction l as [|node l IH]; intros parents; simpl.
  - split; [|intros p]; rewrite ?elem_of_nil; [|tauto].
    split; [tauto|]. intros [?|[[]|(p & [] %elem_of_nil & _)]]. done.
  - destruct (IH (step parents node)) as [IHd IHp].
    destruct (insertParent_foldl node (GetInputs w node) (touchEntry node parents) c)
      as [Hd Hp].
    destruct (touchEntry_spec node parents c) as [Td Tp].
    split.
    + rewrite IHd. unfold step at 1. rewrite Hd, Td, elem_of_cons.
      setoid_rewrite elem_of_cons. naive_solver.
    + intros p. rewrite IHp. unfold step at 1. rewrite Hp, Tp, elem_of_cons.
      intuition congruence.
Qed.

(** X20.  [CreateParentsMap] has an entry for exactly the nodes that the
    network holds and the inputs of those nodes, and the set stored for a
    node holds exactly the nodes of the network that have it as an input. *)
Theorem CreateParentsMap_characterised nocase_compare w c :
  let holds n := ∃ name, m_nameToNodeMap (net w) !! name = Some n in
  (c ∈ dom (CreateParentsMap nocase_compare w)
   ↔ holds c ∨ ∃ p, holds p ∧ c ∈ GetInputs w p)
  ∧ ∀ p, p ∈ default ∅ (CreateParentsMap nocase_compare w !! c)
         ↔ holds p ∧ c ∈ GetInputs w p.
Proof.
  intros holds. unfold CreateParentsMap.
  destruct (CreateParentsMap_foldl w (GetAllNodes nocase_compare w) ∅ c) as [Hd Hp]. split.
  - rewrite Hd, dom_empty, elem_of_empty, GetAllNodes_holds.
    setoid_rewrite GetAllNodes_holds. tauto.
  - intros p. rewrite Hp, lookup_empty. simpl. rewrite elem_of_empty, GetAllNodes_holds. tauto.
Qed.

Section NodeQueryFacts.

Variable nocase_key : string → string.
Variable GetNumElements : Node → nat.

Lemma logEach_spec nodes acc :
  NoDup acc.2 → (∀ n, n ∈ acc.2 ↔ n ∈ acc.1) →
  NoDup (logEach nodes acc).2
  ∧ (∀ n, n ∈ (logEach nodes acc).2 ↔ n ∈ (logEach nodes acc).1)
  ∧ (∀ n, n ∈ (logEach nodes acc).2 ↔ n ∈ acc.2 ∨ n ∈ nodes).
Proof.
  revert acc. induction nodes as [|node nodes IH]; intros acc Hnd Hacc; simpl.
  - split; [done|]. split; [done|]. intros n. rewrite elem_of_nil. tauto.
  - case_bool_decide as Hin.
    + destruct (IH acc Hnd Hacc) as (H1 & H2 & H3). split; [done|]. split; [done|].
      intros n. rewrite H3, elem_of_cons. split; [tauto|].
      intros [?|[->|?]]; [tauto| |tauto]. left. by apply Hacc.
    + destruct (IH ({[node]} ∪ acc.1, acc.2 ++ [node])) as (H1 & H2 & H3); simpl.
      * apply NoDup_app. split; [done|]. split; [|apply NoDup_singleton].
        intros x Hx ->%list_elem_of_singleton. apply Hin. by apply Hacc.
      * intros n. rewrite elem_of_app, list_elem_of_singleton, elem_of_union,
          elem_of_singleton, Hacc. tauto.
      * split; [done|]. split; [done|]. intros n.
        rewrite H3. simpl. rewrite elem_of_app, list_elem_of_singleton, elem_of_cons. tauto.
Qed.

Lemma logEachNamed_spec names w acc :
  NoDup acc.2 → (∀ n, n ∈ acc.2 ↔ n ∈ acc.1) →
  (∀ name, name ∈ names →
     ∃ n, GetNodeFromName nocase_key name w = Ok n ∧ GetNumElements n = 1) →
  ∃ res, logEachNamed nocase_key GetNumElements names w acc = Ok res
    ∧ NoDup res.2
    ∧ ∀ n, n ∈ res.2 ↔ n ∈ acc.2
                        ∨ ∃ name, name ∈ names ∧ GetNodeFromName nocase_key name w = Ok n.
Proof.
  revert acc. induction names as [|name names IH]; intros acc Hnd Hacc Hall; simpl.
  - exists acc. split; [done|]. split; [done|]. intros n. split; [tauto|].
    intros [?|(name & []%elem_of_nil & _)]. done.
  - destruct (Hall name) as (node & E & Hdim); [by left|]. rewrite E. simpl.
    assert (Hrest : ∀ name', name' ∈ names →
              ∃ n, GetNodeFromName nocase_key name' w = Ok n ∧ GetNumElements n = 1)
      by (intros name' H'; apply Hall; by right).
    case_bool_decide as Hin.
    + destruct (IH acc Hnd Hacc Hrest) as (res & Er & H1 & H2).
      exists res. split; [done|]. split; [done|]. intros n. rewrite H2. split.
      * intros [?|(name' & ? & ?)]; [by left|]. right. exists name'. split; [by right|done].
      * intros [?|(name' & [->|?]%elem_of_cons & E')]; [by left| |].
        -- left. rewrite E in E'. inversion E'; subst. by apply Hacc.
        -- right. by exists name'.
    + rewrite bool_decide_eq_false_2 by (intros H; by apply H).
      destruct (IH ({[node]} ∪ acc.1, acc.2 ++ [node])) as (res & Er & H1 & H2); simpl.
      * apply NoDup_app. split; [done|]. split; [|apply NoDup_singleton].
        intros x Hx ->%list_elem_of_singleton. apply Hin. by apply Hacc.
      * intros n. rewrite elem_of_app, list_elem_of_singleton, elem_of_union,
          elem_of_singleton, Hacc. tauto.
      * done.
      * exists res. split; [done|]. split; [done|]. intros n. rewrite H2. simpl.
        rewrite elem_of_app, list_elem_of_singleton. split.
        -- intros [[?| ->]|(name' & ? & ?)]; [by left| |].
           ++ right. exists name. split; [by left|done].
           ++ right. exists name'. split; [by right|done].
        -- intros [?|(name' & [->|?]%elem_of_cons & E')]; [tauto| |].
           ++ left. right. rewrite E in E'. by inversion E'.
           ++ right. by exists name'.
Qed.

Lemma logEachNamed_fails names w acc name n :
  (∀ m, m ∈ acc.1 → GetNumElements m = 1) →
  name ∈ names → GetNodeFromName nocase_key name w = Ok n → GetNumElements n ≠ 1 →
  ∃ e, logEachNamed nocase_key GetNumElements names w acc = Fail e.
Proof.
  revert acc. induction names as [|name0 names IH]; intros acc Hacc Hin E Hdim.
  - by apply elem_of_nil in Hin.
  - simpl. destruct (GetNodeFromName nocase_key name0 w) as [node0|e] eqn:E0; simpl; [|eauto].
    case_bool_decide as Hlogged.
    + apply elem_of_cons in Hin as [->|Hin]; [|by apply IH].
      rewrite E in E0. inversion E0; subst. exfalso. by apply Hdim, Hacc.
    + case_bool_decide as Hd0; [eauto|].
      apply elem_of_cons in Hin as [->|Hin].
      * rewrite E in E0. inversion E0; subst. by destruct Hdim.
      * apply IH; try done. simpl.
        intros m [->%elem_of_singleton|?]%elem_of_union; [done|by apply Hacc].
Qed.

(** X21.  Without names, [GetEvalNodesWithName] writes its notice to stderr
    and, when the network has an evaluation or a criterion node, returns
    the evaluation and the criterion nodes, each of them once. *)
Theorem GetEvalNodesWithName_default w :
  m_evaluationNodes (net w) ≠ [] ∨ m_criterionNodes (net w) ≠ [] →
  ∃ evalNodes,
    GetEvalNodesWithName nocase_key GetNumElements [] w
    = (Ok evalNodes,
       fprintf_stderr
         ("evalNodeNames are not specified, using all the default evalnodes and training criterion nodes."
          +:+ nl) w)
    ∧ NoDup evalNodes
    ∧ ∀ n, n ∈ evalNodes ↔ n ∈ m_evaluationNodes (net w) ∨ n ∈ m_criterionNodes (net w).
Proof.
  intros Hsome. unfold GetEvalNodesWithName, bind, modify, get, throw, ret. simpl.
  assert (Hb : bool_decide (m_evaluationNodes (net w) = [])
               && bool_decide (m_criterionNodes (net w) = []) = false).
  { apply andb_false_iff. destruct Hsome; [left|right]; by apply bool_decide_eq_false. }
  rewrite Hb. eexists. split; [reflexivity|].
  destruct (logEach_spec (m_evaluationNodes (net w)) (∅, [])) as (H1 & H2 & H3); simpl.
  { apply NoDup_nil_2. }
  { intros n. rewrite elem_of_nil, elem_of_empty. tauto. }
  destruct (logEach_spec (m_criterionNodes (net w))
              (logEach (m_evaluationNodes (net w)) (∅, [])) H1 H2) as (G1 & _ & G3).
  split; [done|]. intros n. rewrite G3, H3. simpl. rewrite elem_of_nil. tauto.
Qed.

(** X22.  For names that all are in the network and stand for nodes with one
    element, [GetEvalNodesWithName] returns the named nodes, each of them
    once however often it is named, and writes nothing. *)
Theorem GetEvalNodesWithName_named names w :
  names ≠ [] →
  (∀ name, name ∈ names →
     ∃ n, GetNodeFromName nocase_key name w = Ok n ∧ GetNumElements n = 1) →
  ∃ evalNodes,
    GetEvalNodesWithName nocase_key GetNumElements names w = (Ok evalNodes, w)
    ∧ NoDup evalNodes
    ∧ ∀ n, n ∈ evalNodes ↔ ∃ name, name ∈ names ∧ GetNodeFromName nocase_key name w = Ok n.
Proof.
  intros Hne Hall. unfold GetEvalNodesWithName, bind, liftR, ret.
  rewrite decide_False by (by destruct names).
  destruct (logEachNamed_spec names w (∅, [])) as (res & E & H1 & H2); simpl; try done.
  { apply NoDup_nil_2. }
  { intros n. rewrite elem_of_nil, elem_of_empty. tauto. }
  rewrite E. exists res.2. split; [done|]. split; [done|].
  intros n. rewrite H2. simpl. rewrite elem_of_nil. tauto.
Qed.

(** X23.  When one of the names stands for a node that has not exactly one
    element, [GetEvalNodesWithName] fails, whatever the other names are, and
    leaves the state as it was. *)
Theorem GetEvalNodesWithName_rejects names w name n :
  name ∈ names → GetNodeFromName nocase_key name w = Ok n → GetNumElements n ≠ 1 →
  ∃ e, GetEvalNodesWithName nocase_key GetNumElements names w = (Fail e, w).
Proof.
  intros Hin E Hdim. unfold GetEvalNodesWithName, bind, liftR, ret.
  rewrite decide_False by (destruct names; [by apply elem_of_nil in Hin|done]).
  assert (H0 : ∀ m, m ∈ (∅ : gset nat) → GetNumElements m = 1)
    by (by intros m ?%elem_of_empty).
  destruct (logEachNamed_fails names w (∅, []) name n H0 Hin E Hdim) as (e & Ee).
  rewrite Ee. by exists e.
Qed.

Lemma nodesFromNames_Ok names w nodes :
  nodesFromNames nocase_key names w = Ok nodes →
  Forall2 (λ name node, m_nameToNodeMap (net w) !! nocase_key name = Some node) names nodes.
Proof.
  revert nodes. induction names as [|name names IH]; intros nodes; simpl.
  - intros [= <-]. constructor.
  - unfold GetNodeFromName.
    destruct (m_nameToNodeMap (net w) !! nocase_key name) as [node|] eqn:E; simpl; [|done].
    destruct (nodesFromNames nocase_key names w) as [rest|] eqn:Er; simpl; [|done].
    intros [= <-]. constructor; [done|]. by apply IH.
Qed.

Lemma nodesFromNames_isOk names w :
  isOk (nodesFromNames nocase_key names w) = true
  ↔ ∀ name, name ∈ names → NodeNameExists nocase_key name w = true.
Proof.
  induction names as [|name names IH]; simpl.
  - split; [|done]. intros _ name []%elem_of_nil.
  - unfold GetNodeFromName, NodeNameExists in *.
    destruct (m_nameToNodeMap (net w) !! nocase_key name) as [node|] eqn:E; simpl.
    + destruct (nodesFromNames nocase_key names w) as [rest|] eqn:Er; simpl.
      * split; [|done]. intros _ name' [->|H]%elem_of_cons.
        -- apply bool_decide_eq_true. rewrite E. eauto.
        -- by apply IH.
      * split; [done|]. intros H. apply IH. intros name' H'. apply H. by right.
    + split; [done|]. intros H. assert (H' : name ∈ name :: names) by (by left).
      apply H, bool_decide_eq_true in H'. rewrite E in H'. by destruct H'.
Qed.

(** X24.  With names given, [OutputNodesByName] succeeds exactly when every
    name is the name of a node of the network, and then returns, name by
    name, the node the network holds under that name; the output group is
    not looked at. *)
Theorem OutputNodesByName_named names w :
  names ≠ [] →
  (isOk (OutputNodesByName nocase_key names w) = true
   ↔ ∀ name, name ∈ names → NodeNameExists nocase_key name w = true)
  ∧ ∀ nodes, OutputNodesByName nocase_key names w = Ok nodes →
      Forall2 (λ name node, m_nameToNodeMap (net w) !! nocase_key name = Some node)
              names nodes.
Proof.
  intros Hne. unfold OutputNodesByName. rewrite decide_False by (by destruct names).
  split; [apply nodesFromNames_isOk | apply nodesFromNames_Ok].
Qed.

End NodeQueryFacts.

(** X25.  After [FormEvalOrder(nullptr)] and [FormEvalOrder(r)],
    [GetNodesWithType(typeName, r)] lists, each once, exactly the nodes with
    that operation name that [r] depends on and that some root reaches. *)
Theorem GetNodesWithType_after_FormEvalOrder nocase_compare w r typeName :
  ∃ w0 w1 found,
    FormEvalOrder None w = (Ok tt, w0)
    ∧ FormEvalOrder (Some r) w0 = (Ok tt, w1)
    ∧ GetNodesWithType nocase_compare typeName (Some r) w1 = Ok found
    ∧ NoDup found
    ∧ ∀ x, x ∈ found ↔
        OperationName w x = typeName ∧ dependsOn w r x
        ∧ ∃ root, root ∈ m_allRoots (net w) ∧ dependsOn w root x.
Proof.
  destruct (traversal_terminates w (m_allRoots (net w))) as (g & E & Hnd & Hin).
  destruct (FormEvalOrder_global w) as (g' & E' & F).
  rewrite E in E'. inversion E'; subst g'.
  set (w0 := set_net (set_evalOrders <[None := g]>) (afterWarning None w)) in *.
  assert (Hn0 : nodes w0 = nodes w) by apply nodes_afterWarning.
  assert (Hg0 : m_evalOrders (net w0) !! None = Some g) by (simpl; apply lookup_insert_eq).
  destruct (rawSet_dependsOn w r) as (raw & Er & Hraw).
  assert (Er0 : CNTK_PostOrderTraversal w0 [r] = Ok raw)
    by (by rewrite (traversal_nodes w w0 [r] Hn0)).
  pose proof (FormEvalOrder_root w0 r g raw Hg0 Er0) as F1.
  set (order := filter (λ node, node ∈ (list_to_set raw : gset nat)) g) in *.
  set (w1 := set_net (set_evalOrders <[Some r := order]>) (afterWarning (Some r) w0)) in *.
  assert (Hn1 : nodes w1 = nodes w).
  { unfold w1. simpl. by rewrite nodes_afterWarning. }
  assert (Ho : GetEvalOrder (Some r) w1 = Ok order).
  { apply GetEvalOrder_Some. simpl. apply lookup_insert_eq. }
  eexists w0, w1, _. split; [exact F|]. split; [exact F1|].
  unfold GetNodesWithType, GetNodesWhere. rewrite Ho. simpl.
  split; [reflexivity|]. split.
  - apply NoDup_filter. by apply NoDup_filter.
  - intros x. rewrite list_elem_of_filter. unfold order.
    rewrite list_elem_of_filter, Hraw, Hin, bool_decide_eq_true.
    unfold OperationName, deref. rewrite Hn1. tauto.
Qed.

(** ** Word error rate *)

Section FindFacts.

Import WERFunctions.

Context (P : Ascii.ascii → Prop) `{!∀ a, Decision (P a)}.

Lemma find_from_Some s p q :
  find_from P s (Some p) = Some q →
  p ≤ q ∧ (∃ a, s !! q = Some a ∧ P a) ∧ ∀ k a, p ≤ k < q → s !! k = Some a → ¬ P a.
Proof.
  unfold find_from. destruct (list_find P (drop p s)) as [[i a]|] eqn:E; simpl; [|done].
  intros [= <-]. apply list_find_Some in E as (Hi & Ha & Hbefore).
  rewrite lookup_drop in Hi. split; [lia|]. split; [eauto|].
  intros k b Hk Hb. apply (Hbefore (k - p)); [|lia].
  rewrite lookup_drop. by replace (p + (k - p)) with k by lia.
Qed.

Lemma find_from_None s p :
  find_from P s (Some p) = None → ∀ k a, p ≤ k → s !! k = Some a → ¬ P a.
Proof.
  unfold find_from. destruct (list_find P (drop p s)) as [[i a]|] eqn:E; simpl; [done|].
  intros _ k a Hk Ha. apply list_find_None in E.
  rewrite Forall_forall in E. apply E. apply list_elem_of_lookup. exists (k - p).
  rewrite lookup_drop. by replace (p + (k - p)) with k by lia.
Qed.

Lemma list_find_skip (mid : list Ascii.ascii) x rest :
  Forall (λ a, ¬ P a) mid → P x → list_find P (mid ++ x :: rest) = Some (length mid, x).
Proof.
  intros Hmid Hx. induction Hmid as [|a mid Ha _ IH]; simpl.
  - by rewrite decide_True.
  - rewrite decide_False by done. by rewrite IH.
Qed.

Lemma find_from_skip pre mid x rest :
  Forall (λ a, ¬ P a) mid → P x →
  find_from P (pre ++ mid ++ x :: rest) (Some (length pre)) = Some (length pre + length mid).
Proof.
  intros Hmid Hx. unfold find_from. rewrite drop_app_length.
  by rewrite list_find_skip.
Qed.

Lemma find_from_none pre mid :
  Forall (λ a, ¬ P a) mid → find_from P (pre ++ mid) (Some (length pre)) = None.
Proof.
  intros Hmid. unfold find_from. rewrite drop_app_length.
  apply (list_find_None P) in Hmid. by rewrite Hmid.
Qed.

End FindFacts.

Lemma last_in_drop {A} (s : list A) p x : last s = Some x → p < length s → x ∈ drop p s.
Proof.
  rewrite last_lookup. intros Hx Hp. apply list_elem_of_lookup.
  exists (pred (length s) - p). rewrite lookup_drop.
  by replace (p + (pred (length s) - p)) with (pred (length s)) by lia.
Qed.

Lemma substr_in_range (s : list Ascii.ascii) p n :
  p ≤ length s →
  WERFunctions.substr s (Some p) n
  = Some match n with Some n => take n (drop p s) | None => drop p s end.
Proof. intros Hp. unfold WERFunctions.substr. by rewrite decide_True. Qed.

Lemma splitLoop_S fuel s sep rp vt :
  WERFunctions.splitLoop (S fuel) s sep rp vt
  = match WERFunctions.find_from (λ a, a = sep) s
            (WERFunctions.find_from (λ a, a ≠ sep) s (Some rp)) with
    | None =>
        match WERFunctions.substr s (WERFunctions.find_from (λ a, a ≠ sep) s (Some rp)) None with
        | Some word => (WERFunctions.Returns, vt ++ [word])
        | None => (WERFunctions.Throws_out_of_range, vt)
        end
    | Some rp' =>
        match WERFunctions.substr s (WERFunctions.find_from (λ a, a ≠ sep) s (Some rp))
                (Some (WERFunctions.distance rp'
                         (WERFunctions.find_from (λ a, a ≠ sep) s (Some rp)))) with
        | Some word => WERFunctions.splitLoop fuel s sep rp' (vt ++ [word])
        | None => (WERFunctions.Throws_out_of_range, vt)
        end
    end.
Proof. reflexivity. Qed.

Lemma splitLoop_outcome fuel s sep rp vt :
  rp < length s → length s - rp ≤ fuel →
  ∃ new, (WERFunctions.splitLoop fuel s sep rp vt).2 = vt ++ new
    ∧ Forall (λ word, word ≠ [] ∧ sep ∉ word) new
    ∧ (WERFunctions.splitLoop fuel s sep rp vt).1
      = if decide (last s = Some sep) then WERFunctions.Throws_out_of_range
        else WERFunctions.Returns.
Proof.
  revert rp vt. induction fuel as [|fuel IH]; intros rp vt Hrp Hfuel; [lia|].
  rewrite splitLoop_S.
  destruct (WERFunctions.find_from (λ a, a ≠ sep) s (Some rp)) as [lp|] eqn:Elp.
  - apply find_from_Some in Elp as (Hle & (a & Ha & Hasep) & _).
    assert (Hlp : lp < length s) by (by eapply lookup_lt_Some).
    destruct (WERFunctions.find_from (λ a, a = sep) s (Some lp)) as [rp'|] eqn:Erp.
    + apply find_from_Some in Erp as (Hle' & (b & Hb & ->) & Hbetween).
      assert (Hrp' : rp' < length s) by (by eapply lookup_lt_Some).
      assert (lp ≠ rp') by (intros ->; congruence).
      rewrite substr_in_range by lia. unfold WERFunctions.distance. simpl default.
      destruct (IH rp' (vt ++ [take (rp' - lp) (drop lp s)])) as (new & E2 & Hnew & E1);
        [lia..|].
      exists (take (rp' - lp) (drop lp s) :: new). split; [by rewrite E2, <-app_assoc|].
      split; [|done]. constructor; [|done]. split.
      * intros Hnil. apply (f_equal length) in Hnil.
        rewrite length_take, length_drop in Hnil. simpl in Hnil. lia.
      * intros (i & Hi)%list_elem_of_lookup.
        apply lookup_take_Some in Hi as [Hi Hlt]. rewrite lookup_drop in Hi.
        apply (Hbetween (lp + i) sep); [lia|done|done].
    + rewrite substr_in_range by lia. simpl.
      exists [drop lp s]. split; [done|]. split.
      * constructor; [|done]. split.
        -- intros Hnil. apply (f_equal length) in Hnil. rewrite length_drop in Hnil.
           simpl in Hnil. lia.
        -- intros (i & Hi)%list_elem_of_lookup. rewrite lookup_drop in Hi.
           apply (find_from_None _ _ _ Erp (lp + i) sep); [lia|done|done].
      * rewrite decide_False; [done|]. intros Hlast.
        apply (last_in_drop s lp) in Hlast as (i & Hi)%list_elem_of_lookup; [|done].
        rewrite lookup_drop in Hi.
        apply (find_from_None _ _ _ Erp (lp + i) sep); [lia|done|done].
  - simpl. exists []. split; [by rewrite app_nil_r|]. split; [done|].
    rewrite decide_True; [done|].
    destruct (last s) as [x|] eqn:Hlast.
    + pose proof Hlast as Hin. apply (last_in_drop s rp) in Hin as (i & Hi)%list_elem_of_lookup;
        [|done].
      rewrite lookup_drop in Hi.
      destruct (decide (x = sep)) as [->|Hx]; [done|].
      destruct (find_from_None _ _ _ Elp (rp + i) x); [lia|done|done].
    + apply last_None in Hlast. subst s. simpl in Hrp. lia.
Qed.

(** X26.  [convert_word_sequence_string_2_vector] always comes to an end.  It
    returns unless the string ends in the separator; then, and for a string
    of separators only, std::out_of_range leaves the call.  Either way
    [vt_words] keeps what it held, and what was appended are words that are
    not empty and hold no separator. *)
Theorem convert_word_sequence_string_2_vector_outcome word_sequence vt_words separator :
  let result :=
    WERFunctions.convert_word_sequence_string_2_vector word_sequence vt_words separator in
  ∃ new, result.2 = vt_words ++ new
    ∧ Forall (λ word, word ≠ [] ∧ separator ∉ word) new
    ∧ result.1 = if decide (last word_sequence = Some separator)
                 then WERFunctions.Throws_out_of_range
                 else WERFunctions.Returns.
Proof.
  intros result. unfold result, WERFunctions.convert_word_sequence_string_2_vector.
  destruct (decide (word_sequence = [])) as [->|Hne].
  - exists []. simpl. split; [by rewrite app_nil_r|]. split; [done|]. done.
  - apply splitLoop_outcome; [|lia]. destruct word_sequence; [done|simpl; lia].
Qed.

Lemma joined_cons sep word words :
  words ≠ [] →
  WERFunctions.joined sep (word :: words) = word ++ sep :: WERFunctions.joined sep words.
Proof. by destruct words. Qed.

Lemma length_joined sep words :
  Forall (λ word, word ≠ [] ∧ sep ∉ word) words →
  length words ≤ length (WERFunctions.joined sep words).
Proof.
  induction 1 as [|word words [Hne _] _ IH]; [done|].
  destruct words as [|word' words].
  - simpl. destruct word; [done|simpl; lia].
  - rewrite joined_cons by done. rewrite length_app. simpl in *. lia.
Qed.

Lemma splitLoop_joined fuel pre k words sep vt :
  words ≠ [] → Forall (λ word, word ≠ [] ∧ sep ∉ word) words →
  length words ≤ fuel →
  WERFunctions.splitLoop fuel (pre ++ replicate k sep ++ WERFunctions.joined sep words)
    sep (length pre) vt
  = (WERFunctions.Returns, vt ++ words).
Proof.
  intros Hne Hwords. revert fuel pre k vt.
  induction Hwords as [|word words [Hword Hsep] Hwords IH]; [done|].
  intros fuel pre k vt Hfuel. destruct fuel as [|fuel]; [simpl in Hfuel; lia|].
  destruct word as [|a word]; [done|].
  assert (Ha : a ≠ sep) by (intros ->; apply Hsep; by left).
  assert (Hseps : Forall (λ x, ¬ x ≠ sep) (replicate k sep)).
  { apply Forall_forall. intros x ->%elem_of_replicate_inv Hx. done. }
  assert (Hrest : Forall (λ x, ¬ x = sep) (a :: word)).
  { apply Forall_forall. intros x Hx ->. done. }
  destruct words as [|word' words].
  - simpl WERFunctions.joined. rewrite splitLoop_S.
    rewrite (find_from_skip (λ x, x ≠ sep) pre (replicate k sep) a word Hseps Ha).
    rewrite length_replicate.
    replace (pre ++ replicate k sep ++ a :: word)
      with ((pre ++ replicate k sep) ++ a :: word) by (by rewrite <-app_assoc).
    replace (length pre + k) with (length (pre ++ replicate k sep))
      by (by rewrite length_app, length_replicate).
    rewrite (find_from_none (λ x, x = sep) _ (a :: word) Hrest).
    rewrite substr_in_range by (rewrite !length_app; lia).
    by rewrite drop_app_length.
  - rewrite joined_cons by done. rewrite splitLoop_S.
    set (J := WERFunctions.joined sep (word' :: words)).
    replace (pre ++ replicate k sep ++ (a :: word) ++ sep :: J)
      with (pre ++ replicate k sep ++ a :: (word ++ sep :: J)) by done.
    rewrite (find_from_skip (λ x, x ≠ sep) pre (replicate k sep) a _ Hseps Ha).
    rewrite length_replicate.
    replace (pre ++ replicate k sep ++ a :: (word ++ sep :: J))
      with ((pre ++ replicate k sep) ++ (a :: word) ++ sep :: J)
      by (by rewrite <-app_assoc).
    replace (length pre + k) with (length (pre ++ replicate k sep))
      by (by rewrite length_app, length_replicate).
    rewrite (find_from_skip (λ x, x = sep) _ (a :: word) sep J Hrest eq_refl).
    rewrite substr_in_range by (rewrite !length_app; lia).
    unfold WERFunctions.distance. simpl default.
    replace (length (pre ++ replicate k sep) + length (a :: word)
             - length (pre ++ replicate k sep)) with (length (a :: word)) by lia.
    rewrite drop_app_length, take_app_length.
    replace ((pre ++ replicate k sep) ++ (a :: word) ++ sep :: J)
      with ((pre ++ replicate k sep ++ a :: word) ++ replicate 1 sep ++ J)
      by (simpl; by rewrite <-!app_assoc).
    replace (length (pre ++ replicate k sep) + length (a :: word))
      with (length (pre ++ replicate k sep ++ a :: word))
      by (rewrite !length_app; simpl; lia).
    rewrite IH; [by rewrite <-app_assoc|done|simpl in *; lia].
Qed.

(** X27.  Words that are not empty and hold no separator, written with one
    separator between each two of them and any number of separators in
    front, are split into the same words again, which are appended to
    [vt_words]. *)
Theorem convert_word_sequence_string_2_vector_joined k words vt_words separator :
  words ≠ [] →
  Forall (λ word, word ≠ [] ∧ separator ∉ word) words →
  WERFunctions.convert_word_sequence_string_2_vector
    (replicate k separator ++ WERFunctions.joined separator words) vt_words separator
  = (WERFunctions.Returns, vt_words ++ words).
Proof.
  intros Hne Hwords. unfold WERFunctions.convert_word_sequence_string_2_vector.
  pose proof (length_joined separator words Hwords) as Hlen.
  rewrite decide_False.
  - apply (splitLoop_joined _ [] k words separator vt_words Hne Hwords).
    rewrite length_app. lia.
  - intros Hnil. apply (f_equal length) in Hnil. rewrite length_app in Hnil.
    destruct words; [done|]. simpl in *. lia.
Qed.

Section ComputeWerFacts.

Import WERFunctions.

Variables ref rec : list (list Ascii.ascii).

Lemma to_short_id z : (-32768 ≤ z ≤ 32767)%Z → to_short z = z.
Proof. intros Hz. unfold to_short. rewrite Z.mod_small by lia. lia. Qed.

Lemma foldl_insert_miss (key : nat → nat * nat) (val : nat → Z) (l : list nat)
    (base : gmap (nat * nat) Z) (k : nat * nat) :
  (∀ i, i ∈ l → key i ≠ k) →
  foldl (λ mat i, <[key i := val i]> mat) base l !! k = base !! k.
Proof.
  revert base. induction l as [|i l IH]; intros base Hmiss; [done|]. simpl.
  rewrite IH by (intros i' Hi'; apply Hmiss; by right).
  apply lookup_insert_ne, Hmiss. by left.
Qed.

Lemma foldl_insert_hit (key : nat → nat * nat) (val : nat → Z) (l : list nat)
    (base : gmap (nat * nat) Z) (i : nat) :
  Inj (=) (=) key → i ∈ l →
  foldl (λ mat i, <[key i := val i]> mat) base l !! key i = Some (val i).
Proof.
  intros Hinj. revert base. induction l as [|i0 l IH]; intros base Hi.
  - by apply elem_of_nil in Hi.
  - simpl. destruct (decide (i ∈ l)) as [Hl|Hl]; [by apply IH|].
    apply elem_of_cons in Hi as [->|Hi]; [|done].
    rewrite foldl_insert_miss; [apply lookup_insert_eq|].
    intros i' Hi' Heq. apply Hinj in Heq. by subst.
Qed.

(** One run of the loop body: it leaves [cellValue] in its cell and touches
    no other cell. *)
Lemma compute_wer_cell_run (i j : nat) (mat : gmap (nat * nat) Z) r f diagonal above left :
  1 ≤ i → 1 ≤ j →
  rec !! (i - 1) = Some r → ref !! (j - 1) = Some f →
  mat !! (i - 1, j - 1) = Some diagonal →
  mat !! (i - 1, j) = Some above →
  mat !! (i, j - 1) = Some left →
  compute_wer_cell ref rec i j mat
  = Some (<[(i, j) := cellValue (bool_decide (r ≠ f)) diagonal above left]> mat).
Proof.
  intros Hi Hj Hr Hf Hd Ha Hl. unfold compute_wer_cell.
  rewrite Hd. simpl. rewrite Hr. simpl. rewrite Hf. simpl.
  assert (Hup : (i, j) ≠ (i - 1, j)) by (intros [=]; lia).
  assert (Hleft : (i, j) ≠ (i, j - 1)) by (intros [=]; lia).
  unfold cellValue. destruct (decide (r ≠ f)) as [Hne|Heq].
  - rewrite (bool_decide_eq_true_2 _ Hne).
    rewrite (lookup_insert_ne mat (i, j) (i - 1, j) diagonal Hup), Ha. simpl.
    rewrite (lookup_insert_eq mat (i, j) diagonal). simpl.
    destruct (decide (above < diagonal)%Z) as [H1|H1].
    + rewrite insert_insert_eq.
      rewrite (lookup_insert_ne mat (i, j) (i, j - 1) above Hleft), Hl. simpl.
      rewrite (lookup_insert_eq mat (i, j) above). simpl.
      destruct (decide (left < above)%Z) as [H2|H2].
      * rewrite insert_insert_eq, lookup_insert_eq. simpl. rewrite insert_insert_eq.
        do 3 f_equal. lia.
      * rewrite lookup_insert_eq. simpl. rewrite insert_insert_eq. do 3 f_equal. lia.
    + rewrite (lookup_insert_ne mat (i, j) (i, j - 1) diagonal Hleft), Hl. simpl.
      rewrite (lookup_insert_eq mat (i, j) diagonal). simpl.
      destruct (decide (left < diagonal)%Z) as [H2|H2].
      * rewrite insert_insert_eq, lookup_insert_eq. simpl. rewrite insert_insert_eq.
        do 3 f_equal. lia.
      * rewrite lookup_insert_eq. simpl. rewrite insert_insert_eq. do 3 f_equal. lia.
  - by rewrite (bool_decide_eq_false_2 _ Heq).
Qed.

Lemma filledTo_defined (mat : gmap (nat * nat) Z) (i j a b : nat) :
  filledTo ref rec mat i j → a ≤ length rec → b ≤ length ref →
  b = 0 ∨ a = 0 ∨ a < i ∨ (a = i ∧ b ≤ j) → is_Some (mat !! (a, b)).
Proof.
  intros (Hcol & Hrow & Hcells) Ha Hb Hdone.
  destruct (decide (b = 0)) as [->|Hb0]; [rewrite Hcol; eauto|].
  destruct (decide (a = 0)) as [->|Ha0]; [rewrite Hrow; eauto|].
  destruct (Hcells a b) as (r & f & d & up & l & _ & _ & _ & _ & _ & ->); [lia..|eauto].
Qed.

Lemma filledTo_cell (mat : gmap (nat * nat) Z) (i j : nat) :
  1 ≤ i ≤ length rec → j < length ref → filledTo ref rec mat i j →
  ∃ mat', compute_wer_cell ref rec i (S j) mat = Some mat' ∧ filledTo ref rec mat' i (S j).
Proof.
  intros Hi Hj Hfilled.
  destruct (lookup_lt_is_Some_2 rec (i - 1)) as [r Hr]; [lia|].
  destruct (lookup_lt_is_Some_2 ref j) as [f Hf]; [lia|].
  destruct (filledTo_defined mat i j (i - 1) j Hfilled) as [d Hd]; [lia..|].
  destruct (filledTo_defined mat i j (i - 1) (S j) Hfilled) as [up Hup]; [lia..|].
  destruct (filledTo_defined mat i j i j Hfilled) as [l Hl]; [lia..|].
  eexists. split.
  - apply (compute_wer_cell_run i (S j) mat r f d up l); try lia;
      by replace (S j - 1) with j by lia.
  - destruct Hfilled as (Hcol & Hrow & Hcells). split; [|split].
    + intros a Ha. rewrite lookup_insert_ne by (intros [=]). by apply Hcol.
    + intros b Hb. rewrite lookup_insert_ne by (intros [=]; lia). by apply Hrow.
    + intros a b Ha Hb Hdone. destruct (decide ((a, b) = (i, S j))) as [[= -> ->]|Hother].
      * exists r, f, d, up, l. replace (S j - 1) with j by lia.
        rewrite !lookup_insert_ne by (intros [=]; lia). rewrite lookup_insert_eq. done.
      * destruct (Hcells a b) as (r' & f' & d' & up' & l' & ? & ? & ? & ? & ? & ?);
          [lia|lia| |].
        { destruct Hdone as [?|[-> Hle]]; [by left|]. right. split; [done|].
          destruct (decide (b = S j)) as [->|?]; [done|lia]. }
        exists r', f', d', up', l'.
        rewrite !lookup_insert_ne; [done|done|..];
          intros [=]; destruct Hdone as [?|[? ?]]; lia.
Qed.

Lemma filledTo_row (mat : gmap (nat * nat) Z) (i j k : nat) :
  1 ≤ i ≤ length rec → j + k = length ref → filledTo ref rec mat i j →
  ∃ mat', forEach (λ j, compute_wer_cell ref rec i j) (seq (S j) k) mat = Some mat'
    ∧ filledTo ref rec mat' i (length ref).
Proof.
  intros Hi. revert j mat. induction k as [|k IH]; intros j mat Hjk Hfilled; simpl.
  - exists mat. split; [done|]. by replace (length ref) with j by lia.
  - destruct (filledTo_cell mat i j) as (mat1 & E1 & H1); [done|lia|done|].
    rewrite E1. simpl. apply IH; [lia|done].
Qed.

Lemma filledTo_next_row (mat : gmap (nat * nat) Z) (i : nat) :
  filledTo ref rec mat i (length ref) → filledTo ref rec mat (S i) 0.
Proof.
  intros (Hcol & Hrow & Hcells). split; [done|]. split; [done|].
  intros a b Ha Hb Hdone. apply Hcells; [done|done|].
  destruct (decide (a = i)); [right|left]; lia.
Qed.

Lemma filledTo_rows (mat : gmap (nat * nat) Z) (i k : nat) :
  1 ≤ i → i - 1 + k = length rec → filledTo ref rec mat i 0 →
  ∃ mat', forEach (λ i, forEach (λ j, compute_wer_cell ref rec i j) (seq 1 (length ref)))
            (seq i k) mat = Some mat'
    ∧ filledTo ref rec mat' (S (length rec)) 0.
Proof.
  revert i mat. induction k as [|k IH]; intros i mat Hi Hik Hfilled; simpl.
  - exists mat. split; [done|]. by replace (S (length rec)) with i by lia.
  - destruct (filledTo_row mat i 0 (length ref)) as (mat1 & E1 & H1); [lia|done|done|].
    rewrite E1. simpl. apply IH; [lia|lia|]. by apply filledTo_next_row.
Qed.

(** The loops of [compute_wer] never read a cell that was not written and
    never index a vector out of range; they leave every cell filled. *)
Lemma compute_wer_mat_filled :
  ∃ mat, compute_wer_mat ref rec = Some mat ∧ filledTo ref rec mat (S (length rec)) 0.
Proof.
  unfold compute_wer_mat. apply filledTo_rows; [done|lia|].
  split; [|split].
  - intros a Ha. rewrite foldl_insert_miss by (intros j Hj%elem_of_seq [=]; lia).
    apply (foldl_insert_hit (λ i, (i, 0)) (λ i, to_short (Z.of_nat i))).
    + by intros x y [=].
    + apply elem_of_seq. lia.
  - intros b Hb. destruct (decide (b = 0)) as [->|Hb0].
    + rewrite foldl_insert_miss.
      * apply (foldl_insert_hit (λ i, (i, 0)) (λ i, to_short (Z.of_nat i))).
        -- by intros x y [=].
        -- apply elem_of_seq. lia.
      * intros j Hj%elem_of_seq [=]. lia.
    + apply (foldl_insert_hit (λ j, (0, j)) (λ j, to_short (Z.of_nat j))).
      * by intros x y [=].
      * apply elem_of_seq. lia.
  - intros a b Ha Hb Hdone. lia.
Qed.

Lemma compute_wer_from_mat :
  ∃ mat errors, filledTo ref rec mat (S (length rec)) 0
    ∧ mat !! (length rec, length ref) = Some errors
    ∧ compute_wer ref rec = Some (errors, length ref).
Proof.
  destruct compute_wer_mat_filled as (mat & E & Hfilled).
  destruct (filledTo_defined mat _ _ (length rec) (length ref) Hfilled) as [errors He];
    [lia..|].
  exists mat, errors. split; [done|]. split; [done|].
  unfold compute_wer. rewrite E. simpl. by rewrite He.
Qed.

(** Without overflow, a cell holds a number between the difference of its
    indices and the greater of them, and it holds 0 exactly when the two
    prefixes are the same. *)
Lemma filledTo_bounds (mat : gmap (nat * nat) Z) :
  (Z.of_nat (length ref) ≤ 32767)%Z → (Z.of_nat (length rec) ≤ 32767)%Z →
  filledTo ref rec mat (S (length rec)) 0 →
  ∀ a b, a ≤ length rec → b ≤ length ref →
    ∃ v, mat !! (a, b) = Some v
      ∧ (Z.abs (Z.of_nat a - Z.of_nat b) ≤ v ≤ Z.max (Z.of_nat a) (Z.of_nat b))%Z
      ∧ (v = 0%Z ↔ take a rec = take b ref).
Proof.
  intros Hm Hn (Hcol & Hrow & Hcells).
  assert (Hnil : ∀ (l : list (list Ascii.ascii)) k, k ≤ length l → [] = take k l ↔ k = 0).
  { intros l k Hk. destruct k, l; simpl in *; split; try done; lia. }
  induction a as [|a IHa]; intros b Ha Hb.
  - exists (Z.of_nat b). rewrite Hrow by done. rewrite to_short_id by lia.
    split; [done|]. split; [lia|]. simpl. rewrite Hnil by done. lia.
  - induction b as [|b IHb].
    + exists (Z.of_nat (S a)). rewrite Hcol by done. rewrite to_short_id by lia.
      split; [done|]. split; [lia|]. split; [lia|].
      intros H. symmetry in H. simpl in H. apply Hnil in H; [done|done].
    + destruct (Hcells (S a) (S b)) as (r & f & d & up & l & Hr & Hf & Hd & Hup & Hl & Hv);
        [lia..|].
      replace (S a - 1) with a in * by lia. replace (S b - 1) with b in * by lia.
      destruct (IHa b) as (d' & Hd' & Bd & Zd); [lia..|].
      destruct (IHa (S b)) as (up' & Hup' & Bup & _); [lia..|].
      destruct IHb as (l' & Hl' & Bl & _); [lia|].
      rewrite Hd in Hd'. rewrite Hup in Hup'. rewrite Hl in Hl'.
      inversion Hd'; inversion Hup'; inversion Hl'; subst d' up' l'.
      eexists. split; [exact Hv|].
      rewrite (take_S_r rec a r Hr), (take_S_r ref b f Hf).
      unfold cellValue. case_bool_decide as Hrf.
      * rewrite to_short_id by lia. split; [lia|]. split; [lia|].
        intros [_ [= ?]]%app_inj_tail. done.
      * subst f. split; [lia|]. rewrite Zd. split; [by intros ->|].
        by intros [? _]%app_inj_tail.
Qed.

End ComputeWerFacts.

(** X28.  [compute_wer] completes for all [ref] and [rec]: no cell of the
    matrix is read before it was written and no word index is out of range;
    the denominator of the rate is the length of [ref].  For at most 32767
    words on each side the numerator lies between the difference of the two
    lengths and the greater of them, and it is 0 exactly when [rec] is
    [ref]. *)
Theorem compute_wer_in_range ref rec :
  ∃ errors,
    WERFunctions.compute_wer ref rec = Some (errors, length ref)
    ∧ ((Z.of_nat (length ref) ≤ 32767)%Z → (Z.of_nat (length rec) ≤ 32767)%Z →
       (Z.abs (Z.of_nat (length rec) - Z.of_nat (length ref)) ≤ errors
        ≤ Z.max (Z.of_nat (length rec)) (Z.of_nat (length ref)))%Z
       ∧ (errors = 0%Z ↔ rec = ref)).
Proof.
  destruct (compute_wer_from_mat ref rec) as (mat & errors & Hfilled & He & E).
  exists errors. split; [done|]. intros Hm Hn.
  destruct (filledTo_bounds ref rec mat Hm Hn Hfilled (length rec) (length ref))
    as (v & Hv & Hb & Hz); [done..|].
  rewrite He in Hv. inversion Hv; subst v.
  split; [done|]. by rewrite !take_ge in Hz by done.
Qed.

(** X29.  A sequence of words compared with itself has no errors, whatever
    its length is and whatever overflows elsewhere in the matrix. *)
Theorem compute_wer_same ref :
  WERFunctions.compute_wer ref ref = Some (0%Z, length ref).
Proof.
  destruct (compute_wer_from_mat ref ref) as (mat & errors & Hfilled & He & E).
  rewrite E. do 2 f_equal.
  assert (Hdiag : ∀ a, a ≤ length ref → mat !! (a, a) = Some 0%Z).
  { destruct Hfilled as (Hcol & Hrow & Hcells). induction a as [|a IH]; intros Ha.
    - by rewrite Hrow.
    - destruct (Hcells (S a) (S a)) as (r & f & d & up & l & Hr & Hf & Hd & _ & _ & Hv);
        [lia..|].
      replace (S a - 1) with a in * by lia.
      rewrite Hr in Hf. inversion Hf; subst f.
      rewrite IH in Hd by lia. inversion Hd; subst d.
      rewrite Hv. unfold WERFunctions.cellValue.
      by rewrite bool_decide_eq_false_2 by (intros H; by apply H). }
  rewrite Hdiag in He by done. by inversion He.
Qed.

(** X30.  The matrix is of [short]: for a reference of 32768 to 65535 words
    and an empty [rec] the numerator of the rate is the length of [ref]
    wrapped around, a negative number. *)
Theorem compute_wer_wraps ref :
  (32768 ≤ Z.of_nat (length ref) < 65536)%Z →
  WERFunctions.compute_wer ref [] = Some ((Z.of_nat (length ref) - 65536)%Z, length ref).
Proof.
  intros Hlen.
  destruct (compute_wer_from_mat ref []) as (mat & errors & Hfilled & He & E).
  rewrite E. do 2 f_equal.
  destruct Hfilled as (_ & Hrow & _). simpl in He. rewrite Hrow in He by done.
  inversion He. unfold WERFunctions.to_short.
  replace (Z.of_nat (length ref) + 32768)%Z
    with (Z.of_nat (length ref) - 32768 + 1 * 65536)%Z by lia.
  rewrite Z_mod_plus_full, Z.mod_small by lia. lia.
Qed.

(** * Instances

    Each of the further properties that has a condition, applied to one of
    the concrete networks. *)

Lemma length_lowercase s : String.length (lowercase s) = String.length s.
Proof. induction s as [|c s IH]; [done|]. simpl. by rewrite IH. Qed.

Lemma UpdateEvalOrder_replaces_witness :
  ∃ w', UpdateEvalOrder None [0; 2; 1] chainCompiled = (Ok tt, w')
    ∧ GetEvalOrder None w' = Ok [0; 2; 1]
    ∧ nodes w' = nodes chainCompiled.
Proof.
  destruct (UpdateEvalOrder_replaces None [0; 2; 1] chainCompiled [0; 1; 2])
    as (w' & Hrun & Hget & _ & Hnodes & _); [vm_compute; reflexivity|].
  exists w'. split; [exact Hrun|]. split; [exact Hget|exact Hnodes].
Defined.

Lemma FormEvalOrder_root_needs_global_witness :
  ∃ w', FormEvalOrder (Some 1) chainFresh = (Fail NullDereference, w')
    ∧ m_evalOrders (net w') = m_evalOrders (net chainFresh)
    ∧ EvalOrderExists (Some 1) w' = EvalOrderExists (Some 1) chainFresh.
Proof.
  apply (FormEvalOrder_root_needs_global chainFresh 1). vm_compute. reflexivity.
Defined.

Lemma SortByGlobalEvalOrder_idempotent_witness :
  ∃ sorted, SortByGlobalEvalOrder [2; 0] chainCompiled = Ok sorted
    ∧ SortByGlobalEvalOrder sorted chainCompiled = Ok sorted.
Proof.
  apply (SortByGlobalEvalOrder_idempotent chainCompiled [2; 0] [0; 1; 2]).
  vm_compute. reflexivity.
Defined.

Lemma TravserseInSortedGlobalEvalOrder_missing_order_witness :
  ∃ e, TravserseInSortedGlobalEvalOrder true noLoops chainCompiled [None; Some 1] record []
       = (Fail e, []).
Proof.
  apply (TravserseInSortedGlobalEvalOrder_missing_order true noLoops chainCompiled
           [None; Some 1] (Some 1) record []).
  - right. left.
  - vm_compute. reflexivity.
Defined.

Lemma TravserseInSortedGlobalEvalOrder_no_loops_witness :
  TravserseInSortedGlobalEvalOrder true noLoops chainRootC [Some 1; Some 2] record []
  = (Ok tt, foldl (λ s node, record node s) [] [0; 1; 2]).
Proof.
  apply (TravserseInSortedGlobalEvalOrder_no_loops true noLoops chainRootC
           [Some 1; Some 2] [0; 1; 0; 1; 2] [0; 1; 2] record []).
  - vm_compute. reflexivity.
  - vm_compute. reflexivity.
  - intros n Hn.
    repeat (apply elem_of_cons in Hn as [->|Hn]); try (by apply elem_of_nil in Hn);
      vm_compute; reflexivity.
Defined.

Lemma ForwardPropFromTo_empty_frontier_witness :
  ForwardPropFromTo true noLoops chainRootC [] [Some 2] [] = (Ok tt, []).
Proof.
  destruct (ForwardPropFromTo_empty_frontier true noLoops chainRootC [Some 2] [0; 1; 2] [])
    as [Hstored _]; [vm_compute; reflexivity|].
  apply (Hstored [0; 1; 2]). vm_compute. reflexivity.
Defined.

Lemma AddNodeToNet_then_GetNodeFromName_witness :
  ∃ w', AddNodeToNet lowercase 1 groupsWorld = (Ok 1, w')
    ∧ GetNodeFromName lowercase "b" w' = Ok 1
    ∧ GetNodeFromName lowercase "A" w' = Ok 0
    ∧ GetTotalNumberOfNodes w' = 2.
Proof.
  destruct (AddNodeToNet_then_GetNodeFromName lowercase groupsWorld 1)
    as (w' & Hrun & _ & Hsame & Hother & Hcount); [vm_compute; reflexivity|].
  exists w'. split; [exact Hrun|]. split; [|split].
  - apply Hsame. vm_compute. reflexivity.
  - rewrite Hother; [vm_compute; reflexivity|]. vm_compute. discriminate.
  - rewrite Hcount. vm_compute. reflexivity.
Defined.

Lemma GetNodeFromName_guarded_witness :
  (∃ node, GetNodeFromName lowercase "A" groupsWorld = Ok node)
  ∧ GetNodeFromName lowercase "B" groupsWorld
    = Fail (RuntimeError "GetNodeFromName: Network has no node named 'B'.").
Proof.
  split.
  - destruct (GetNodeFromName_guarded lowercase "A" groupsWorld) as [Hthere _].
    destruct Hthere as (node & Hget & _); [vm_compute; reflexivity|]. by exists node.
  - destruct (GetNodeFromName_guarded lowercase "B" groupsWorld) as [_ Hmissing].
    apply Hmissing. vm_compute. reflexivity.
Defined.

Lemma AddNodeToNet_then_RemoveNodeFromNet_witness :
  ∃ w1 w2, AddNodeToNet lowercase 1 groupsWorld = (Ok 1, w1)
    ∧ RemoveNodeFromNet lowercase 1 w1 = (Ok 1, w2)
    ∧ net w2 = net groupsWorld.
Proof.
  destruct (AddNodeToNet_then_RemoveNodeFromNet lowercase groupsWorld 1)
    as (w1 & w2 & Hadd & Hremove & _ & _ & Hnet); [vm_compute; reflexivity|].
  exists w1, w2. split; [exact Hadd|]. split; [exact Hremove|exact Hnet].
Defined.

Lemma AddNodeToNetIfNotYet_no_clash_witness :
  ∃ w', AddNodeToNetIfNotYet lowercase showId 1 false groupsWorld = (Ok true, w')
    ∧ m_nameToNodeMap (net w') !! "b" = Some 1
    ∧ NodeName w' 1 = "B".
Proof.
  destruct (AddNodeToNetIfNotYet_no_clash lowercase showId 1 false groupsWorld)
    as (w' & Hrun & Hin & _ & Hname & _); [left; vm_compute; reflexivity|].
  exists w'. split; [exact Hrun|]. split; [exact Hin|exact Hname].
Defined.

Lemma AddNodeToNetIfNotYet_clash_rejected_witness :
  AddNodeToNetIfNotYet lowercase showId 8 true groupsWorld
  = (Fail (RuntimeError (AddNodeToNetIfNotYet_message showId groupsWorld 8 0)), groupsWorld).
Proof.
  apply (AddNodeToNetIfNotYet_clash_rejected lowercase showId 8 true groupsWorld 0).
  - vm_compute. reflexivity.
  - discriminate.
  - right. vm_compute. reflexivity.
Defined.

Lemma AddNodeToNetIfNotYet_makes_unique_witness :
  ∃ k w' second,
    AddNodeToNetIfNotYet lowercase showId 1 true clashWorld = (Ok second, w')
    ∧ 1 ≤ k ≤ 1
    ∧ NodeName w' 1 = prefixed k "A.B"
    ∧ m_nameToNodeMap (net w') !! lowercase (NodeName w' 1) = Some 1.
Proof.
  destruct (AddNodeToNetIfNotYet_makes_unique lowercase showId 1 clashWorld 0)
    as (k & w' & second & Hrun & Hk & Hname & _ & Hin & _).
  - intros s t Hst. by rewrite <-(length_lowercase s), <-(length_lowercase t), Hst.
  - apply elem_of_dom. vm_compute. eexists. reflexivity.
  - vm_compute. reflexivity.
  - vm_compute. reflexivity.
  - discriminate.
  - exists k, w', second. split; [exact Hrun|]. split; [exact Hk|].
    split; [exact Hname|exact Hin].
Defined.

Lemma AddToNodeGroup_invalid_tag_witness :
  AddToNodeGroup "input" 0 groupsWorld
  = (Fail (InvalidArgument
             ("Invalid group tag '" +:+ "input"
              +:+ "', must be one of 'feature', 'label', 'criterion', 'evaluation', 'output'.")),
     groupsWorld).
Proof.
  apply (AddToNodeGroup_invalid_tag "input" 0 groupsWorld).
  apply (bool_decide_unpack _). vm_compute. exact I.
Defined.

Lemma AddToNodeGroup_idempotent_witness :
  ∃ w', AddToNodeGroup "label" 0 groupsWorld = (Ok tt, w')
    ∧ 0 ∈ m_labelNodes (net w')
    ∧ AddToNodeGroup "label" 0 w' = (Ok tt, w').
Proof.
  destruct (AddToNodeGroup_idempotent "label" 0 groupsWorld)
    as (g & w' & Hg & Hrun & Hin & _ & _ & Hagain).
  - apply (bool_decide_unpack _). vm_compute. exact I.
  - apply elem_of_dom. vm_compute. eexists. reflexivity.
  - vm_compute in Hg. injection Hg as <-.
    exists w'. split; [exact Hrun|]. split; [exact Hin|exact Hagain].
Defined.

Lemma AddToNodeGroup_keeps_NoDup_witness :
  ∃ w', AddToNodeGroup "feature" 1 groupsWorld = (Ok tt, w')
    ∧ NoDup (m_featureNodes (net w')).
Proof.
  destruct (AddToNodeGroup_keeps_NoDup "feature" 1 groupsWorld featureNodes)
    as (w' & Hrun & Hnd & _).
  - vm_compute. reflexivity.
  - apply (bool_decide_unpack _). vm_compute. exact I.
  - intros Hin. apply (bool_decide_pack _) in Hin. vm_compute in Hin. destruct Hin.
  - exists w'. split; [exact Hrun|exact Hnd].
Defined.

Lemma AddToNodeGroup_then_RemoveFromNodeGroup_witness :
  ∃ w1 w2, AddToNodeGroup "label" 1 groupsWorld = (Ok tt, w1)
    ∧ RemoveFromNodeGroup "label" 1 w1 = (Ok true, w2)
    ∧ net w2 = net groupsWorld.
Proof.
  destruct (AddToNodeGroup_then_RemoveFromNodeGroup "label" 1 groupsWorld labelNodes)
    as (w1 & w2 & Hadd & Hremove & Hnet & _).
  - vm_compute. reflexivity.
  - apply elem_of_dom. vm_compute. eexists. reflexivity.
  - apply (bool_decide_unpack _). vm_compute. exact I.
  - exists w1, w2. split; [exact Hadd|]. split; [exact Hremove|exact Hnet].
Defined.

Lemma GetEvalNodesWithName_default_witness :
  ∃ evalNodes w',
    GetEvalNodesWithName lowercase evalWorldNumElements [] evalWorld = (Ok evalNodes, w')
    ∧ NoDup evalNodes
    ∧ ∀ n, n ∈ evalNodes ↔ n ∈ [0; 1] ∨ n ∈ [1].
Proof.
  destruct (GetEvalNodesWithName_default lowercase evalWorldNumElements evalWorld)
    as (evalNodes & Hrun & Hnd & Hin); [left; vm_compute; discriminate|].
  exists evalNodes. eexists. split; [exact Hrun|]. split; [exact Hnd|exact Hin].
Defined.

Lemma GetEvalNodesWithName_named_witness :
  ∃ evalNodes,
    GetEvalNodesWithName lowercase evalWorldNumElements ["ERR"; "ce"; "err"] evalWorld
    = (Ok evalNodes, evalWorld)
    ∧ NoDup evalNodes.
Proof.
  destruct (GetEvalNodesWithName_named lowercase evalWorldNumElements
              ["ERR"; "ce"; "err"] evalWorld) as (evalNodes & Hrun & Hnd & _).
  - discriminate.
  - intros name Hname.
    repeat (apply elem_of_cons in Hname as [->|Hname]); try (by apply elem_of_nil in Hname);
      eexists; (split; [vm_compute; reflexivity|reflexivity]).
  - exists evalNodes. split; [exact Hrun|exact Hnd].
Defined.

Lemma GetEvalNodesWithName_rejects_witness :
  ∃ e, GetEvalNodesWithName lowercase evalWorldNumElements ["ce"; "wide"] evalWorld
       = (Fail e, evalWorld).
Proof.
  apply (GetEvalNodesWithName_rejects lowercase evalWorldNumElements ["ce"; "wide"]
           evalWorld "wide" 2).
  - right. left.
  - vm_compute. reflexivity.
  - vm_compute. discriminate.
Defined.

Lemma OutputNodesByName_named_witness :
  isOk (OutputNodesByName lowercase ["CE"; "wide"] evalWorld) = true
  ↔ ∀ name, name ∈ ["CE"; "wide"] → NodeNameExists lowercase name evalWorld = true.
Proof.
  destruct (OutputNodesByName_named lowercase ["CE"; "wide"] evalWorld) as [Hiff _];
    [discriminate|].
  exact Hiff.
Defined.

Lemma convert_word_sequence_string_2_vector_joined_witness :
  WERFunctions.convert_word_sequence_string_2_vector
    (replicate 2 space ++ WERFunctions.joined space theWords) [] space
  = (WERFunctions.Returns, [] ++ theWords).
Proof.
  apply (convert_word_sequence_string_2_vector_joined 2 theWords [] space).
  - discriminate.
  - apply (bool_decide_unpack _). vm_compute. exact I.
Defined.

Lemma compute_wer_in_range_witness :
  ∃ errors,
    WERFunctions.compute_wer theWords theRecognised = Some (errors, 3)
    ∧ (1 ≤ errors ≤ 3)%Z
    ∧ errors ≠ 0%Z.
Proof.
  destruct (compute_wer_in_range theWords theRecognised) as (errors & Hrun & Hrange).
  destruct Hrange as [Hbounds Hzero]; [vm_compute; discriminate..|].
  exists errors. split; [exact Hrun|]. split; [exact Hbounds|].
  intros He. apply Hzero in He. discriminate He.
Defined.

Lemma compute_wer_wraps_witness :
  WERFunctions.compute_wer longReference []
  = Some ((Z.of_nat (length longReference) - 65536)%Z, length longReference).
Proof.
  apply (compute_wer_wraps longReference).
  unfold longReference. rewrite length_replicate. lia.
Defined.

(** [GetAllNodes] lists the nodes by ascending key, here [ce], [err] and
    [wide], whatever the order in which they were added. *)
Example GetAllNodes_in_key_order :
  GetAllNodes keyBefore evalWorld = [1; 0; 2]
  ∧ GetAllNodes (λ key1 key2, keyBefore key2 key1) evalWorld = [2; 0; 1].
Proof. split; vm_compute; reflexivity. Qed.
